(** * Synth: a monophonic Web Audio synthesizer

    A shallow embedding of the synthesizer of [src/components/Synthesizer.tsx],
    of its [Knob] and [Keyboard] widgets and of the preset query and
    mutations of the Convex backend, together with the properties its
    specification states about them and further properties of the code.

    Numbers.  A JavaScript [number] is modelled as an exact rational
    ([Q]): rounding of IEEE doubles (and of the [Float32Array] that holds a
    waveshaper curve) is not modelled, and equalities between numbers are
    stated with [==].  [Math.PI] is the rational that the double constant
    denotes.  [Math.pow] with a fractional exponent has no rational value,
    so the reverb impulse response is modelled over the reals.

    Web Audio.  The browser's audio graph is modelled as far as the
    synthesizer drives it.  The eight nodes that one [playNote] creates and
    the connections it makes form a [Voice]; the context keeps every voice
    built in it, since nothing is ever disconnected.  An [AudioParam] carries
    its automation events and the value slot that [.value] reads; the slot
    is refreshed only by rendering that moves the clock of the context
    ([render]), so that a handler reads what the last rendering left.  A Web
    Audio call that raises (a negative time, the oscillator type ["custom"],
    a buffer without sample frames) ends the handler that made it.

    React.  A handler reads and writes the state of the component as of the
    last render: re-renders are taken to happen between events, so that the
    closures the handlers run with are those of the current state. *)

From Stdlib Require Import Reals Lra.
From Stdlib Require Import ZArith QArith Qabs Qround Qminmax Qreals Lqa Lia List String.
From stdpp Require Import base list gmap strings stringmap.

Open Scope Q_scope.

(** ** Parameters ([SynthParams]) *)

Record OscillatorParams := {
  osc_type : string;
  osc_frequency : Q;
  osc_detune : Q
}.

Record FilterParams := {
  filter_type : string;
  filter_frequency : Q;
  filter_Q : Q
}.

Record EnvelopeParams := {
  attack : Q;
  decay : Q;
  sustain : Q;
  release : Q
}.

Record EffectsParams := {
  reverb : Q;
  delay : Q;
  distortion : Q
}.

Record SynthParams := {
  oscillator : OscillatorParams;
  filter : FilterParams;
  envelope : EnvelopeParams;
  effects : EffectsParams;
  volume : Q
}.

Definition defaultParams : SynthParams := {|
  oscillator := {| osc_type := "sawtooth"; osc_frequency := 440; osc_detune := 0 |};
  filter := {| filter_type := "lowpass"; filter_frequency := 2000; filter_Q := 1 |};
  envelope := {| attack := 0.1; decay := 0.3; sustain := 0.7; release := 0.5 |};
  effects := {| reverb := 0.2; delay := 0.1; distortion := 0 |};
  volume := 0.5
|}.

(** The [value] argument of [updateParam] is a [number | string]. *)
Inductive ParamValue :=
| VNum (n : Q)
| VStr (s : string).

(** The categories of [SynthParams] that are objects.  ([volume], a number,
    is written by its own setter, [setVolume].) *)
Inductive Category := oscillator_cat | filter_cat | envelope_cat | effects_cat.

(** [{ ...prev[category], [param]: value }], read through the declared
    fields of the category.  A key that the category does not declare, or a
    value whose kind is not the declared one of the field, ends up in a slot
    that no code of the synthesizer reads as a parameter: the declared
    fields keep their values. *)
Definition updateOscillator (o : OscillatorParams) (param : string) (value : ParamValue)
  : OscillatorParams :=
  match value with
  | VStr s =>
      if String.eqb param "type"
      then {| osc_type := s; osc_frequency := osc_frequency o; osc_detune := osc_detune o |}
      else o
  | VNum n =>
      if String.eqb param "frequency"
      then {| osc_type := osc_type o; osc_frequency := n; osc_detune := osc_detune o |}
      else if String.eqb param "detune"
      then {| osc_type := osc_type o; osc_frequency := osc_frequency o; osc_detune := n |}
      else o
  end.

Definition updateFilter (f : FilterParams) (param : string) (value : ParamValue)
  : FilterParams :=
  match value with
  | VStr s =>
      if String.eqb param "type"
      then {| filter_type := s; filter_frequency := filter_frequency f; filter_Q := filter_Q f |}
      else f
  | VNum n =>
      if String.eqb param "frequency"
      then {| filter_type := filter_type f; filter_frequency := n; filter_Q := filter_Q f |}
      else if String.eqb param "Q"
      then {| filter_type := filter_type f; filter_frequency := filter_frequency f; filter_Q := n |}
      else f
  end.

Definition updateEnvelope (e : EnvelopeParams) (param : string) (value : ParamValue)
  : EnvelopeParams :=
  match value with
  | VStr _ => e
  | VNum n =>
      if String.eqb param "attack"
      then {| attack := n; decay := decay e; sustain := sustain e; release := release e |}
      else if String.eqb param "decay"
      then {| attack := attack e; decay := n; sustain := sustain e; release := release e |}
      else if String.eqb param "sustain"
      then {| attack := attack e; decay := decay e; sustain := n; release := release e |}
      else if String.eqb param "release"
      then {| attack := attack e; decay := decay e; sustain := sustain e; release := n |}
      else e
  end.

Definition updateEffects (e : EffectsParams) (param : string) (value : ParamValue)
  : EffectsParams :=
  match value with
  | VStr _ => e
  | VNum n =>
      if String.eqb param "reverb"
      then {| reverb := n; delay := delay e; distortion := distortion e |}
      else if String.eqb param "delay"
      then {| reverb := reverb e; delay := n; distortion := distortion e |}
      else if String.eqb param "distortion"
      then {| reverb := reverb e; delay := delay e; distortion := n |}
      else e
  end.

(** The state updater of [updateParam]:
    [prev => ({ ...prev, [category]: { ...prev[category], [param]: value } })]. *)
Definition updateParamOf (category : Category) (param : string) (value : ParamValue)
    (prev : SynthParams) : SynthParams :=
  match category with
  | oscillator_cat =>
      {| oscillator := updateOscillator (oscillator prev) param value;
         filter := filter prev; envelope := envelope prev;
         effects := effects prev; volume := volume prev |}
  | filter_cat =>
      {| oscillator := oscillator prev;
         filter := updateFilter (filter prev) param value;
         envelope := envelope prev; effects := effects prev; volume := volume prev |}
  | envelope_cat =>
      {| oscillator := oscillator prev; filter := filter prev;
         envelope := updateEnvelope (envelope prev) param value;
         effects := effects prev; volume := volume prev |}
  | effects_cat =>
      {| oscillator := oscillator prev; filter := filter prev;
         envelope := envelope prev;
         effects := updateEffects (effects prev) param value;
         volume := volume prev |}
  end.

(** The updater of the volume knob: [prev => ({ ...prev, volume: value })]. *)
Definition setVolumeOf (value : Q) (prev : SynthParams) : SynthParams :=
  {| oscillator := oscillator prev; filter := filter prev;
     envelope := envelope prev; effects := effects prev; volume := value |}.

(** ** The knob widget ([Knob.tsx]) *)

Module Knob.

Record Props := {
  label : string;
  value : Q;
  min : Q;
  max : Q;
  step : Q
}.

(** [step = 0.01] when the caller gives none. *)
Definition defaultStep : Q := 0.01.

(** The [useState] cells of the component. *)
Record State := {
  isDragging : bool;
  startY : Q;
  startValue : Q
}.

Definition initialState : State :=
  {| isDragging := false; startY := 0; startValue := 0 |}.

(** [Math.round]: the nearest integer, a tie going up. *)
Definition Math_round (x : Q) : Z := Qfloor (x + 0.5).

(** [Math.max(min, Math.min(max, v))] *)
Definition clamp (lo hi v : Q) : Q := Qmax lo (Qmin hi v).

Definition handleMouseDown (p : Props) (clientY : Q) (s : State) : State :=
  {| isDragging := true; startY := clientY; startValue := value p |}.

Definition handleMouseUp (s : State) : State :=
  {| isDragging := false; startY := startY s; startValue := startValue s |}.

(** The value the move hands to [onChange] before it is rounded. *)
Definition dragValue (p : Props) (s : State) (clientY : Q) : Q :=
  let deltaY := startY s - clientY in
  let sensitivity := (max p - min p) / 200 in
  clamp (min p) (max p) (startValue s + deltaY * sensitivity).

(** [handleMouseMove]: [None] when the knob is not being dragged (the
    handler returns at once), otherwise the argument of [onChange]. *)
Definition handleMouseMove (p : Props) (s : State) (clientY : Q) : option Q :=
  if negb (isDragging s) then None
  else
    let newValue := dragValue p s clientY in
    Some (inject_Z (Math_round (newValue / step p)) * step p).

End Knob.

(** ** Web Audio: automation of an [AudioParam] *)

Inductive AutomationEvent :=
| SetValue (v : Q) (time : Q)
| LinearRamp (v : Q) (time : Q).

Definition eventTime (e : AutomationEvent) : Q :=
  match e with SetValue _ t | LinearRamp _ t => t end.

Definition eventValue (e : AutomationEvent) : Q :=
  match e with SetValue v _ | LinearRamp v _ => v end.

(** [param_value] is the value slot that the [value] attribute reads; the
    rendering thread refreshes it from the timeline ([renderParam]), the
    scheduling methods leave it alone. *)
Record AudioParam := {
  param_value : Q;
  param_events : list AutomationEvent
}.

Definition newParam (defaultValue : Q) : AudioParam :=
  {| param_value := defaultValue; param_events := [] |}.

(** [x > 0] and [x < 0] on numbers. *)
Definition positive_num (x : Q) : bool := negb (Qle_bool x 0).
Definition negative_num (x : Q) : bool := negb (Qle_bool 0 x).

(** An event goes after the events scheduled at or before its time. *)
Fixpoint insertEvent (e : AutomationEvent) (evs : list AutomationEvent)
  : list AutomationEvent :=
  match evs with
  | [] => [e]
  | x :: rest =>
      if Qle_bool (eventTime x) (eventTime e)
      then x :: insertEvent e rest
      else e :: x :: rest
  end.

(** The scheduling methods return [None] where the browser raises a
    [RangeError]: a negative time. *)
Definition setValueAtTime (v startTime : Q) (p : AudioParam) : option AudioParam :=
  if negative_num startTime then None
  else Some {| param_value := param_value p;
               param_events := insertEvent (SetValue v startTime) (param_events p) |}.

(** Whether an event is scheduled at or before [t]. *)
Definition precededAt (t : Q) (evs : list AutomationEvent) : bool :=
  existsb (fun e => Qle_bool (eventTime e) t) evs.

(** A ramp with no event before it starts from the value of the slot at
    the time of the call, [now], as if that value had been set then. *)
Definition linearRampToValueAtTime (v endTime now : Q) (p : AudioParam)
  : option AudioParam :=
  if negative_num endTime then None
  else
    let evs := if precededAt endTime (param_events p)
               then param_events p
               else insertEvent (SetValue (param_value p) now) (param_events p) in
    Some {| param_value := param_value p;
            param_events := insertEvent (LinearRamp v endTime) evs |}.

(** Removes the events scheduled at or after [cancelTime]. *)
Definition cancelScheduledValues (cancelTime : Q) (p : AudioParam) : option AudioParam :=
  if negative_num cancelTime then None
  else Some {| param_value := param_value p;
               param_events :=
                 List.filter (fun e => negb (Qle_bool cancelTime (eventTime e)))
                             (param_events p) |}.

(** The value of a timeline at time [t], walking the events from the
    last one passed, at time [t0] with value [v0]: a [SetValue] jumps at
    its time, a [LinearRamp] interpolates from the previous event to its
    own time, and the value of the last event holds afterwards. *)
Fixpoint timelineValue (t0 v0 : Q) (evs : list AutomationEvent) (t : Q) : Q :=
  match evs with
  | [] => v0
  | SetValue v t1 :: rest =>
      if Qle_bool t1 t then timelineValue t1 v rest t else v0
  | LinearRamp v t1 :: rest =>
      if Qle_bool t1 t then timelineValue t1 v rest t
      else v0 + (v - v0) * ((t - t0) / (t1 - t0))
  end.

Definition valueAtTime (p : AudioParam) (t : Q) : Q :=
  timelineValue 0 (param_value p) (param_events p) t.

(** Rendering up to time [t] refreshes the slot. *)
Definition renderParam (t : Q) (p : AudioParam) : AudioParam :=
  {| param_value := valueAtTime p t; param_events := param_events p |}.

(** ** Web Audio: the nodes of one voice *)

Record OscillatorNode := {
  oscillator_type : string;
  oscillator_frequency : AudioParam;
  oscillator_detune : AudioParam;
  oscillator_started : bool;
  oscillator_stopTime : option Q
}.

Record GainNode := { gain : AudioParam }.

Record BiquadFilterNode := {
  biquad_type : string;
  biquad_frequency : AudioParam;
  biquad_Q : AudioParam
}.

(** The buffer of a convolver is kept as the arguments that
    [createImpulseResponse] was called with; its samples are
    [Reverb.createImpulseResponse] below. *)
Record ImpulseArgs := { impulse_duration : nat; impulse_decay : Q }.

Record ConvolverNode := { convolver_buffer : option ImpulseArgs }.

Record DelayNode := { delayTime : AudioParam }.

Record WaveShaperNode := {
  curve : option (list Q);
  oversample : string
}.

(** The nodes that one call of [playNote] creates, and the destination
    of the context, as the ends of a connection. *)
Inductive Stage :=
| oscillator_stage | gainNode_stage | filterNode_stage | reverbNode_stage
| delayNode_stage | delayGain_stage | distortionNode_stage | masterGain_stage
| destination.

#[global] Instance Stage_eq_dec : EqDecision Stage.
Proof. solve_decision. Defined.

(** A voice: the eight nodes of one [playNote] and the connections made
    between them and to the destination, in the order of the [connect]
    calls. *)
Record Voice := {
  v_oscillator : OscillatorNode;
  v_gainNode : GainNode;
  v_filterNode : BiquadFilterNode;
  v_reverbNode : ConvolverNode;
  v_delayNode : DelayNode;
  v_delayGain : GainNode;
  v_distortionNode : WaveShaperNode;
  v_masterGain : GainNode;
  v_connections : list (Stage * Stage)
}.

(** The context: its clock, its sample rate and every voice built in it.
    Nothing in the synthesizer disconnects or deletes a node. *)
Record AudioContext := {
  currentTime : Q;
  sampleRate : positive;
  voices : list Voice
}.

Definition newAudioContext (rate : positive) : AudioContext :=
  {| currentTime := 0; sampleRate := rate; voices := [] |}.

(** ** The distortion curve *)

(** [for (let i = 0; i < n; i++) body]: the state after the loop. *)
Definition forLoop {S : Type} (n : nat) (body : nat -> S -> S) (s : S) : S :=
  fold_left (fun acc i => body i acc) (seq 0 n) s.

(** The double [Math.PI], exactly. *)
Definition Math_PI : Q := 884279719003555 # 281474976710656.

(** [Math.abs] *)
Definition Math_abs (x : Q) : Q := Qabs x.

Definition nat_num (i : nat) : Q := inject_Z (Z.of_nat i).

(** The body of [createDistortionCurve], for an array of [samples]
    entries. *)
Definition distortionCurveOf (samples : nat) (amount : Q) : list Q :=
  let curve := replicate samples 0 in
  let deg := Math_PI / 180 in
  forLoop samples
    (fun i curve =>
       let x := (nat_num i * 2) / nat_num samples - 1 in
       <[ i := ((3 + amount) * x * 20 * deg) / (Math_PI + amount * Math_abs x) ]> curve)
    curve.

Definition createDistortionCurve (amount : Q) : list Q :=
  distortionCurveOf (Z.to_nat 44100) amount.

(** ** The synthesizer component *)

(** The state of [Synthesizer]: its [useState] cells and its refs.  A node
    ref names the voice whose node it holds. *)
Record Synth := {
  params : SynthParams;
  isPlaying : bool;
  audioContextRef : option AudioContext;
  oscillatorRef : option nat;
  gainNodeRef : option nat;
  filterNodeRef : option nat
}.

(** The component after its first render, before the effect that creates
    the context has run, and after it ([rate] is the rate of the device). *)
Definition initialSynth : Synth :=
  {| params := defaultParams; isPlaying := false; audioContextRef := None;
     oscillatorRef := None; gainNodeRef := None; filterNodeRef := None |}.

Definition mount (rate : positive) (s : Synth) : Synth :=
  {| params := params s; isPlaying := isPlaying s;
     audioContextRef := Some (newAudioContext rate);
     oscillatorRef := oscillatorRef s; gainNodeRef := gainNodeRef s;
     filterNodeRef := filterNodeRef s |}.

(** An event handler runs on the state; it ends by returning ([Some]) or by
    an exception that a Web Audio call raised ([None]).  What it did before
    the exception stays done. *)
Definition Handler (A : Type) : Type := Synth -> option A * Synth.

Definition ret {A : Type} (a : A) : Handler A := fun s => (Some a, s).

Definition throw {A : Type} : Handler A := fun s => (None, s).

Definition bind {A B : Type} (m : Handler A) (k : A -> Handler B) : Handler B :=
  fun s => match m s with
           | (Some a, s') => k a s'
           | (None, s') => (None, s')
           end.

#[global] Instance Handler_ret : MRet Handler := @ret.
#[global] Instance Handler_bind : MBind Handler := fun A B k m => bind m k.

(** The state a handler leaves. *)
Definition run {A : Type} (h : Handler A) (s : Synth) : Synth := snd (h s).

Definition setContext (ctx : AudioContext) : Handler unit := fun s =>
  (Some tt,
   {| params := params s; isPlaying := isPlaying s; audioContextRef := Some ctx;
      oscillatorRef := oscillatorRef s; gainNodeRef := gainNodeRef s;
      filterNodeRef := filterNodeRef s |}).

Definition setRefs (o g f : option nat) : Handler unit := fun s =>
  (Some tt,
   {| params := params s; isPlaying := isPlaying s;
      audioContextRef := audioContextRef s;
      oscillatorRef := o; gainNodeRef := g; filterNodeRef := f |}).

Definition setIsPlaying (b : bool) : Handler unit := fun s =>
  (Some tt,
   {| params := params s; isPlaying := b; audioContextRef := audioContextRef s;
      oscillatorRef := oscillatorRef s; gainNodeRef := gainNodeRef s;
      filterNodeRef := filterNodeRef s |}).

(** [setParams(updater)] *)
Definition setParams (updater : SynthParams -> SynthParams) : Handler unit := fun s =>
  (Some tt,
   {| params := updater (params s); isPlaying := isPlaying s;
      audioContextRef := audioContextRef s;
      oscillatorRef := oscillatorRef s; gainNodeRef := gainNodeRef s;
      filterNodeRef := filterNodeRef s |}).

Definition withVoices (ctx : AudioContext) (vs : list Voice) : AudioContext :=
  {| currentTime := currentTime ctx; sampleRate := sampleRate ctx; voices := vs |}.

Definition withGain (v : Voice) (p : AudioParam) : Voice :=
  {| v_oscillator := v_oscillator v; v_gainNode := {| gain := p |};
     v_filterNode := v_filterNode v; v_reverbNode := v_reverbNode v;
     v_delayNode := v_delayNode v; v_delayGain := v_delayGain v;
     v_distortionNode := v_distortionNode v; v_masterGain := v_masterGain v;
     v_connections := v_connections v |}.

Definition withOscillator (v : Voice) (o : OscillatorNode) : Voice :=
  {| v_oscillator := o; v_gainNode := v_gainNode v;
     v_filterNode := v_filterNode v; v_reverbNode := v_reverbNode v;
     v_delayNode := v_delayNode v; v_delayGain := v_delayGain v;
     v_distortionNode := v_distortionNode v; v_masterGain := v_masterGain v;
     v_connections := v_connections v |}.

(** The voice a node ref points into.  (A ref that is set always names a
    voice of the context; a handler that met a dangling one would stop.) *)
Definition voiceAt (i : nat) : Handler Voice := fun s =>
  match audioContextRef s with
  | Some ctx => match voices ctx !! i with
                | Some v => (Some v, s)
                | None => (None, s)
                end
  | None => (None, s)
  end.

Definition setVoice (i : nat) (v : Voice) : Handler unit := fun s =>
  match audioContextRef s with
  | Some ctx => setContext (withVoices ctx (<[ i := v ]> (voices ctx))) s
  | None => (None, s)
  end.

(** [gainNodeRef.current.gain.m(...)] for a scheduling method [m]. *)
Definition onGain (g : nat) (m : AudioParam -> option AudioParam) : Handler unit :=
  (v ← voiceAt g;
   match m (gain (v_gainNode v)) with
   | Some p => setVoice g (withGain v p)
   | None => throw
   end).

(** [gainNodeRef.current.gain.value] *)
Definition gainValue (g : nat) : Handler Q :=
  (v ← voiceAt g; mret (param_value (gain (v_gainNode v)))).

Definition withStopTime (o : OscillatorNode) (when : Q) : OscillatorNode :=
  {| oscillator_type := oscillator_type o;
     oscillator_frequency := oscillator_frequency o;
     oscillator_detune := oscillator_detune o;
     oscillator_started := oscillator_started o;
     oscillator_stopTime := Some when |}.

Definition withStarted (o : OscillatorNode) : OscillatorNode :=
  {| oscillator_type := oscillator_type o;
     oscillator_frequency := oscillator_frequency o;
     oscillator_detune := oscillator_detune o;
     oscillator_started := true;
     oscillator_stopTime := oscillator_stopTime o |}.

(** [oscillator.stop(when)]: a [RangeError] when [when] is negative. *)
Definition stopOscillator (o : nat) (when : Q) : Handler unit :=
  (v ← voiceAt o;
   if negative_num when then throw
   else setVoice o (withOscillator v (withStopTime (v_oscillator v) when))).

(** [oscillator.start()] *)
Definition startOscillator (o : nat) : Handler unit :=
  (v ← voiceAt o;
   setVoice o (withOscillator v (withStarted (v_oscillator v)))).

(** [stopNote] *)
Definition stopNote : Handler unit := fun s =>
  match oscillatorRef s, gainNodeRef s, audioContextRef s with
  | Some o, Some g, Some ctx =>
      let releaseTime := release (envelope (params s)) in
      let now := currentTime ctx in
      (onGain g (cancelScheduledValues now);;
       value ← gainValue g;
       onGain g (setValueAtTime value now);;
       onGain g (linearRampToValueAtTime 0 (now + releaseTime) now);;
       stopOscillator o (now + releaseTime);;
       setRefs None None None;;
       setIsPlaying false) s
  | _, _, _ => ret tt s
  end.

(** Assigning the [type] attribute of a node: a string outside the
    enumeration is ignored, and ["custom"] on an oscillator raises an
    [InvalidStateError]. *)
Definition oscillatorTypes : list string := ["sine"; "square"; "sawtooth"; "triangle"].

Definition biquadFilterTypes : list string :=
  ["lowpass"; "highpass"; "bandpass"; "lowshelf"; "highshelf"; "peaking";
   "notch"; "allpass"].

Definition assignOscillatorType (ty current : string) : option string :=
  if String.eqb ty "custom" then None
  else if existsb (String.eqb ty) oscillatorTypes then Some ty
  else Some current.

Definition assignBiquadType (ty current : string) : string :=
  if existsb (String.eqb ty) biquadFilterTypes then ty else current.

(** The nodes and connections that [playNote] makes at time [now]: [None]
    when a Web Audio call raises, which leaves nothing connected to the
    destination. *)
Definition buildVoice (params : SynthParams) (frequency now : Q) : option Voice :=
  (* Configure oscillator *)
  oscType ← assignOscillatorType (osc_type (oscillator params)) "sine";
  oscFrequency ← setValueAtTime frequency now (newParam 440);
  oscDetune ← setValueAtTime (osc_detune (oscillator params)) now (newParam 0);
  (* Configure filter *)
  let filterType := assignBiquadType (filter_type (filter params)) "lowpass" in
  filterFrequency ← setValueAtTime (filter_frequency (filter params)) now (newParam 350);
  filterQ ← setValueAtTime (filter_Q (filter params)) now (newParam 1);
  (* Configure envelope *)
  g0 ← setValueAtTime 0 now (newParam 1);
  g1 ← linearRampToValueAtTime (volume params) (now + attack (envelope params)) now g0;
  g2 ← linearRampToValueAtTime (volume params * sustain (envelope params))
         (now + attack (envelope params) + decay (envelope params)) now g1;
  (* Configure reverb *)
  let impulse := {| impulse_duration := 2%nat;
                    impulse_decay := reverb (effects params) * 10 |} in
  (* Configure delay *)
  delayTimeParam ← setValueAtTime 0.3 now (newParam 0);
  delayGainParam ← setValueAtTime (delay (effects params)) now (newParam 1);
  (* Configure distortion *)
  let distortionNode :=
    if positive_num (distortion (effects params))
    then {| curve := Some (createDistortionCurve (distortion (effects params) * 100));
            oversample := "4x" |}
    else {| curve := None; oversample := "none" |} in
  (* Configure master volume *)
  masterParam ← setValueAtTime (volume params) now (newParam 1);
  (* Connect nodes *)
  let connections :=
    [(oscillator_stage, filterNode_stage)]
    ++ (if positive_num (distortion (effects params))
        then [(filterNode_stage, distortionNode_stage);
              (distortionNode_stage, gainNode_stage)]
        else [(filterNode_stage, gainNode_stage)])
    (* Dry signal *)
    ++ [(gainNode_stage, masterGain_stage)]
    (* Reverb send *)
    ++ (if positive_num (reverb (effects params))
        then [(gainNode_stage, reverbNode_stage);
              (reverbNode_stage, masterGain_stage)]
        else [])
    (* Delay send *)
    ++ (if positive_num (delay (effects params))
        then [(gainNode_stage, delayNode_stage);
              (delayNode_stage, delayGain_stage);
              (delayGain_stage, delayNode_stage);
              (delayGain_stage, masterGain_stage)]
        else [])
    ++ [(masterGain_stage, destination)] in
  Some {| v_oscillator :=
            {| oscillator_type := oscType;
               oscillator_frequency := oscFrequency;
               oscillator_detune := oscDetune;
               oscillator_started := false;
               oscillator_stopTime := None |};
          v_gainNode := {| gain := g2 |};
          v_filterNode :=
            {| biquad_type := filterType;
               biquad_frequency := filterFrequency;
               biquad_Q := filterQ |};
          v_reverbNode := {| convolver_buffer := Some impulse |};
          v_delayNode := {| delayTime := delayTimeParam |};
          v_delayGain := {| gain := delayGainParam |};
          v_distortionNode := distortionNode;
          v_masterGain := {| gain := masterParam |};
          v_connections := connections |}.

Definition getState : Handler Synth := fun s => (Some s, s).

(** [playNote] *)
Definition playNote (frequency : Q) : Handler unit := fun s =>
  match audioContextRef s with
  | None => ret tt s
  | Some _ =>
      ((* Stop previous note *)
       stopNote;;
       st ← getState;
       match audioContextRef st with
       | None => throw
       | Some ctx =>
           match buildVoice (params st) frequency (currentTime ctx) with
           | None => throw
           | Some v =>
               let id := length (voices ctx) in
               setContext (withVoices ctx (voices ctx ++ [v]));;
               (* Store references *)
               setRefs (Some id) (Some id) (Some id);;
               (* Start oscillator *)
               startOscillator id;;
               setIsPlaying true
           end
       end) s
  end.

(** [updateParam] and the [onChange] of the volume knob *)
Definition updateParam (category : Category) (param : string) (value : ParamValue)
  : Handler unit :=
  setParams (updateParamOf category param value).

Definition setVolume (value : Q) : Handler unit :=
  setParams (setVolumeOf value).

(** A stored preset (a document of the table [synthPresets]). *)
Record Preset := {
  preset_name : string;
  preset_userId : string;
  preset_oscillator : OscillatorParams;
  preset_filter : FilterParams;
  preset_envelope : EnvelopeParams;
  preset_effects : EffectsParams;
  preset_volume : Q
}.

(** [loadPreset] *)
Definition loadPreset (preset : Preset) : Handler unit :=
  setParams (fun _ =>
    {| oscillator := preset_oscillator preset;
       filter := preset_filter preset;
       envelope := preset_envelope preset;
       effects := preset_effects preset;
       volume := preset_volume preset |}).

(** ** Time passing *)

Definition renderVoice (t : Q) (v : Voice) : Voice :=
  let osc := v_oscillator v in
  {| v_oscillator :=
       {| oscillator_type := oscillator_type osc;
          oscillator_frequency := renderParam t (oscillator_frequency osc);
          oscillator_detune := renderParam t (oscillator_detune osc);
          oscillator_started := oscillator_started osc;
          oscillator_stopTime := oscillator_stopTime osc |};
     v_gainNode := {| gain := renderParam t (gain (v_gainNode v)) |};
     v_filterNode :=
       {| biquad_type := biquad_type (v_filterNode v);
          biquad_frequency := renderParam t (biquad_frequency (v_filterNode v));
          biquad_Q := renderParam t (biquad_Q (v_filterNode v)) |};
     v_reverbNode := v_reverbNode v;
     v_delayNode := {| delayTime := renderParam t (delayTime (v_delayNode v)) |};
     v_delayGain := {| gain := renderParam t (gain (v_delayGain v)) |};
     v_distortionNode := v_distortionNode v;
     v_masterGain := {| gain := renderParam t (gain (v_masterGain v)) |};
     v_connections := v_connections v |}.

(** The audio thread renders up to time [t]: the clock of the context
    moves there (it never goes back), and every parameter slot is
    refreshed when the clock has advanced.  A slot changes only with
    rendering that moves the clock: up to the time that the clock shows
    already there is nothing to render, and the slots stay as they are. *)
Definition renderContext (t : Q) (ctx : AudioContext) : AudioContext :=
  if Qle_bool (currentTime ctx) t
  then {| currentTime := t; sampleRate := sampleRate ctx;
          voices := if Qle_bool t (currentTime ctx) then voices ctx
                    else map (renderVoice t) (voices ctx) |}
  else ctx.

Definition render (t : Q) (s : Synth) : Synth :=
  {| params := params s; isPlaying := isPlaying s;
     audioContextRef := renderContext t <$> audioContextRef s;
     oscillatorRef := oscillatorRef s; gainNodeRef := gainNodeRef s;
     filterNodeRef := filterNodeRef s |}.

(** ** What is connected, and what sounds *)

(** Whether a sequence of connections leads from [src] to [dst], within
    [fuel] hops. *)
Fixpoint reaches (fuel : nat) (conns : list (Stage * Stage)) (src dst : Stage) : bool :=
  match fuel with
  | O => false
  | S fuel' =>
      existsb (fun e =>
                 if bool_decide (fst e = src)
                 then if bool_decide (snd e = dst) then true
                      else reaches fuel' conns (snd e) dst
                 else false)
              conns
  end.

(** A voice graph is wired to the output when its oscillator reaches the
    destination of the context. *)
Definition wired (v : Voice) : bool :=
  reaches 9 (v_connections v) oscillator_stage destination.




(** ** Vocabulary of the properties *)

(** The parameter sets with which no Web Audio call of [playNote] and
    [stopNote] raises: the oscillator type is not ["custom"] and the
    envelope times are not negative. *)
Definition playable (p : SynthParams) : Prop :=
  osc_type (oscillator p) <> "custom"
  /\ 0 <= attack (envelope p) /\ 0 <= decay (envelope p)
  /\ 0 <= release (envelope p).

(** The states that the handlers keep to: the context exists, its clock
    is not negative, and the oscillator and gain refs are both unset or
    both name one voice of the context. *)
Definition wellFormed (s : Synth) : Prop :=
  exists ctx,
    audioContextRef s = Some ctx
    /\ 0 <= currentTime ctx
    /\ oscillatorRef s = gainNodeRef s
    /\ (forall g, gainNodeRef s = Some g -> (g < length (voices ctx))%nat).

(** The envelope that a note-on at [now] schedules. *)
Definition envelopeEvents (p : SynthParams) (now : Q) : list AutomationEvent :=
  [SetValue 0 now;
   LinearRamp (volume p) (now + attack (envelope p));
   LinearRamp (volume p * sustain (envelope p))
              (now + attack (envelope p) + decay (envelope p))].

(** The gain timeline after a release at [now]: what was scheduled before
    [now], the slot value pinned at [now], and a ramp to silence. *)
Definition releaseGain (now releaseTime : Q) (p : AudioParam) : AudioParam :=
  {| param_value := param_value p;
     param_events :=
       List.filter (fun e => negb (Qle_bool now (eventTime e))) (param_events p)
       ++ [SetValue (param_value p) now; LinearRamp 0 (now + releaseTime)] |}.

(** A voice after its release at [now]: its gain ramps to silence and its
    oscillator stops at the end of the ramp. *)
Definition released (now releaseTime : Q) (v : Voice) : Voice :=
  withOscillator
    (withGain v (releaseGain now releaseTime (gain (v_gainNode v))))
    (withStopTime (v_oscillator v) (now + releaseTime)).

(** A voice whose oscillator has been started. *)
Definition started (v : Voice) : Voice :=
  withOscillator v (withStarted (v_oscillator v)).

(** The voices after the release of the voice that [ref] names, if any. *)
Definition releasedVoices (now releaseTime : Q) (ref : option nat) (vs : list Voice)
  : list Voice :=
  match ref with
  | Some g => alter (released now releaseTime) g vs
  | None => vs
  end.



(** [connected v a b]: the graph of [v] has the connection from [a] to
    [b].  [isolated v a]: it has no connection from or to [a]. *)
Definition connected (v : Voice) (a b : Stage) : Prop := (a, b) ∈ v_connections v.

Definition isolated (v : Voice) (a : Stage) : Prop :=
  forall b, ~ connected v a b /\ ~ connected v b a.

(** The voice that the gain ref of a component names. *)
Definition heldVoice (s : Synth) : option Voice :=
  ctx ← audioContextRef s; g ← gainNodeRef s; voices ctx !! g.

(** The voices of a component. *)
Definition voicesOf (s : Synth) : list Voice :=
  match audioContextRef s with
  | Some ctx => voices ctx
  | None => []
  end.

(** What happens to the component: the calls of its handlers, and the
    audio thread rendering up to a later time. *)
Inductive Event :=
| NoteOn (frequency : Q)
| NoteOff
| UpdateParam (category : Category) (param : string) (value : ParamValue)
| SetVolume (value : Q)
| LoadPreset (preset : Preset)
| Render (t : Q).

Definition step (e : Event) (s : Synth) : Synth :=
  match e with
  | NoteOn frequency => run (playNote frequency) s
  | NoteOff => run stopNote s
  | UpdateParam category param value => run (updateParam category param value) s
  | SetVolume value => run (setVolume value) s
  | LoadPreset preset => run (loadPreset preset) s
  | Render t => render t s
  end.

(** The states that the component reaches once mounted. *)
Inductive reachable : Synth -> Prop :=
| reachable_mount (rate : positive) : reachable (mount rate initialSynth)
| reachable_step (e : Event) (s : Synth) : reachable s -> reachable (step e s).

(** A handler keeps the states well formed, also when it throws. *)
Definition preserves {A : Type} (h : Handler A) : Prop :=
  forall s, wellFormed s -> wellFormed (snd (h s)).

(** ** The knobs of the synthesizer *)

(** One [<Knob ... />] of the component: its label, the parameter it
    shows, its range and its [onChange]. *)
Record KnobBinding := {
  knob_label : string;
  knob_value : SynthParams -> Q;
  knob_min : Q;
  knob_max : Q;
  knob_onChange : Q -> Handler unit
}.

Definition synthKnobs : list KnobBinding := [
  {| knob_label := "Frequency"; knob_value := fun p => osc_frequency (oscillator p);
     knob_min := 20; knob_max := 2000;
     knob_onChange := fun value => updateParam oscillator_cat "frequency" (VNum value) |};
  {| knob_label := "Detune"; knob_value := fun p => osc_detune (oscillator p);
     knob_min := -100; knob_max := 100;
     knob_onChange := fun value => updateParam oscillator_cat "detune" (VNum value) |};
  {| knob_label := "Cutoff"; knob_value := fun p => filter_frequency (filter p);
     knob_min := 20; knob_max := 20000;
     knob_onChange := fun value => updateParam filter_cat "frequency" (VNum value) |};
  {| knob_label := "Resonance"; knob_value := fun p => filter_Q (filter p);
     knob_min := 0.1; knob_max := 30;
     knob_onChange := fun value => updateParam filter_cat "Q" (VNum value) |};
  {| knob_label := "Attack"; knob_value := fun p => attack (envelope p);
     knob_min := 0.01; knob_max := 2;
     knob_onChange := fun value => updateParam envelope_cat "attack" (VNum value) |};
  {| knob_label := "Decay"; knob_value := fun p => decay (envelope p);
     knob_min := 0.01; knob_max := 2;
     knob_onChange := fun value => updateParam envelope_cat "decay" (VNum value) |};
  {| knob_label := "Sustain"; knob_value := fun p => sustain (envelope p);
     knob_min := 0; knob_max := 1;
     knob_onChange := fun value => updateParam envelope_cat "sustain" (VNum value) |};
  {| knob_label := "Release"; knob_value := fun p => release (envelope p);
     knob_min := 0.01; knob_max := 3;
     knob_onChange := fun value => updateParam envelope_cat "release" (VNum value) |};
  {| knob_label := "Reverb"; knob_value := fun p => reverb (effects p);
     knob_min := 0; knob_max := 1;
     knob_onChange := fun value => updateParam effects_cat "reverb" (VNum value) |};
  {| knob_label := "Delay"; knob_value := fun p => delay (effects p);
     knob_min := 0; knob_max := 1;
     knob_onChange := fun value => updateParam effects_cat "delay" (VNum value) |};
  {| knob_label := "Distortion"; knob_value := fun p => distortion (effects p);
     knob_min := 0; knob_max := 1;
     knob_onChange := fun value => updateParam effects_cat "distortion" (VNum value) |};
  {| knob_label := "Volume"; knob_value := volume;
     knob_min := 0; knob_max := 1;
     knob_onChange := setVolume |}
].

(** The props a knob is rendered with; no knob of the synthesizer gives a
    [step]. *)
Definition knobProps (b : KnobBinding) (p : SynthParams) : Knob.Props :=
  {| Knob.label := knob_label b; Knob.value := knob_value b p;
     Knob.min := knob_min b; Knob.max := knob_max b;
     Knob.step := Knob.defaultStep |}.

(** A mouse move over the document while the knob [b] is in state [ks]. *)
Definition dragKnob (b : KnobBinding) (ks : Knob.State) (clientY : Q) : Handler unit :=
  fun s =>
    match Knob.handleMouseMove (knobProps b (params s)) ks clientY with
    | Some value => knob_onChange b value s
    | None => ret tt s
    end.

(** ** The preset mutations of the backend *)

Module Convex.

(** How a mutation ends. *)
Inductive Outcome :=
| Returned
| Threw (message : string).

(** [!userId], for the result of [getAuthUserId]: no identity ([null]). *)
Definition noUser (userId : option string) : bool :=
  match userId with
  | None => true
  | Some id => String.eqb id EmptyString
  end.

(** [deletePreset]: the table [synthPresets] is a map from document ids,
    and [presetId] has passed the validator of the mutation (it is an id of
    that table).  A mutation that throws writes nothing. *)
Definition deletePreset (userId : option string) (presetId : string)
    (db : gmap string Preset) : Outcome * gmap string Preset :=
  if noUser userId then (Threw "Must be logged in", db)
  else
    match db !! presetId with
    | None => (Threw "Preset not found or unauthorized", db)
    | Some preset =>
        if negb (bool_decide (Some (preset_userId preset) = userId))
        then (Threw "Preset not found or unauthorized", db)
        else (Returned, delete presetId db)
    end.

End Convex.

(** ** The reverb impulse response *)

Module Reverb.

Local Open Scope R_scope.

Record AudioBuffer := {
  numberOfChannels : nat;
  buffer_length : nat;
  buffer_sampleRate : positive;
  channels : list (list R)
}.

(** How a call that may raise ends. *)
Inductive Outcome (A : Type) :=
  | Returned (value : A)
  | Raised (error : string).

Arguments Returned {A} value.
Arguments Raised {A} error.

(** [ctx.createBuffer]: silent channels; a [NotSupportedError] when
    there is no channel or no sample frame.  (The rate is always that
    of the context here, which its buffers support.) *)
Definition createBuffer (numberOfChannels length : nat) (rate : positive)
  : Outcome AudioBuffer :=
  if (numberOfChannels =? 0)%nat then Raised "NotSupportedError"
  else if (length =? 0)%nat then Raised "NotSupportedError"
  else Returned
         {| numberOfChannels := numberOfChannels; buffer_length := length;
            buffer_sampleRate := rate;
            channels := replicate numberOfChannels (replicate length 0) |}.

(** [Math.pow], on the positive bases that the envelope has. *)
Definition Math_pow (x y : R) : R := Rpower x y.

(** The envelope of the noise burst at sample [i]. *)
Definition envelopeAt (length : nat) (decay : R) (i : nat) : R :=
  Math_pow (1 - INR i / INR length) decay.

Section Random.

(** [random k] is what the [k]-th call of [Math.random] returns. *)
Variable random : nat -> R.

(** The inner loop, on the data of a channel and the number of calls
    of [Math.random] made so far. *)
Definition fillChannel (length : nat) (decay : R) (st : list R * nat)
  : list R * nat :=
  forLoop length
    (fun i st =>
       let '(channelData, calls) := st in
       (<[ i := (random calls * 2 - 1)
                * Math_pow (1 - INR i / INR length) decay ]> channelData,
        S calls))
    st.

(** [createImpulseResponse], for a whole number of seconds: it returns
    [null] ([None]) or the buffer, or raises what [createBuffer]
    raises; the second component counts the calls of [Math.random]. *)
Definition createImpulseResponse (ctx : option AudioContext) (duration : nat)
    (decay : R) (calls : nat) : Outcome (option AudioBuffer) * nat :=
  match ctx with
  | None => (Returned None, calls)
  | Some c =>
      let rate := sampleRate c in
      let length := (Pos.to_nat rate * duration)%nat in
      match createBuffer 2 length rate with
      | Raised error => (Raised error, calls)
      | Returned impulse =>
          let '(chs, calls') :=
            forLoop 2
              (fun channel st =>
                 let '(chs, calls) := st in
                 let channelData := default [] (chs !! channel) in
                 let '(channelData', calls') :=
                   fillChannel length decay (channelData, calls) in
                 (<[ channel := channelData' ]> chs, calls'))
              (channels impulse, calls) in
          (Returned (Some {| numberOfChannels := numberOfChannels impulse;
                             buffer_length := buffer_length impulse;
                             buffer_sampleRate := buffer_sampleRate impulse;
                             channels := chs |}),
           calls')
      end
  end.

(** The buffer that [playNote] gives the convolver of a voice. *)
Definition impulseOf (ctx : AudioContext) (args : ImpulseArgs) (calls : nat)
  : Outcome (option AudioBuffer) * nat :=
  createImpulseResponse (Some ctx) (impulse_duration args)
                        (Q2R (impulse_decay args)) calls.

(** The sample that the loops write at index [i] of a channel whose
    filling starts after [calls] calls of [Math.random]. *)
Definition sampleAt (length : nat) (decay : R) (calls i : nat) : R :=
  (random (calls + i) * 2 - 1) * envelopeAt length decay i.

End Random.

End Reverb.

(** ** The face of the knob ([Knob.tsx]) *)

Module KnobView.

(** [normalizedValue] and [rotation], in degrees: from -135 to +135. *)
Definition normalizedValue (p : Knob.Props) : Q :=
  (Knob.value p - Knob.min p) / (Knob.max p - Knob.min p).

Definition rotation (p : Knob.Props) : Q := normalizedValue p * 270 - 135.

End KnobView.

(** ** The preset query and the mutation that saves ([convex/synth.ts]) *)

Module Presets.

Import Convex.

(** The arguments of [savePreset], as its validator accepts them. *)
Record SaveArgs := {
  args_name : string;
  args_oscillator : OscillatorParams;
  args_filter : FilterParams;
  args_envelope : EnvelopeParams;
  args_effects : EffectsParams;
  args_volume : Q
}.

(** How a mutation that returns a value ends. *)
Inductive Result (A : Type) :=
| Value (a : A)
| Error (message : string).

Arguments Value {A} a.
Arguments Error {A} message.

(** [getPresets]: the documents of the index [by_user] at [userId], each
    under its [_id]; nothing without an identity.  The order of the array
    that [collect] returns is not modelled. *)
Definition getPresets (userId : option string) (db : gmap string Preset)
  : gmap string Preset :=
  if noUser userId then ∅
  else base.filter (fun doc => Some (preset_userId doc.2) = userId) db.

(** The document that [savePreset] stores: [{ ...args, userId }]. *)
Definition document (args : SaveArgs) (userId : string) : Preset :=
  {| preset_name := args_name args;
     preset_userId := userId;
     preset_oscillator := args_oscillator args;
     preset_filter := args_filter args;
     preset_envelope := args_envelope args;
     preset_effects := args_effects args;
     preset_volume := args_volume args |}.

Section Insert.

(** [ctx.db.insert] makes the [_id] of the new document; [newId db] is the
    id it makes for the table [db]. *)
Variable newId : gmap string Preset -> string.

(** [savePreset]: the id of the new document, or the error thrown.  A
    mutation that throws writes nothing. *)
Definition savePreset (userId : option string) (args : SaveArgs)
    (db : gmap string Preset) : Result string * gmap string Preset :=
  match userId with
  | Some uid =>
      if noUser userId then (Error "Must be logged in to save presets", db)
      else (Value (newId db), <[ newId db := document args uid ]> db)
  | None => (Error "Must be logged in to save presets", db)
  end.

(** *** The preset row of the page ([Synthesizer.tsx]) *)

(** The page: the text of the name field beside the synthesizer. *)
Record Page := {
  presetName : string;
  synth : Synth
}.

(** [String.prototype.trim] *)
Variable trim : string -> string.

(** [handleSavePreset], run against the table of the backend as the user
    [userId]: the call of the mutation is awaited, and an error it throws is
    caught and logged. *)
Definition handleSavePreset (userId : option string) (pg : Page)
    (db : gmap string Preset) : Page * gmap string Preset :=
  if String.eqb (trim (presetName pg)) EmptyString then (pg, db)
  else
    let args := {| args_name := presetName pg;
                   args_oscillator := oscillator (params (synth pg));
                   args_filter := filter (params (synth pg));
                   args_envelope := envelope (params (synth pg));
                   args_effects := effects (params (synth pg));
                   args_volume := volume (params (synth pg)) |} in
    match savePreset userId args db with
    | (Value _, db') => ({| presetName := EmptyString; synth := synth pg |}, db')
    | (Error _, db') => (pg, db')
    end.

End Insert.

(** What a signed-in user does to the table. *)
Inductive Mutation :=
| Save (args : SaveArgs)
| Delete (presetId : string).

Definition mutate (newId : gmap string Preset -> string) (userId : option string)
    (m : Mutation) (db : gmap string Preset) : gmap string Preset :=
  match m with
  | Save args => snd (savePreset newId userId args db)
  | Delete presetId => snd (deletePreset userId presetId db)
  end.

End Presets.

(** ** The keyboard ([Keyboard.tsx]) *)

Module Keyboard.

(** The callbacks the keyboard is given. *)
Record Props := {
  onNoteOn : Q -> Handler unit;
  onNoteOff : Handler unit
}.

Record Note := {
  note : string;
  frequency : Q;
  isBlack : bool;
  key : string
}.

Definition notes : list Note := [
  {| note := "C"; frequency := 261.63; isBlack := false; key := "a" |};
  {| note := "C#"; frequency := 277.18; isBlack := true; key := "w" |};
  {| note := "D"; frequency := 293.66; isBlack := false; key := "s" |};
  {| note := "D#"; frequency := 311.13; isBlack := true; key := "e" |};
  {| note := "E"; frequency := 329.63; isBlack := false; key := "d" |};
  {| note := "F"; frequency := 349.23; isBlack := false; key := "f" |};
  {| note := "F#"; frequency := 369.99; isBlack := true; key := "t" |};
  {| note := "G"; frequency := 392.00; isBlack := false; key := "g" |};
  {| note := "G#"; frequency := 415.30; isBlack := true; key := "y" |};
  {| note := "A"; frequency := 440.00; isBlack := false; key := "h" |};
  {| note := "A#"; frequency := 466.16; isBlack := true; key := "u" |};
  {| note := "B"; frequency := 493.88; isBlack := false; key := "j" |};
  {| note := "C5"; frequency := 523.25; isBlack := false; key := "k" |}
].

(** The [useState] cells of the component. *)
Record State := {
  pressedKeys : gset string;
  activeNote : option string
}.

Definition initialState : State := {| pressedKeys := ∅; activeNote := None |}.

Definition setPressedKeys (updater : gset string -> gset string) (k : State) : State :=
  {| pressedKeys := updater (pressedKeys k); activeNote := activeNote k |}.

Definition setActiveNote (a : option string) (k : State) : State :=
  {| pressedKeys := pressedKeys k; activeNote := a |}.

(** A handler of the keyboard runs on the state of the keyboard and,
    through the callbacks, on that of the synthesizer; an exception of a
    callback ends it, and what it did before stays done. *)
Definition Handler : Type := State -> Synth -> option unit * (State * Synth).

Section Component.

Variable props : Props.

(** [String.prototype.toLowerCase] *)
Variable toLowerCase : string -> string.

(** [playNote] *)
Definition playNote (n : Note) : Handler := fun k s =>
  if bool_decide (activeNote k = Some (note n)) then (Some tt, (k, s))
  else
    match onNoteOff props s with (* Stop current note *)
    | (None, s1) => (None, (k, s1))
    | (Some _, s1) =>
        match onNoteOn props (frequency n) s1 with
        | (None, s2) => (None, (k, s2))
        | (Some _, s2) => (Some tt, (setActiveNote (Some (note n)) k, s2))
        end
    end.

(** [stopNote] *)
Definition stopNote : Handler := fun k s =>
  match onNoteOff props s with
  | (None, s1) => (None, (k, s1))
  | (Some _, s1) => (Some tt, (setActiveNote None k, s1))
  end.

(** [notes.find(n => n.key === e.key.toLowerCase())] *)
Definition noteOfKey (e_key : string) : option Note :=
  List.find (fun n => String.eqb (key n) (toLowerCase e_key)) notes.

(** [handleKeyDown], on the [key] of the event *)
Definition handleKeyDown (e_key : string) : Handler := fun k s =>
  if bool_decide (e_key ∈ pressedKeys k) then (Some tt, (k, s))
  else
    match noteOfKey e_key with
    | Some n => playNote n (setPressedKeys (fun prev => prev ∪ {[ e_key ]}) k) s
    | None => (Some tt, (k, s))
    end.

(** [handleKeyUp] *)
Definition handleKeyUp (e_key : string) : Handler := fun k s =>
  match noteOfKey e_key with
  | Some n => stopNote (setPressedKeys (fun prev => prev ∖ {[ e_key ]}) k) s
  | None => (Some tt, (k, s))
  end.

(** What the user does on the keyboard: the keys of the computer, and the
    mouse on the button of a note ([onMouseUp] and [onMouseLeave] are the
    same handler). *)
Inductive Event :=
| KeyDown (e_key : string)
| KeyUp (e_key : string)
| MouseDown (n : Note)
| MouseUp
| MouseLeave.

Definition handle (e : Event) : Handler :=
  match e with
  | KeyDown e_key => handleKeyDown e_key
  | KeyUp e_key => handleKeyUp e_key
  | MouseDown n => playNote n
  | MouseUp | MouseLeave => stopNote
  end.

End Component.

End Keyboard.

(** ** The page: the keyboard and the controls of the synthesizer *)

(** [<Keyboard onNoteOn={playNote} onNoteOff={stopNote} />] *)
Definition synthKeyboard : Keyboard.Props :=
  {| Keyboard.onNoteOn := playNote; Keyboard.onNoteOff := stopNote |}.

(** What happens on the page: an event of the keyboard (a mouse button is
    that of a note of the table), a control of the synthesizer that changes
    the parameters, or the audio thread rendering up to a later time.
    Notes start and stop through the keyboard only. *)
Inductive PageEvent :=
| OnKeyboard (e : Keyboard.Event)
| OnKnob (category : Category) (param : string) (value : ParamValue)
| OnVolume (value : Q)
| OnPreset (preset : Preset)
| Tick (t : Q).

Definition pageStep (toLowerCase : string -> string) (e : PageEvent)
    (st : Keyboard.State * Synth) : Keyboard.State * Synth :=
  match e with
  | OnKeyboard e => snd (Keyboard.handle synthKeyboard toLowerCase e (fst st) (snd st))
  | OnKnob category param value => (fst st, run (updateParam category param value) (snd st))
  | OnVolume value => (fst st, run (setVolume value) (snd st))
  | OnPreset preset => (fst st, run (loadPreset preset) (snd st))
  | Tick t => (fst st, render t (snd st))
  end.

(** The mouse is on a button that the keyboard draws. *)
Definition onTheKeyboard (e : PageEvent) : Prop :=
  match e with
  | OnKeyboard (Keyboard.MouseDown n) => n ∈ Keyboard.notes
  | _ => True
  end.

(** The states of the page once the synthesizer is mounted. *)
Inductive pageReachable (toLowerCase : string -> string)
  : Keyboard.State * Synth -> Prop :=
| page_mount (rate : positive) :
    pageReachable toLowerCase (Keyboard.initialState, mount rate initialSynth)
| page_step (e : PageEvent) (st : Keyboard.State * Synth) :
    onTheKeyboard e -> pageReachable toLowerCase st ->
    pageReachable toLowerCase (pageStep toLowerCase e st).

(** ** More vocabulary *)

(** A run of events. *)
Definition steps (es : list Event) (s : Synth) : Synth :=
  foldl (fun s e => step e s) s es.

(** An event that starts no note. *)
Definition startsNoNote (e : Event) : Prop :=
  match e with
  | NoteOn _ => False
  | _ => True
  end.

(** A run of events of the page. *)
Definition pageSteps (toLowerCase : string -> string) (es : list PageEvent)
    (st : Keyboard.State * Synth) : Keyboard.State * Synth :=
  foldl (fun st e => pageStep toLowerCase e st) st es.

(** An event of the page that is not one of the keyboard. *)
Definition awayFromKeyboard (e : PageEvent) : Prop :=
  match e with
  | OnKeyboard _ => False
  | _ => True
  end.

(** A handler does the same whether a change of the parameters comes
    before it or after it. *)
Definition commutes {A : Type} (updater : SynthParams -> SynthParams) (h : Handler A)
  : Prop :=
  forall s, h (run (setParams updater) s)
            = (fst (h s), run (setParams updater) (snd (h s))).

(** The frequency that the oscillator of a voice was given. *)
Definition pitchOf (v : Voice) : list AutomationEvent :=
  param_events (oscillator_frequency (v_oscillator v)).

(** The refs and the flag agree with the voices: [filterNodeRef] goes
    with [gainNodeRef], [isPlaying] tells whether a voice is held, every
    voice is wired and started, and the held voice is the one whose
    oscillator has no stop time. *)
Definition tidy (s : Synth) : Prop :=
  filterNodeRef s = gainNodeRef s
  /\ (isPlaying s = true <-> is_Some (gainNodeRef s))
  /\ forall i v, voicesOf s !! i = Some v ->
       wired v = true
       /\ oscillator_started (v_oscillator v) = true
       /\ (oscillator_stopTime (v_oscillator v) = None <-> gainNodeRef s = Some i).

(** The clock of the context of a component. *)
Definition clockOf (s : Synth) : Q :=
  match audioContextRef s with
  | Some ctx => currentTime ctx
  | None => 0
  end.

(** The held voice, if any, has the pitch of the active note of the
    keyboard, set at a time that has come. *)
Definition inTune (st : Keyboard.State * Synth) : Prop :=
  forall v, heldVoice (snd st) = Some v ->
    exists n t,
      n ∈ Keyboard.notes
      /\ Keyboard.activeNote (fst st) = Some (Keyboard.note n)
      /\ pitchOf v = [SetValue (Keyboard.frequency n) t]
      /\ t <= clockOf (snd st).

(** The gain timeline that a note-off leaves when its ramp is refused:
    what was scheduled before [now], and the slot value pinned at [now]. *)
Definition pinnedGain (now : Q) (p : AudioParam) : AudioParam :=
  {| param_value := param_value p;
     param_events :=
       insertEvent (SetValue (param_value p) now)
         (List.filter (fun e => negb (Qle_bool now (eventTime e))) (param_events p)) |}.

(** [v'] is the voice [v] later on: it has the connections and the pitch
    of [v]. *)
Definition sameGraph (v v' : Voice) : Prop :=
  v_connections v' = v_connections v /\ pitchOf v' = pitchOf v.

(** * Properties *)

(** ** The knob *)

Section KnobRounding.

Import Knob.

Lemma Math_round_lower (a : Z) (x : Q) : inject_Z a <= x -> (a <= Math_round x)%Z.
Proof.
  intros H. unfold Math_round.
  rewrite <- (Qfloor_Z a). apply Qfloor_resp_le. lra.
Qed.

Lemma Math_round_upper (b : Z) (x : Q) : x <= inject_Z b -> (Math_round x <= b)%Z.
Proof.
  intros H. unfold Math_round.
  assert (Hlt : inject_Z (Qfloor (x + 0.5)) < inject_Z (b + 1)).
  { rewrite inject_Z_plus. pose proof (Qfloor_le (x + 0.5)).
    change (inject_Z 1) with 1. lra. }
  rewrite <- Zlt_Qlt in Hlt. lia.
Qed.





End KnobRounding.

Section KnobDrag.

Import Knob.

Lemma Math_round_of_integer (x : Q) (b : Z) : x == inject_Z b -> Math_round x = b.
Proof.
  intros H.
  assert (H1 : (b <= Math_round x)%Z) by (apply Math_round_lower; lra).
  assert (H2 : (Math_round x <= b)%Z) by (apply Math_round_upper; lra).
  lia.
Qed.

Lemma Math_round_monotone (x y : Q) : x <= y -> (Math_round x <= Math_round y)%Z.
Proof. intros H. unfold Math_round. apply Qfloor_resp_le. lra. Qed.

Lemma clamp_monotone (lo hi x y : Q) : x <= y -> clamp lo hi x <= clamp lo hi y.
Proof.
  intros H. unfold clamp.
  apply Q.max_le_compat_l, Q.min_le_compat_l, H.
Qed.

Lemma clamp_above (lo hi x : Q) : lo <= hi -> hi <= x -> clamp lo hi x == hi.
Proof.
  intros Hle Hx. unfold clamp.
  rewrite (Q.min_l hi x Hx). apply Q.max_r, Hle.
Qed.

Lemma clamp_below (lo hi x : Q) : lo <= hi -> x <= lo -> clamp lo hi x == lo.
Proof.
  intros Hle Hx. unfold clamp.
  apply Q.max_l. rewrite Q.min_r by lra. exact Hx.
Qed.

Lemma clamp_inside (lo hi x : Q) : lo <= x <= hi -> clamp lo hi x == x.
Proof.
  intros [H1 H2]. unfold clamp.
  rewrite (Q.min_r hi x H2). apply Q.max_r, H1.
Qed.

(** A value on the grid of [step] is what rounding it gives. *)
Lemma rounded_on_grid (stp x : Q) (k : Z) :
  ~ stp == 0 -> x == inject_Z k * stp ->
  inject_Z (Math_round (x / stp)) * stp == x.
Proof.
  intros Hstep Hx.
  rewrite (Math_round_of_integer (x / stp) k).
  - symmetry. exact Hx.
  - rewrite Hx. field. exact Hstep.
Qed.

End KnobDrag.

(** Every knob of the synthesizer has a range whose ends are multiples of
    the default step. *)
Lemma synthKnobs_on_grid (kb : KnobBinding) :
  In kb synthKnobs ->
  knob_min kb == inject_Z (Qfloor (knob_min kb / Knob.defaultStep)) * Knob.defaultStep
  /\ knob_max kb == inject_Z (Qfloor (knob_max kb / Knob.defaultStep)) * Knob.defaultStep
  /\ knob_min kb <= knob_max kb.
Proof.
  intros H. simpl in H.
  repeat (destruct H as [<- | H]; [vm_compute; intuition discriminate|]).
  destruct H.
Qed.

(** The [onChange] of a knob returns, and stores its argument in the
    parameter the knob shows. *)
Lemma synthKnobs_store (kb : KnobBinding) (v : Q) (s : Synth) :
  In kb synthKnobs ->
  fst (knob_onChange kb v s) = Some tt
  /\ knob_value kb (params (run (knob_onChange kb v) s)) = v.
Proof.
  intros H. simpl in H.
  repeat (destruct H as [<- | H]; [split; reflexivity|]).
  destruct H.
Qed.



(** ** Scheduling on an [AudioParam] *)

Lemma negative_num_false (t : Q) : 0 <= t -> negative_num t = false.
Proof.
  intros H. unfold negative_num. apply Qle_bool_iff in H. rewrite H. reflexivity.
Qed.

Lemma negative_num_true (t : Q) : t < 0 -> negative_num t = true.
Proof.
  intros H. unfold negative_num.
  destruct (Qle_bool 0 t) eqn:E; [|reflexivity].
  apply Qle_bool_iff in E. lra.
Qed.

Lemma positive_num_true (x : Q) : positive_num x = true <-> 0 < x.
Proof.
  unfold positive_num. destruct (Qle_bool x 0) eqn:E; simpl.
  - apply Qle_bool_iff in E. split; [discriminate | lra].
  - split; [|reflexivity]. intros _.
    destruct (Qlt_le_dec 0 x) as [|H]; [assumption|].
    apply Qle_bool_iff in H. congruence.
Qed.

Lemma positive_num_false (x : Q) : positive_num x = false <-> x <= 0.
Proof.
  unfold positive_num. destruct (Qle_bool x 0) eqn:E; simpl.
  - apply Qle_bool_iff in E. tauto.
  - split; [discriminate|]. intros H. apply Qle_bool_iff in H. congruence.
Qed.

Lemma Qle_bool_true (x y : Q) : x <= y -> Qle_bool x y = true.
Proof. apply Qle_bool_iff. Qed.

Lemma Qle_bool_false (x y : Q) : y < x -> Qle_bool x y = false.
Proof.
  intros H. destruct (Qle_bool x y) eqn:E; [|reflexivity].
  apply Qle_bool_iff in E. lra.
Qed.

(** An event later than all the scheduled ones goes last. *)
Lemma insertEvent_last (e : AutomationEvent) (evs : list AutomationEvent) :
  Forall (fun x => eventTime x <= eventTime e) evs ->
  insertEvent e evs = evs ++ [e].
Proof.
  induction 1 as [|x rest Hx _ IH]; simpl; [reflexivity|].
  rewrite (Qle_bool_true _ _ Hx), IH. reflexivity.
Qed.

Arguments createDistortionCurve : simpl never.


Lemma buildVoice_playable (p : SynthParams) (frequency now : Q) :
  0 <= now -> playable p ->
  exists v, buildVoice p frequency now = Some v
    /\ gain (v_gainNode v) = {| param_value := 1; param_events := envelopeEvents p now |}
    /\ oscillator_started (v_oscillator v) = false
    /\ oscillator_stopTime (v_oscillator v) = None.
Proof.
  intros Hnow (Hty & Ha & Hd & Hr).
  unfold buildVoice.
  unfold assignOscillatorType.
  apply String.eqb_neq in Hty. rewrite Hty.
  unfold setValueAtTime, linearRampToValueAtTime.
  rewrite (negative_num_false now Hnow).
  rewrite (negative_num_false (now + attack (envelope p))) by lra.
  rewrite (negative_num_false (now + attack (envelope p) + decay (envelope p))) by lra.
  destruct (existsb _ oscillatorTypes); simpl.
  all: repeat (rewrite Qle_bool_true by lra; simpl).
  all: eexists; split; [reflexivity|]; simpl; auto.
Qed.


Lemma filter_before (now : Q) (evs : list AutomationEvent) :
  Forall (fun x => eventTime x <= now)
         (List.filter (fun e => negb (Qle_bool now (eventTime e))) evs).
Proof.
  apply List.Forall_forall. intros x Hx. apply List.filter_In in Hx as [_ Hx].
  destruct (Qle_bool now (eventTime x)) eqn:E; [discriminate|].
  destruct (Qlt_le_dec (eventTime x) now) as [|H]; [lra|].
  apply Qle_bool_iff in H. congruence.
Qed.


Lemma release_schedule (now releaseTime : Q) (p : AudioParam) :
  0 <= now -> 0 <= releaseTime ->
  exists p1 p2,
    cancelScheduledValues now p = Some p1
    /\ param_value p1 = param_value p
    /\ setValueAtTime (param_value p1) now p1 = Some p2
    /\ linearRampToValueAtTime 0 (now + releaseTime) now p2
       = Some (releaseGain now releaseTime p).
Proof.
  intros Hnow Hrel.
  unfold cancelScheduledValues, setValueAtTime, linearRampToValueAtTime.
  rewrite (negative_num_false now Hnow).
  rewrite (negative_num_false (now + releaseTime)) by lra.
  eexists _, _. split; [reflexivity|]. split; [reflexivity|].
  split; [reflexivity|]. simpl.
  pose proof (filter_before now (param_events p)) as Hbefore.
  set (kept := List.filter _ (param_events p)) in *.
  rewrite (insertEvent_last (SetValue (param_value p) now) kept Hbefore).
  unfold releaseGain. fold kept. f_equal. f_equal.
  assert (Hpre : precededAt (now + releaseTime)
                   (kept ++ [SetValue (param_value p) now]) = true).
  { unfold precededAt. rewrite existsb_app. cbn [existsb eventTime].
    rewrite (Qle_bool_true now (now + releaseTime)) by lra.
    destruct (existsb _ kept); reflexivity. }
  rewrite Hpre.
  rewrite (insertEvent_last (LinearRamp 0 (now + releaseTime))).
  - rewrite <- app_assoc. reflexivity.
  - apply Forall_app. split.
    + eapply Forall_impl; [exact Hbefore|]. simpl. intros x Hx. lra.
    + constructor; [simpl; lra | constructor].
Qed.

Lemma onGain_run (g : nat) (m : AudioParam -> option AudioParam) (s : Synth)
    (ctx : AudioContext) (v : Voice) (p : AudioParam) :
  audioContextRef s = Some ctx -> voices ctx !! g = Some v ->
  m (gain (v_gainNode v)) = Some p ->
  onGain g m s =
  (Some tt,
   {| params := params s; isPlaying := isPlaying s;
      audioContextRef := Some (withVoices ctx (<[ g := withGain v p ]> (voices ctx)));
      oscillatorRef := oscillatorRef s; gainNodeRef := gainNodeRef s;
      filterNodeRef := filterNodeRef s |}).
Proof.
  intros Hctx Hv Hm.
  unfold onGain, mbind, Handler_bind, bind, voiceAt.
  rewrite Hctx, Hv, Hm. unfold setVoice. rewrite Hctx. reflexivity.
Qed.

Lemma stopNote_held (s : Synth) (ctx : AudioContext) (g : nat) (vg : Voice) :
  audioContextRef s = Some ctx ->
  oscillatorRef s = Some g -> gainNodeRef s = Some g ->
  voices ctx !! g = Some vg ->
  0 <= currentTime ctx -> 0 <= release (envelope (params s)) ->
  stopNote s =
  (Some tt,
   {| params := params s; isPlaying := false;
      audioContextRef :=
        Some (withVoices ctx
                (<[ g := released (currentTime ctx) (release (envelope (params s))) vg ]>
                   (voices ctx)));
      oscillatorRef := None; gainNodeRef := None; filterNodeRef := None |}).
Proof.
  intros Hctx Ho Hg Hvg Hnow Hrel.
  pose proof (lookup_lt_Some _ _ _ Hvg) as Hlt.
  destruct (release_schedule (currentTime ctx) (release (envelope (params s)))
              (gain (v_gainNode vg)) Hnow Hrel)
    as (p1 & p2 & Hcancel & Hval & Hset & Hramp).
  unfold stopNote. rewrite Ho, Hg, Hctx.
  unfold mbind at 1, Handler_bind at 1, bind at 1.
  rewrite (onGain_run g _ s ctx vg p1 Hctx Hvg Hcancel).
  unfold mbind at 1, Handler_bind at 1, bind at 1.
  unfold gainValue, mbind at 1, Handler_bind at 1, bind at 1, voiceAt at 1.
  cbn [audioContextRef withVoices voices].
  rewrite list_lookup_insert_eq by exact Hlt.
  cbn [mret Handler_ret ret withGain v_gainNode gain].
  unfold mbind at 1, Handler_bind at 1, bind at 1.
  erewrite onGain_run; [| reflexivity | cbn [withVoices voices]; apply list_lookup_insert_eq; exact Hlt | cbn [withGain v_gainNode gain]; exact Hset ].
  unfold mbind at 1, Handler_bind at 1, bind at 1.
  erewrite onGain_run; [| reflexivity | cbn [withVoices voices]; apply list_lookup_insert_eq; rewrite length_insert; exact Hlt | cbn [withGain v_gainNode gain]; exact Hramp ].
  unfold mbind at 1, Handler_bind at 1, bind at 1.
  unfold stopOscillator, mbind at 1, Handler_bind at 1, bind at 1, voiceAt.
  cbn [audioContextRef withVoices voices].
  rewrite list_lookup_insert_eq by (rewrite !length_insert; exact Hlt).
  rewrite (negative_num_false (currentTime ctx + release (envelope (params s)))) by lra.
  unfold setVoice. cbn [audioContextRef]. unfold setContext, setRefs, setIsPlaying.
  cbn. rewrite !list_insert_insert_eq. reflexivity.
Qed.

Lemma stopNote_idle (s : Synth) :
  oscillatorRef s = None -> stopNote s = (Some tt, s).
Proof. intros H. unfold stopNote. rewrite H. reflexivity. Qed.

Lemma lookup_snoc_last {A : Type} (l : list A) (x : A) : (l ++ [x]) !! length l = Some x.
Proof. rewrite lookup_app_r by lia. rewrite Nat.sub_diag. reflexivity. Qed.

Lemma insert_snoc_last {A : Type} (l : list A) (x y : A) :
  <[ length l := y ]> (l ++ [x]) = l ++ [y].
Proof.
  replace (length l) with (length l + 0)%nat at 1 by lia.
  rewrite insert_app_r. reflexivity.
Qed.

Lemma playNote_after_stop (frequency : Q) (s s1 : Synth) (c ctx1 : AudioContext) (v : Voice) :
  audioContextRef s = Some c ->
  stopNote s = (Some tt, s1) ->
  audioContextRef s1 = Some ctx1 ->
  buildVoice (params s1) frequency (currentTime ctx1) = Some v ->
  playNote frequency s =
  (Some tt,
   {| params := params s1; isPlaying := true;
      audioContextRef := Some (withVoices ctx1 (voices ctx1 ++ [started v]));
      oscillatorRef := Some (length (voices ctx1));
      gainNodeRef := Some (length (voices ctx1));
      filterNodeRef := Some (length (voices ctx1)) |}).
Proof.
  intros Hc Hstop Hctx1 Hbuild.
  unfold playNote. rewrite Hc.
  unfold mbind at 1, Handler_bind at 1, bind at 1. rewrite Hstop.
  unfold mbind at 1, Handler_bind at 1, bind at 1, getState.
  rewrite Hctx1, Hbuild.
  unfold setContext, setRefs, startOscillator, voiceAt, setVoice, setIsPlaying.
  repeat (unfold mbind, Handler_bind, bind;
          cbn [audioContextRef withVoices voices params isPlaying]).
  rewrite lookup_snoc_last.
  cbn [audioContextRef withVoices voices params isPlaying].
  rewrite insert_snoc_last.
  reflexivity.
Qed.

Lemma Qle_bool_false_lt (x y : Q) : Qle_bool x y = false -> y < x.
Proof.
  intros E. destruct (Qlt_le_dec y x) as [|H]; [assumption|].
  apply Qle_bool_iff in H. congruence.
Qed.

Ltac qle_cases :=
  repeat match goal with
         | |- context [Qle_bool ?x ?y] =>
             let E := fresh "E" in
             destruct (Qle_bool x y) eqn:E;
             [apply Qle_bool_iff in E | apply Qle_bool_false_lt in E]
         end.

(** The envelope of a note-on, phase by phase. *)
Lemma envelope_attacking (p : SynthParams) (v0 t0 t : Q) :
  0 < attack (envelope p) -> 0 < decay (envelope p) ->
  t0 <= t <= t0 + attack (envelope p) ->
  valueAtTime {| param_value := v0; param_events := envelopeEvents p t0 |} t
  == volume p * ((t - t0) / attack (envelope p)).
Proof.
  intros Ha Hd [H1 H2]. unfold valueAtTime, envelopeEvents. simpl.
  qle_cases; try lra.
  - assert (Et : t == t0 + attack (envelope p)) by lra. rewrite Et. field. lra.
  - field. lra.
Qed.

Lemma envelope_decaying (p : SynthParams) (v0 t0 t : Q) :
  0 < attack (envelope p) -> 0 < decay (envelope p) ->
  t0 + attack (envelope p) <= t <= t0 + attack (envelope p) + decay (envelope p) ->
  valueAtTime {| param_value := v0; param_events := envelopeEvents p t0 |} t
  == volume p
     + (volume p * sustain (envelope p) - volume p)
       * ((t - (t0 + attack (envelope p))) / decay (envelope p)).
Proof.
  intros Ha Hd [H1 H2]. unfold valueAtTime, envelopeEvents. simpl.
  qle_cases; try lra.
  - assert (Et : t == t0 + attack (envelope p) + decay (envelope p)) by lra.
    rewrite Et. field. lra.
  - field. lra.
Qed.

Lemma envelope_sustaining (p : SynthParams) (v0 t0 t : Q) :
  0 < attack (envelope p) -> 0 < decay (envelope p) ->
  t0 + attack (envelope p) + decay (envelope p) <= t ->
  valueAtTime {| param_value := v0; param_events := envelopeEvents p t0 |} t
  = volume p * sustain (envelope p).
Proof.
  intros Ha Hd H. unfold valueAtTime, envelopeEvents. simpl.
  qle_cases; try lra. reflexivity.
Qed.

(** Events that are all past do not matter once a later [SetValue] is
    passed too. *)
Lemma timelineValue_past (kept rest : list AutomationEvent) (v now t : Q) :
  Forall (fun x => eventTime x <= now) kept -> now <= t ->
  forall t0 v0,
    timelineValue t0 v0 (kept ++ SetValue v now :: rest) t = timelineValue now v rest t.
Proof.
  intros Hkept Hnow. induction Hkept as [|x kept' Hx _ IH]; intros t0 v0; simpl.
  - rewrite (Qle_bool_true now t Hnow). reflexivity.
  - destruct x as [xv xt | xv xt]; simpl in Hx;
      rewrite (Qle_bool_true xt t) by lra; apply IH.
Qed.

Lemma release_value (now releaseTime t : Q) (p : AudioParam) :
  0 < releaseTime -> now <= t ->
  valueAtTime (releaseGain now releaseTime p) t
  == if Qle_bool (now + releaseTime) t then 0
     else param_value p * (1 - (t - now) / releaseTime).
Proof.
  intros Hrel Ht. unfold valueAtTime, releaseGain. cbn [param_value param_events].
  rewrite (timelineValue_past _ _ _ now t (filter_before now (param_events p)) Ht).
  simpl. qle_cases; try lra.
  field. lra.
Qed.


Lemma alter_as_insert {A : Type} (f : A -> A) (l : list A) (i : nat) (x : A) :
  l !! i = Some x -> <[ i := f x ]> l = alter f i l.
Proof.
  intros H. rewrite list_insert_alter. apply list_alter_ext; [|reflexivity].
  intros y Hy. congruence.
Qed.

(** What [stopNote] does on a well-formed state. *)
Lemma stopNote_wellFormed (s : Synth) (ctx : AudioContext) :
  wellFormed s -> audioContextRef s = Some ctx ->
  0 <= release (envelope (params s)) ->
  exists s1,
    stopNote s = (Some tt, s1)
    /\ params s1 = params s
    /\ audioContextRef s1 =
       Some (withVoices ctx
               (releasedVoices (currentTime ctx) (release (envelope (params s)))
                               (gainNodeRef s) (voices ctx)))
    /\ oscillatorRef s1 = None /\ gainNodeRef s1 = None.
Proof.
  intros (c & Hc & Hnow & Hrefs & Hbound) Hctx Hrel.
  rewrite Hctx in Hc. injection Hc as <-.
  destruct (gainNodeRef s) as [g|] eqn:Hg.
  - destruct (lookup_lt_is_Some_2 (voices ctx) g (Hbound g eq_refl)) as [vg Hvg].
    eexists. split; [apply (stopNote_held s ctx g vg); assumption|].
    cbn [params audioContextRef oscillatorRef gainNodeRef releasedVoices].
    rewrite (alter_as_insert _ _ _ _ Hvg). auto.
  - exists s. split; [apply stopNote_idle; assumption|].
    rewrite Hctx. cbn [releasedVoices].
    destruct ctx; auto.
Qed.

(** What [playNote] does on a well-formed state with playable parameters. *)
Lemma playNote_wellFormed (frequency : Q) (s : Synth) (ctx : AudioContext) :
  wellFormed s -> audioContextRef s = Some ctx -> playable (params s) ->
  exists v,
    buildVoice (params s) frequency (currentTime ctx) = Some v
    /\ gain (v_gainNode v)
       = {| param_value := 1; param_events := envelopeEvents (params s) (currentTime ctx) |}
    /\ oscillator_started (v_oscillator v) = false
    /\ oscillator_stopTime (v_oscillator v) = None
    /\ let before := releasedVoices (currentTime ctx) (release (envelope (params s)))
                                    (gainNodeRef s) (voices ctx) in
       playNote frequency s =
       (Some tt,
        {| params := params s; isPlaying := true;
           audioContextRef := Some (withVoices ctx (before ++ [started v]));
           oscillatorRef := Some (length (voices ctx));
           gainNodeRef := Some (length (voices ctx));
           filterNodeRef := Some (length (voices ctx)) |}).
Proof.
  intros Hwf Hctx Hplay.
  pose proof Hwf as (c & Hc & Hnow & _). rewrite Hctx in Hc. injection Hc as <-.
  destruct (buildVoice_playable (params s) frequency (currentTime ctx) Hnow Hplay)
    as (v & Hbuild & Hgain & Hstarted & Hstop).
  exists v. repeat (split; [assumption|]).
  destruct (stopNote_wellFormed s ctx Hwf Hctx) as (s1 & Hs1 & Hp1 & Hc1 & _).
  { apply Hplay. }
  intros before.
  rewrite (playNote_after_stop frequency s s1 ctx _ v Hctx Hs1 Hc1).
  - rewrite Hp1. cbn [withVoices voices]. fold before.
    assert (Hlen : length before = length (voices ctx)).
    { unfold before, releasedVoices. destruct (gainNodeRef s); [apply length_alter | reflexivity]. }
    rewrite Hlen. reflexivity.
  - rewrite Hp1. exact Hbuild.
Qed.

(** ** Well-formed states, wired voices *)

Lemma wellFormed_mount (rate : positive) : wellFormed (mount rate initialSynth).
Proof.
  exists (newAudioContext rate). repeat split; try reflexivity.
  - simpl. lra.
  - intros g Hg. discriminate.
Qed.

Lemma wellFormed_render (t : Q) (s : Synth) : wellFormed s -> wellFormed (render t s).
Proof.
  intros (ctx & Hctx & Hnow & Hrefs & Hbound).
  exists (renderContext t ctx). unfold render. cbn [audioContextRef oscillatorRef gainNodeRef].
  rewrite Hctx. split; [reflexivity|].
  unfold renderContext. destruct (Qle_bool (currentTime ctx) t) eqn:E.
  - apply Qle_bool_iff in E. cbn [currentTime voices]. split; [lra|].
    split; [exact Hrefs|]. intros g Hg.
    destruct (Qle_bool t (currentTime ctx)); [|rewrite length_map]; apply Hbound, Hg.
  - auto.
Qed.

Lemma preserves_bind {A B : Type} (m : Handler A) (k : A -> Handler B) :
  preserves m -> (forall a, preserves (k a)) -> preserves (m ≫= k).
Proof.
  intros Hm Hk s Hwf. unfold mbind, Handler_bind, bind.
  specialize (Hm s Hwf). destruct (m s) as [[a|] s']; cbn [snd] in *.
  - apply Hk, Hm.
  - exact Hm.
Qed.

Lemma preserves_voiceAt (i : nat) : preserves (voiceAt i).
Proof.
  intros s Hwf. unfold voiceAt.
  destruct (audioContextRef s) as [ctx|]; [destruct (voices ctx !! i)|]; exact Hwf.
Qed.

Lemma preserves_throw {A : Type} : preserves (@throw A).
Proof. intros s Hwf. exact Hwf. Qed.

Lemma preserves_setVoice (i : nat) (v : Voice) : preserves (setVoice i v).
Proof.
  intros s (ctx & Hctx & Hnow & Hrefs & Hbound). unfold setVoice. rewrite Hctx.
  eexists. cbn. split; [reflexivity|]. cbn. split; [exact Hnow|]. split; [exact Hrefs|].
  intros g Hg. rewrite length_insert. apply Hbound, Hg.
Qed.

Lemma preserves_onGain (g : nat) (m : AudioParam -> option AudioParam) :
  preserves (onGain g m).
Proof.
  apply preserves_bind; [apply preserves_voiceAt|].
  intros v. destruct (m _); [apply preserves_setVoice | apply preserves_throw].
Qed.

Lemma preserves_gainValue (g : nat) : preserves (gainValue g).
Proof.
  apply preserves_bind; [apply preserves_voiceAt|]. intros v s Hwf. exact Hwf.
Qed.

Lemma preserves_stopOscillator (o : nat) (when : Q) : preserves (stopOscillator o when).
Proof.
  apply preserves_bind; [apply preserves_voiceAt|].
  intros v. destruct (negative_num when); [apply preserves_throw | apply preserves_setVoice].
Qed.

Lemma preserves_startOscillator (o : nat) : preserves (startOscillator o).
Proof.
  apply preserves_bind; [apply preserves_voiceAt|]. intros v. apply preserves_setVoice.
Qed.

Lemma preserves_setIsPlaying (b : bool) : preserves (setIsPlaying b).
Proof. intros s (ctx & H). exists ctx. exact H. Qed.

Lemma preserves_clearRefs : preserves (setRefs None None None).
Proof.
  intros s (ctx & Hctx & Hnow & _). exists ctx. cbn.
  repeat split; try assumption. intros g Hg. discriminate.
Qed.

Lemma preserves_release (o g : nat) (now releaseTime : Q) :
  preserves (onGain g (cancelScheduledValues now);;
             value ← gainValue g;
             onGain g (setValueAtTime value now);;
             onGain g (linearRampToValueAtTime 0 (now + releaseTime) now);;
             stopOscillator o (now + releaseTime);;
             setRefs None None None;;
             setIsPlaying false).
Proof.
  repeat first [ apply preserves_onGain | apply preserves_gainValue
               | apply preserves_stopOscillator | apply preserves_clearRefs
               | apply preserves_setIsPlaying
               | apply preserves_bind; [|intros ?] ].
Qed.

Lemma preserves_stopNote : preserves stopNote.
Proof.
  intros s Hwf. unfold stopNote.
  destruct (oscillatorRef s) as [o|]; [|exact Hwf].
  destruct (gainNodeRef s) as [g|]; [|exact Hwf].
  destruct (audioContextRef s) as [ctx|]; [|exact Hwf].
  apply preserves_release, Hwf.
Qed.

Lemma preserves_addVoice (ctx : AudioContext) (v : Voice) (s : Synth) :
  0 <= currentTime ctx ->
  wellFormed
    (snd ((setContext (withVoices ctx (voices ctx ++ [v]));;
           setRefs (Some (length (voices ctx))) (Some (length (voices ctx)))
                   (Some (length (voices ctx)));;
           startOscillator (length (voices ctx));;
           setIsPlaying true) s)).
Proof.
  intros Hnow.
  unfold mbind at 1, Handler_bind at 1, bind at 1. cbn [setContext].
  unfold mbind at 1, Handler_bind at 1, bind at 1. cbn [setRefs].
  apply (preserves_bind (startOscillator _) (fun _ => setIsPlaying true)).
  - apply preserves_startOscillator.
  - intros _. apply preserves_setIsPlaying.
  - eexists. cbn. split; [reflexivity|]. cbn. split; [exact Hnow|].
    split; [reflexivity|]. intros g Hg. injection Hg as <-.
    rewrite length_app. cbn. lia.
Qed.

Lemma preserves_playNote (frequency : Q) : preserves (playNote frequency).
Proof.
  intros s Hwf. unfold playNote.
  destruct (audioContextRef s) as [c|]; [|exact Hwf].
  unfold mbind at 1, Handler_bind at 1, bind at 1.
  pose proof (preserves_stopNote s Hwf) as Hstop.
  destruct (stopNote s) as [[[]|] s1]; cbn [snd] in *; [|exact Hstop].
  unfold mbind at 1, Handler_bind at 1, bind at 1, getState.
  pose proof Hstop as (ctx1 & Hctx1 & Hnow & _). rewrite Hctx1.
  destruct (buildVoice (params s1) frequency (currentTime ctx1)) as [v|];
    [|exact Hstop].
  apply preserves_addVoice, Hnow.
Qed.

Lemma wellFormed_playNote (frequency : Q) (s : Synth) :
  wellFormed s -> wellFormed (run (playNote frequency) s).
Proof. apply preserves_playNote. Qed.

Lemma wellFormed_stopNote (s : Synth) : wellFormed s -> wellFormed (run stopNote s).
Proof. apply preserves_stopNote. Qed.

Lemma wellFormed_setParams (updater : SynthParams -> SynthParams) (s : Synth) :
  wellFormed s -> wellFormed (run (setParams updater) s).
Proof. intros (ctx & H). exists ctx. exact H. Qed.

(** Every state that the component reaches is well formed. *)
Lemma reachable_wellFormed (s : Synth) : reachable s -> wellFormed s.
Proof.
  induction 1 as [rate | e s _ IH].
  - apply wellFormed_mount.
  - destruct e; cbn [step].
    + apply wellFormed_playNote, IH.
    + apply wellFormed_stopNote, IH.
    + apply wellFormed_setParams, IH.
    + apply wellFormed_setParams, IH.
    + apply wellFormed_setParams, IH.
    + apply wellFormed_render, IH.
Qed.

(** Every voice that is built is wired to the destination. *)
Lemma buildVoice_wired (p : SynthParams) (frequency now : Q) (v : Voice) :
  buildVoice p frequency now = Some v -> wired v = true.
Proof.
  unfold buildVoice. intros H.
  repeat match type of H with
         | (_ ≫= _) = Some _ => apply bind_Some in H as (? & _ & H)
         end.
  injection H as <-. unfold wired. cbn [v_connections].
  destruct (positive_num (distortion (effects p))),
           (positive_num (reverb (effects p))),
           (positive_num (delay (effects p))); reflexivity.
Qed.


Lemma wired_started (v : Voice) : wired (started v) = wired v.
Proof. reflexivity. Qed.

Lemma wired_renderVoice (t : Q) (v : Voice) : wired (renderVoice t v) = wired v.
Proof. reflexivity. Qed.




(** ** The envelope: note-on and note-off *)

Lemma renderContext_advance (t : Q) (ctx : AudioContext) :
  currentTime ctx < t ->
  renderContext t ctx
  = {| currentTime := t; sampleRate := sampleRate ctx;
       voices := map (renderVoice t) (voices ctx) |}.
Proof.
  intros Ht. unfold renderContext.
  rewrite (Qle_bool_true (currentTime ctx) t) by lra.
  rewrite (Qle_bool_false t (currentTime ctx)) by exact Ht. reflexivity.
Qed.

Lemma renderContext_still (t : Q) (ctx : AudioContext) :
  t <= currentTime ctx -> voices (renderContext t ctx) = voices ctx.
Proof.
  intros Ht. unfold renderContext. destruct (Qle_bool (currentTime ctx) t); [|reflexivity].
  cbn [voices]. rewrite (Qle_bool_true t (currentTime ctx)) by exact Ht. reflexivity.
Qed.

Lemma heldVoice_render (t : Q) (s : Synth) (ctx : AudioContext) (v : Voice) :
  audioContextRef s = Some ctx -> currentTime ctx < t ->
  heldVoice s = Some v -> heldVoice (render t s) = Some (renderVoice t v).
Proof.
  intros Hctx Ht. unfold heldVoice, render. cbn [audioContextRef gainNodeRef].
  rewrite Hctx. cbn. rewrite (renderContext_advance _ _ Ht).
  destruct (gainNodeRef s) as [g|]; cbn; [|discriminate].
  intros Hv. rewrite list_lookup_fmap, Hv. reflexivity.
Qed.

(** C3.  A note-on at time [t0] schedules, on the gain of the new voice,
    the value 0 at [t0], a linear ramp that reaches [volume] at
    [t0 + attack] and a linear ramp that reaches [volume * sustain] at
    [t0 + attack + decay]; the gain keeps that value at every later time,
    also in the slot that rendering refreshes, as long as nothing else is
    scheduled. *)
Theorem note_on_schedules_envelope (frequency : Q) (s : Synth) (ctx : AudioContext) :
  wellFormed s -> audioContextRef s = Some ctx -> playable (params s) ->
  0 < attack (envelope (params s)) -> 0 < decay (envelope (params s)) ->
  let t0 := currentTime ctx in
  let a := attack (envelope (params s)) in
  let d := decay (envelope (params s)) in
  let vol := volume (params s) in
  let sus := sustain (envelope (params s)) in
  let s' := run (playNote frequency) s in
  exists v,
    heldVoice s' = Some v
    /\ param_events (gain (v_gainNode v))
       = [SetValue 0 t0; LinearRamp vol (t0 + a); LinearRamp (vol * sus) (t0 + a + d)]
    /\ valueAtTime (gain (v_gainNode v)) t0 == 0
    /\ valueAtTime (gain (v_gainNode v)) (t0 + a) == vol
    /\ valueAtTime (gain (v_gainNode v)) (t0 + a + d) == vol * sus
    /\ (forall t, t0 <= t <= t0 + a ->
          valueAtTime (gain (v_gainNode v)) t == vol * ((t - t0) / a))
    /\ (forall t, t0 + a <= t <= t0 + a + d ->
          valueAtTime (gain (v_gainNode v)) t
          == vol + (vol * sus - vol) * ((t - (t0 + a)) / d))
    /\ (forall t, t0 + a + d <= t ->
          valueAtTime (gain (v_gainNode v)) t == vol * sus
          /\ exists v', heldVoice (render t s') = Some v'
               /\ param_value (gain (v_gainNode v')) == vol * sus
               /\ param_events (gain (v_gainNode v')) = param_events (gain (v_gainNode v))).
Proof.
  intros Hwf Hctx Hplay Ha Hd t0 a d vol sus s'.
  change (0 < a) in Ha. change (0 < d) in Hd.
  destruct (playNote_wellFormed frequency s ctx Hwf Hctx Hplay)
    as (v & _ & Hgain & _ & _ & Hrun).
  set (before := releasedVoices _ _ _ _) in Hrun.
  assert (Hlen : length before = length (voices ctx)).
  { unfold before, releasedVoices. destruct (gainNodeRef s); [apply length_alter | reflexivity]. }
  assert (Hheld : heldVoice s' = Some (started v)).
  { unfold s', run, heldVoice. rewrite Hrun. cbn. rewrite <- Hlen. apply lookup_snoc_last. }
  exists (started v). split; [exact Hheld|].
  cbn [started withOscillator v_gainNode]. rewrite Hgain.
  split; [reflexivity|].
  set (g := {| param_value := 1; param_events := envelopeEvents (params s) (currentTime ctx) |}).
  assert (Hatt : forall t, t0 <= t <= t0 + a -> valueAtTime g t == vol * ((t - t0) / a))
    by (intros t Ht; apply envelope_attacking; assumption).
  assert (Hdec : forall t, t0 + a <= t <= t0 + a + d ->
                   valueAtTime g t == vol + (vol * sus - vol) * ((t - (t0 + a)) / d))
    by (intros t Ht; apply envelope_decaying; assumption).
  assert (Hsus : forall t, t0 + a + d <= t -> valueAtTime g t = vol * sus)
    by (intros t Ht; apply envelope_sustaining; assumption).
  split; [eapply Qeq_trans; [apply Hatt; lra | field; lra]|].
  split; [eapply Qeq_trans; [apply Hatt; lra | field; lra]|].
  split; [rewrite (Hsus (t0 + a + d)) by lra; reflexivity|].
  split; [exact Hatt|].
  split; [exact Hdec|].
  intros t Ht. split; [rewrite Hsus by assumption; reflexivity|].
  exists (renderVoice t (started v)). split.
  - apply (heldVoice_render t s' (withVoices ctx (before ++ [started v]))).
    + unfold s', run. rewrite Hrun. reflexivity.
    + cbn. fold t0. lra.
    + exact Hheld.
  - cbn [renderVoice v_gainNode gain renderParam param_value param_events started withOscillator].
    rewrite Hgain. fold g. split; [|reflexivity].
    rewrite Hsus by assumption. reflexivity.
Qed.

Lemma playable_default : playable defaultParams.
Proof. repeat split; try discriminate. Qed.

Lemma note_on_schedules_envelope_witness :
  exists v,
    heldVoice (run (playNote 440) (mount 44100 initialSynth)) = Some v
    /\ valueAtTime (gain (v_gainNode v)) 0 == 0
    /\ valueAtTime (gain (v_gainNode v)) (0 + 0.1) == 0.5
    /\ valueAtTime (gain (v_gainNode v)) (0 + 0.1 + 0.3) == 0.5 * 0.7.
Proof.
  destruct (note_on_schedules_envelope 440 (mount 44100 initialSynth)
              (newAudioContext 44100))
    as (v & Hv & _ & H0 & H1 & H2 & _).
  - apply wellFormed_mount.
  - reflexivity.
  - apply playable_default.
  - reflexivity.
  - reflexivity.
  - exists v. split; [exact Hv|]. split; [exact H0|]. split; [exact H1 | exact H2].
Defined.

(** What [stopNote] leaves of a held voice, after the audio thread has
    rendered up to [t1]. *)
Lemma stopNote_after_render (t1 : Q) (s : Synth) (ctx : AudioContext) (g : nat) (vg : Voice) :
  audioContextRef s = Some ctx ->
  oscillatorRef s = Some g -> gainNodeRef s = Some g ->
  voices ctx !! g = Some vg ->
  0 <= currentTime ctx -> currentTime ctx < t1 ->
  0 <= release (envelope (params s)) ->
  stopNote (render t1 s) =
  (Some tt,
   {| params := params s; isPlaying := false;
      audioContextRef :=
        Some {| currentTime := t1; sampleRate := sampleRate ctx;
                voices := <[ g := released t1 (release (envelope (params s)))
                                           (renderVoice t1 vg) ]>
                            (map (renderVoice t1) (voices ctx)) |};
      oscillatorRef := None; gainNodeRef := None; filterNodeRef := None |}).
Proof.
  intros Hctx Ho Hg Hvg Hnow Ht1 Hrel.
  rewrite (stopNote_held (render t1 s)
             {| currentTime := t1; sampleRate := sampleRate ctx;
                voices := map (renderVoice t1) (voices ctx) |} g (renderVoice t1 vg)).
  - reflexivity.
  - unfold render. cbn [audioContextRef]. rewrite Hctx. cbn.
    rewrite (renderContext_advance _ _ Ht1). reflexivity.
  - exact Ho.
  - exact Hg.
  - cbn [voices]. rewrite list_lookup_fmap, Hvg. reflexivity.
  - cbn [currentTime]. lra.
  - exact Hrel.
Qed.

(** The same when the rendering has not advanced the clock: the slots
    are as they were. *)
Lemma stopNote_after_still_render
    (t1 : Q) (s : Synth) (ctx : AudioContext) (g : nat) (vg : Voice) :
  audioContextRef s = Some ctx ->
  oscillatorRef s = Some g -> gainNodeRef s = Some g ->
  voices ctx !! g = Some vg ->
  0 <= currentTime ctx -> currentTime ctx <= t1 -> t1 <= currentTime ctx ->
  0 <= release (envelope (params s)) ->
  stopNote (render t1 s) =
  (Some tt,
   {| params := params s; isPlaying := false;
      audioContextRef :=
        Some {| currentTime := t1; sampleRate := sampleRate ctx;
                voices := <[ g := released t1 (release (envelope (params s))) vg ]>
                            (voices ctx) |};
      oscillatorRef := None; gainNodeRef := None; filterNodeRef := None |}).
Proof.
  intros Hctx Ho Hg Hvg Hnow Hle Hge Hrel.
  rewrite (stopNote_held (render t1 s)
             {| currentTime := t1; sampleRate := sampleRate ctx;
                voices := voices ctx |} g vg).
  - reflexivity.
  - unfold render. cbn [audioContextRef]. rewrite Hctx. cbn.
    unfold renderContext. rewrite (Qle_bool_true _ _ Hle), (Qle_bool_true _ _ Hge).
    reflexivity.
  - exact Ho.
  - exact Hg.
  - exact Hvg.
  - cbn [currentTime]. lra.
  - exact Hrel.
Qed.

(** What a note-off leaves of the gain of the held voice, read off the
    state it runs in. *)
Lemma stopNote_pins_the_slot (s : Synth) (ctx : AudioContext) (g : nat) (vg : Voice) :
  audioContextRef s = Some ctx ->
  oscillatorRef s = Some g -> gainNodeRef s = Some g ->
  voices ctx !! g = Some vg ->
  0 <= currentTime ctx -> 0 < release (envelope (params s)) ->
  let old := gain (v_gainNode vg) in
  let now := currentTime ctx in
  let r := release (envelope (params s)) in
  exists v',
    voicesOf (run stopNote s) !! g = Some v'
    /\ param_events (gain (v_gainNode v'))
       = List.filter (fun e => negb (Qle_bool now (eventTime e))) (param_events old)
         ++ [SetValue (param_value old) now; LinearRamp 0 (now + r)]
    /\ (forall t, now <= t <= now + r ->
          valueAtTime (gain (v_gainNode v')) t == param_value old * (1 - (t - now) / r))
    /\ (forall t, now + r <= t -> valueAtTime (gain (v_gainNode v')) t == 0)
    /\ oscillator_stopTime (v_oscillator v') = Some (now + r).
Proof.
  intros Hctx Ho Hg Hvg Hnow Hrel old now r.
  change (0 < r) in Hrel.
  exists (released now r vg).
  assert (Hlt := lookup_lt_Some _ _ _ Hvg).
  split.
  { unfold voicesOf, run.
    rewrite (stopNote_held s ctx g vg) by (try assumption; fold r; lra).
    cbn. apply list_lookup_insert_eq. exact Hlt. }
  cbn [released withOscillator withGain v_gainNode gain v_oscillator
       withStopTime oscillator_stopTime].
  fold old.
  assert (Hval : forall t, now <= t ->
            valueAtTime (releaseGain now r old) t
            == if Qle_bool (now + r) t then 0 else param_value old * (1 - (t - now) / r)).
  { intros t Ht. apply (release_value now r t old Hrel Ht). }
  split; [reflexivity|].
  split.
  { intros t Ht. eapply Qeq_trans; [apply Hval; lra|].
    destruct (Qle_bool (now + r) t) eqn:E; [|reflexivity].
    apply Qle_bool_iff in E. assert (Et : t == now + r) by lra.
    rewrite Et. field. lra. }
  split.
  { intros t Ht. eapply Qeq_trans; [apply Hval; lra|].
    rewrite (Qle_bool_true (now + r) t Ht). reflexivity. }
  reflexivity.
Qed.

(** X24.  A note-off on a held voice removes the events scheduled at or
    after the time [now] of the call, pins at [now] the value that
    [gain.value] reads, the value slot as rendering last refreshed it, and
    schedules a linear ramp from that value to 0 at [now + release], where
    the oscillator stops.  Once the audio thread has rendered up to a later
    time [t1], the slot holds the value of the timeline at [t1]: a note-off
    then starts its ramp from the level that the envelope has at [t1], the
    value of the running ramp or the sustain level and not the target of
    the ramp, and the gain at [t1] is the same before and after. *)
Theorem note_off_ramps_from_current_value
    (s : Synth) (ctx : AudioContext) (g : nat) (vg : Voice) :
  audioContextRef s = Some ctx ->
  oscillatorRef s = Some g -> gainNodeRef s = Some g ->
  voices ctx !! g = Some vg ->
  0 <= currentTime ctx ->
  0 < release (envelope (params s)) ->
  let old := gain (v_gainNode vg) in
  let r := release (envelope (params s)) in
  (let now := currentTime ctx in
   exists v',
     voicesOf (run stopNote s) !! g = Some v'
     /\ param_events (gain (v_gainNode v'))
        = List.filter (fun e => negb (Qle_bool now (eventTime e))) (param_events old)
          ++ [SetValue (param_value old) now; LinearRamp 0 (now + r)]
     /\ (forall t, now <= t <= now + r ->
           valueAtTime (gain (v_gainNode v')) t == param_value old * (1 - (t - now) / r))
     /\ (forall t, now + r <= t -> valueAtTime (gain (v_gainNode v')) t == 0)
     /\ oscillator_stopTime (v_oscillator v') = Some (now + r))
  /\ (forall t1, currentTime ctx < t1 ->
      let current := valueAtTime old t1 in
      exists v',
        voicesOf (run stopNote (render t1 s)) !! g = Some v'
        /\ param_events (gain (v_gainNode v'))
           = List.filter (fun e => negb (Qle_bool t1 (eventTime e))) (param_events old)
             ++ [SetValue current t1; LinearRamp 0 (t1 + r)]
        /\ valueAtTime (gain (v_gainNode v')) t1 == current
        /\ (forall t, t1 <= t <= t1 + r ->
              valueAtTime (gain (v_gainNode v')) t == current * (1 - (t - t1) / r))
        /\ (forall t, t1 + r <= t -> valueAtTime (gain (v_gainNode v')) t == 0)
        /\ oscillator_stopTime (v_oscillator v') = Some (t1 + r)
        /\ (forall p t0,
              param_events old = envelopeEvents p t0 ->
              0 < attack (envelope p) -> 0 < decay (envelope p) ->
              (t0 <= t1 <= t0 + attack (envelope p) ->
                 current == volume p * ((t1 - t0) / attack (envelope p)))
              /\ (t0 + attack (envelope p) <= t1
                    <= t0 + attack (envelope p) + decay (envelope p) ->
                  current == volume p
                             + (volume p * sustain (envelope p) - volume p)
                               * ((t1 - (t0 + attack (envelope p))) / decay (envelope p)))
              /\ (t0 + attack (envelope p) + decay (envelope p) <= t1 ->
                  current == volume p * sustain (envelope p)))).
Proof.
  intros Hctx Ho Hg Hvg Hnow Hrel old r.
  split; [exact (stopNote_pins_the_slot s ctx g vg Hctx Ho Hg Hvg Hnow Hrel)|].
  intros t1 Ht1 current.
  destruct (stopNote_pins_the_slot (render t1 s)
              {| currentTime := t1; sampleRate := sampleRate ctx;
                 voices := map (renderVoice t1) (voices ctx) |} g (renderVoice t1 vg))
    as (v' & Hv' & Hev & Hramp & Hzero & Hstop).
  - unfold render. cbn [audioContextRef]. rewrite Hctx. cbn.
    rewrite (renderContext_advance _ _ Ht1). reflexivity.
  - exact Ho.
  - exact Hg.
  - cbn [voices]. rewrite list_lookup_fmap, Hvg. reflexivity.
  - cbn [currentTime]. lra.
  - exact Hrel.
  - cbn [currentTime renderVoice v_gainNode gain renderParam param_value param_events
         render params] in Hev, Hramp, Hzero, Hstop.
    fold old in Hev, Hramp. fold current in Hev, Hramp. fold r in Hev, Hramp, Hzero, Hstop.
    change (0 < r) in Hrel.
    exists v'. split; [exact Hv'|]. split; [exact Hev|].
    split.
    { eapply Qeq_trans; [apply Hramp; lra|]. field. lra. }
    split; [exact Hramp|]. split; [exact Hzero|]. split; [exact Hstop|].
    intros p t0 Hold Ha Hd. unfold current.
    assert (Hrec : old = {| param_value := param_value old;
                            param_events := envelopeEvents p t0 |}).
    { destruct old; cbn in *. congruence. }
    rewrite Hrec.
    split; [intros H; apply envelope_attacking; assumption|].
    split; [intros H; apply envelope_decaying; assumption|].
    intros H. rewrite envelope_sustaining by assumption. reflexivity.
Qed.

Lemma note_off_ramps_from_current_value_witness :
  let s := run (playNote 440)
               (run (updateParam envelope_cat "attack" (VNum 1))
                    (mount 44100 initialSynth)) in
  exists v',
    voicesOf (run stopNote (render 0.2 s)) !! 0%nat = Some v'
    /\ valueAtTime (gain (v_gainNode v')) 0.2 == 0.1
    /\ valueAtTime (gain (v_gainNode v')) (0.2 + 0.5) == 0.
Proof.
  intros s.
  edestruct (note_off_ramps_from_current_value s) as (_ & Hrendered).
  - reflexivity.
  - reflexivity.
  - reflexivity.
  - reflexivity.
  - discriminate.
  - reflexivity.
  - destruct (Hrendered 0.2) as (v' & H1 & _ & H3 & _ & H5 & _); [reflexivity|].
    exists v'. split; [exact H1|]. split.
    + eapply Qeq_trans; [exact H3|]. reflexivity.
    + apply H5. apply Qle_refl.
Defined.

(** C4.  The claim fails for a note-off that comes before the audio
    thread has rendered anything since the note-on, a key tapped, or a
    second key pressed, within one render quantum.  [stopNote] pins
    [gain.value], and the slot behind it still holds the default 1 of the
    new gain node, not the level of the envelope, which is 0 at that time.
    The gain jumps from 0 to 1 and the release ramp falls from 1: at 0.1 s
    it is 0.8, above the volume 0.5 that the note would have reached.  The
    second note-on of the pair below does the same to the first voice
    through the note-off that [playNote] starts with. *)
Lemma note_off_before_rendering_starts_from_the_default_gain :
  let held := step (NoteOn 440) (mount 44100 initialSynth) in
  let tapped := step NoteOff held in
  let chord := step (NoteOn 523.25)
                 (step (NoteOn 440) (step (Render 1) (mount 44100 initialSynth))) in
  reachable tapped
  /\ reachable chord
  /\ exists v v' w',
       heldVoice held = Some v
       /\ volume (params held) = 0.5
       /\ release (envelope (params held)) = 0.5
       /\ valueAtTime (gain (v_gainNode v)) 0 == 0
       /\ param_value (gain (v_gainNode v)) = 1
       /\ voicesOf tapped !! 0%nat = Some v'
       /\ param_events (gain (v_gainNode v')) = [SetValue 1 0; LinearRamp 0 (0 + 0.5)]
       /\ valueAtTime (gain (v_gainNode v')) 0 == 1
       /\ ~ valueAtTime (gain (v_gainNode v')) 0 == valueAtTime (gain (v_gainNode v)) 0
       /\ valueAtTime (gain (v_gainNode v')) 0.1 == 0.8
       /\ voicesOf chord !! 0%nat = Some w'
       /\ param_events (gain (v_gainNode w')) = [SetValue 1 1; LinearRamp 0 (1 + 0.5)].
Proof.
  intros held tapped chord.
  split.
  { unfold tapped, held. repeat apply reachable_step. apply reachable_mount. }
  split.
  { unfold chord. repeat apply reachable_step. apply reachable_mount. }
  eexists _, _, _.
  split; [vm_compute; reflexivity|].
  split; [reflexivity|]. split; [reflexivity|].
  split; [vm_compute; reflexivity|]. split; [vm_compute; reflexivity|].
  split; [vm_compute; reflexivity|]. split; [vm_compute; reflexivity|].
  split; [vm_compute; reflexivity|].
  split; [vm_compute; discriminate|].
  split; [vm_compute; reflexivity|].
  split; vm_compute; reflexivity.
Qed.

(** ** One voice after another *)







(** The voice that a note-on builds is the one the component holds
    afterwards. *)
Lemma playNote_heldVoice (frequency : Q) (s : Synth) (ctx : AudioContext) :
  wellFormed s -> audioContextRef s = Some ctx -> playable (params s) ->
  exists v,
    buildVoice (params s) frequency (currentTime ctx) = Some v
    /\ heldVoice (run (playNote frequency) s) = Some (started v).
Proof.
  intros Hwf Hctx Hplay.
  destruct (playNote_wellFormed frequency s ctx Hwf Hctx Hplay)
    as (v & Hbuild & _ & _ & _ & Hrun).
  exists v. split; [exact Hbuild|].
  unfold heldVoice, run. rewrite Hrun. cbn.
  set (before := releasedVoices _ _ _ _).
  assert (Hlen : length before = length (voices ctx)).
  { unfold before, releasedVoices. destruct (gainNodeRef s); [apply length_alter | reflexivity]. }
  rewrite <- Hlen. apply lookup_snoc_last.
Qed.

(** ** Parameter changes *)

(** The claim C6 fails: the release is changed from 0.5 to 3 seconds
    while a note sounds; the note-off one second after the note-on ramps
    the voice down over 3 seconds, not over the 0.5 seconds that the
    parameters had at its note-on. *)
Lemma release_change_reaches_the_sounding_voice :
  let s1 := run (playNote 440) (mount 44100 initialSynth) in
  let s2 := run (updateParam envelope_cat "release" (VNum 3)) s1 in
  release (envelope (params s1)) = 0.5
  /\ exists v,
       voicesOf (run stopNote (render 1 s2)) !! 0%nat = Some v
       /\ oscillator_stopTime (v_oscillator v) = Some (1 + 3)
       /\ oscillator_stopTime (v_oscillator v) <> Some (1 + 0.5)
       /\ last (param_events (gain (v_gainNode v))) = Some (LinearRamp 0 (1 + 3))
       /\ voicesOf (run stopNote (render 1 s2)) <> voicesOf (run stopNote (render 1 s1)).
Proof.
  intros s1 s2. split; [reflexivity|].
  eexists. split; [vm_compute; reflexivity|].
  repeat split; try (vm_compute; reflexivity); vm_compute; discriminate.
Qed.

(** C6, as the code has it.  Changing the stored parameters (by
    [updateParam], the volume knob or [loadPreset], all of them [setParams])
    touches neither the audio context nor the refs: the voice that sounds,
    its graph and what is scheduled on it stay as they are, and rendering
    goes on as before.  The note-off that ends the voice reads the release
    time from the parameters stored then: a change of [release] made
    while the voice sounds sets the length of its release ramp, and a
    change that keeps [release] leaves the note-off as it would have
    been.  The next note-on builds its voice from the changed
    parameters. *)
Theorem parameter_change_reaches_only_the_release
    (updater : SynthParams -> SynthParams) (t1 : Q)
    (s : Synth) (ctx : AudioContext) (g : nat) (vg : Voice) :
  audioContextRef s = Some ctx ->
  oscillatorRef s = Some g -> gainNodeRef s = Some g ->
  voices ctx !! g = Some vg ->
  0 <= currentTime ctx -> currentTime ctx <= t1 ->
  0 <= release (envelope (params s)) ->
  0 <= release (envelope (updater (params s))) ->
  let s2 := run (setParams updater) s in
  let r2 := release (envelope (updater (params s))) in
  (forall category param value,
      updateParam category param value = setParams (updateParamOf category param value))
  /\ (forall value, setVolume value = setParams (setVolumeOf value))
  /\ fst (setParams updater s) = Some tt
  /\ params s2 = updater (params s)
  /\ audioContextRef s2 = audioContextRef s
  /\ oscillatorRef s2 = oscillatorRef s
  /\ gainNodeRef s2 = gainNodeRef s
  /\ filterNodeRef s2 = filterNodeRef s
  /\ heldVoice s2 = Some vg
  /\ (forall t, voicesOf (render t s2) = voicesOf (render t s))
  /\ (exists v' pinned,
        voicesOf (run stopNote (render t1 s2)) !! g = Some v'
        /\ oscillator_stopTime (v_oscillator v') = Some (t1 + r2)
        /\ param_events (gain (v_gainNode v'))
           = List.filter (fun e => negb (Qle_bool t1 (eventTime e)))
                         (param_events (gain (v_gainNode vg)))
             ++ [SetValue pinned t1; LinearRamp 0 (t1 + r2)]
        /\ (currentTime ctx < t1 -> pinned = valueAtTime (gain (v_gainNode vg)) t1)
        /\ (t1 <= currentTime ctx -> pinned = param_value (gain (v_gainNode vg))))
  /\ (r2 = release (envelope (params s)) ->
      voicesOf (run stopNote (render t1 s2)) = voicesOf (run stopNote (render t1 s)))
  /\ (forall frequency,
        playable (updater (params s)) ->
        exists v,
          buildVoice (updater (params s)) frequency (currentTime ctx) = Some v
          /\ heldVoice (run (playNote frequency) s2) = Some (started v)).
Proof.
  intros Hctx Ho Hg Hvg Hnow Ht1 Hrel Hrel2 s2 r2.
  assert (Hlt := lookup_lt_Some _ _ _ Hvg).
  repeat (split; [reflexivity|]).
  split. { unfold heldVoice, s2, run. cbn. rewrite Hctx, Hg. exact Hvg. }
  split; [reflexivity|].
  destruct (Qlt_le_dec (currentTime ctx) t1) as [Hadv|Hstill].
  - assert (Hstop2 := stopNote_after_render t1 s2 ctx g vg Hctx Ho Hg Hvg Hnow Hadv Hrel2).
    assert (Hstop := stopNote_after_render t1 s ctx g vg Hctx Ho Hg Hvg Hnow Hadv Hrel).
    split.
    { exists (released t1 r2 (renderVoice t1 vg)), (valueAtTime (gain (v_gainNode vg)) t1).
      unfold voicesOf, run. rewrite Hstop2. cbn.
      split; [apply list_lookup_insert_eq; rewrite length_map; exact Hlt|].
      split; [reflexivity|]. split; [reflexivity|].
      split; [reflexivity | intros H; exfalso; lra]. }
    split.
    + intros Hsame. unfold voicesOf, run. rewrite Hstop2, Hstop. cbn.
      fold r2. rewrite Hsame. reflexivity.
    + intros frequency Hplay.
      apply (playNote_heldVoice frequency s2 ctx); [|exact Hctx|exact Hplay].
      exists ctx. split; [exact Hctx|]. split; [exact Hnow|].
      split; [cbn; congruence|]. intros g' Hg'. cbn in Hg'.
      rewrite Hg in Hg'. injection Hg' as <-. exact Hlt.
  - assert (Hstop2 := stopNote_after_still_render t1 s2 ctx g vg
                        Hctx Ho Hg Hvg Hnow Ht1 Hstill Hrel2).
    assert (Hstop := stopNote_after_still_render t1 s ctx g vg
                       Hctx Ho Hg Hvg Hnow Ht1 Hstill Hrel).
    split.
    { exists (released t1 r2 vg), (param_value (gain (v_gainNode vg))).
      unfold voicesOf, run. rewrite Hstop2. cbn.
      split; [apply list_lookup_insert_eq; exact Hlt|].
      split; [reflexivity|]. split; [reflexivity|].
      split; [intros H; exfalso; lra | reflexivity]. }
    split.
    + intros Hsame. unfold voicesOf, run. rewrite Hstop2, Hstop. cbn.
      fold r2. rewrite Hsame. reflexivity.
    + intros frequency Hplay.
    apply (playNote_heldVoice frequency s2 ctx); [|exact Hctx|exact Hplay].
    exists ctx. split; [exact Hctx|]. split; [exact Hnow|].
    split; [cbn; congruence|]. intros g' Hg'. cbn in Hg'.
    rewrite Hg in Hg'. injection Hg' as <-. exact Hlt.
Qed.

Lemma parameter_change_reaches_only_the_release_witness :
  let s := run (playNote 440) (mount 44100 initialSynth) in
  exists v',
    voicesOf (run stopNote (render 1 (run (setParams (updateParamOf envelope_cat "release" (VNum 3))) s)))
      !! 0%nat = Some v'
    /\ oscillator_stopTime (v_oscillator v') = Some (1 + 3).
Proof.
  intros s.
  edestruct (parameter_change_reaches_only_the_release
               (updateParamOf envelope_cat "release" (VNum 3)) 1 s)
    as (_ & _ & _ & _ & _ & _ & _ & _ & _ & _ & (v' & pinned & Hv & Hstop & _) & _ & _).
  - reflexivity.
  - reflexivity.
  - reflexivity.
  - reflexivity.
  - discriminate.
  - discriminate.
  - discriminate.
  - discriminate.
  - exists v'. split; [exact Hv | exact Hstop].
Defined.

(** The claim C2 fails: a resonance of 35, outside [[0.1, 30]], is
    accepted and stored; no error is raised and the stored parameters
    change. *)
Lemma out_of_range_resonance_is_stored :
  let s := mount 44100 initialSynth in
  let s' := run (updateParam filter_cat "Q" (VNum 35)) s in
  ~ (0.1 <= 35 <= 30)
  /\ fst (updateParam filter_cat "Q" (VNum 35) s) = Some tt
  /\ filter_Q (filter (params s')) = 35
  /\ params s' <> params s.
Proof.
  intros s s'. split; [intros [_ H]; lra|].
  split; [reflexivity|]. split; [reflexivity|]. discriminate.
Qed.

Lemma synthKnobs_frame (kb kb' : KnobBinding) (v : Q) (s : Synth) :
  In kb synthKnobs -> In kb' synthKnobs -> knob_label kb' <> knob_label kb ->
  knob_value kb' (params (run (knob_onChange kb v) s)) = knob_value kb' (params s).
Proof.
  intros H H' Hne. simpl in H, H'.
  repeat (destruct H as [<- | H];
          [repeat (destruct H' as [<- | H']; [first [reflexivity | exfalso; apply Hne; reflexivity]|]);
           destruct H'|]).
  destruct H.
Qed.

(** C2, as the code has it.  No update of a parameter is validated.
    For every numeric parameter (every knob of the synthesizer) and every
    value, in its range or not, the update returns without an error,
    stores the value in that parameter and leaves the other parameters,
    the waveform and filter type, the audio context and the refs as they
    were.  Loading a preset stores its parameters as they are. *)
Theorem parameter_updates_are_not_validated (kb : KnobBinding) (value : Q) (s : Synth) :
  In kb synthKnobs ->
  let s' := run (knob_onChange kb value) s in
  fst (knob_onChange kb value s) = Some tt
  /\ knob_value kb (params s') = value
  /\ (forall kb', In kb' synthKnobs -> knob_label kb' <> knob_label kb ->
        knob_value kb' (params s') = knob_value kb' (params s))
  /\ osc_type (oscillator (params s')) = osc_type (oscillator (params s))
  /\ filter_type (filter (params s')) = filter_type (filter (params s))
  /\ audioContextRef s' = audioContextRef s
  /\ oscillatorRef s' = oscillatorRef s
  /\ gainNodeRef s' = gainNodeRef s
  /\ filterNodeRef s' = filterNodeRef s
  /\ isPlaying s' = isPlaying s
  /\ (forall preset,
        fst (loadPreset preset s) = Some tt
        /\ params (run (loadPreset preset) s)
           = {| oscillator := preset_oscillator preset;
                filter := preset_filter preset;
                envelope := preset_envelope preset;
                effects := preset_effects preset;
                volume := preset_volume preset |}).
Proof.
  intros Hkb s'.
  destruct (synthKnobs_store kb value s Hkb) as [Hret Hstored].
  split; [exact Hret|]. split; [exact Hstored|].
  split; [intros kb' Hkb' Hne; apply synthKnobs_frame; assumption|].
  assert (Hrest : osc_type (oscillator (params s')) = osc_type (oscillator (params s))
                  /\ filter_type (filter (params s')) = filter_type (filter (params s))
                  /\ audioContextRef s' = audioContextRef s
                  /\ oscillatorRef s' = oscillatorRef s
                  /\ gainNodeRef s' = gainNodeRef s
                  /\ filterNodeRef s' = filterNodeRef s
                  /\ isPlaying s' = isPlaying s).
  { unfold s'. clear Hret Hstored. simpl in Hkb.
    repeat (destruct Hkb as [<- | Hkb]; [repeat split|]). destruct Hkb. }
  destruct Hrest as (H1 & H2 & H3 & H4 & H5 & H6 & H7).
  repeat (split; [assumption|]).
  intros preset. split; reflexivity.
Qed.

Lemma parameter_updates_are_not_validated_witness :
  let kb := {| knob_label := "Resonance";
               knob_value := fun p => filter_Q (filter p);
               knob_min := 0.1; knob_max := 30;
               knob_onChange := fun value =>
                 updateParam filter_cat "Q" (VNum value) |} in
  let s := mount 44100 initialSynth in
  fst (knob_onChange kb 35 s) = Some tt
  /\ knob_value kb (params (run (knob_onChange kb 35) s)) = 35.
Proof.
  intros kb s.
  destruct (parameter_updates_are_not_validated kb 35 s) as (H1 & H2 & _).
  - simpl. tauto.
  - split; [exact H1 | exact H2].
Defined.

(** ** The preset mutations *)

(** The claim C9 fails: without an identity, the deletion fails with the
    error of a missing login, which is not the error for a preset that is
    missing or owned by someone else. *)
Lemma delete_without_identity_is_another_error :
  let preset := {| preset_name := "pad"; preset_userId := "alice";
                   preset_oscillator := oscillator defaultParams;
                   preset_filter := filter defaultParams;
                   preset_envelope := envelope defaultParams;
                   preset_effects := effects defaultParams;
                   preset_volume := volume defaultParams |} in
  let db : gmap string Preset := {[ "p1" := preset ]} in
  Convex.deletePreset None "p1" db = (Convex.Threw "Must be logged in", db)
  /\ Convex.deletePreset (Some "bob") "p1" db
     = (Convex.Threw "Preset not found or unauthorized", db)
  /\ Convex.Threw "Must be logged in" <> Convex.Threw "Preset not found or unauthorized".
Proof.
  intros preset db. split; [reflexivity|]. split; [reflexivity | discriminate].
Qed.

(** C9, as the code has it.  A deletion returns exactly when the
    requester has an identity, the preset exists and its [userId] is that
    identity; the preset is then removed and every other preset is kept.
    Otherwise the mutation throws and the table is unchanged: without an
    identity the error is "Must be logged in"; with one, for a preset that
    is missing or owned by someone else, it is the one error "Preset not
    found or unauthorized". *)
Theorem deletePreset_outcomes (userId : option string) (presetId : string)
    (db : gmap string Preset) :
  let result := Convex.deletePreset userId presetId db in
  (fst result = Convex.Returned
   <-> Convex.noUser userId = false
       /\ exists preset, db !! presetId = Some preset
                         /\ userId = Some (preset_userId preset))
  /\ (fst result = Convex.Returned ->
      snd result = delete presetId db
      /\ snd result !! presetId = None
      /\ forall other, other <> presetId -> snd result !! other = db !! other)
  /\ (fst result <> Convex.Returned -> snd result = db)
  /\ (Convex.noUser userId = true -> fst result = Convex.Threw "Must be logged in")
  /\ (Convex.noUser userId = false -> fst result <> Convex.Returned ->
      fst result = Convex.Threw "Preset not found or unauthorized").
Proof.
  intros result. unfold result, Convex.deletePreset.
  destruct (Convex.noUser userId) eqn:Hno; cbn [fst snd].
  - split; [split; [discriminate | intros [H _]; discriminate]|].
    split; [discriminate|]. split; [reflexivity|]. split; [reflexivity|]. discriminate.
  - destruct (db !! presetId) as [preset|] eqn:Hdb; cbn [fst snd].
    + case_bool_decide as Hown; cbn [negb fst snd].
      * split; [split; [intros _; split; [reflexivity|]; exists preset; auto | reflexivity]|].
        split.
        { intros _. split; [reflexivity|]. split; [apply lookup_delete_eq|].
          intros other Hne. apply lookup_delete_ne. congruence. }
        split; [intros H; exfalso; apply H; reflexivity|].
        split; [discriminate|]. intros _ H. exfalso. apply H. reflexivity.
      * split.
        { split; [discriminate|]. intros [_ (p & Hp & Hu)].
          exfalso. apply Hown. congruence. }
        split; [discriminate|]. split; [reflexivity|]. split; [discriminate|]. reflexivity.
    + split.
      { split; [discriminate|]. intros [_ (p & Hp & _)]. discriminate. }
      split; [discriminate|]. split; [reflexivity|]. split; [discriminate|]. reflexivity.
Qed.

Lemma deletePreset_outcomes_witness :
  let preset := {| preset_name := "pad"; preset_userId := "alice";
                   preset_oscillator := oscillator defaultParams;
                   preset_filter := filter defaultParams;
                   preset_envelope := envelope defaultParams;
                   preset_effects := effects defaultParams;
                   preset_volume := volume defaultParams |} in
  let db : gmap string Preset := {[ "p1" := preset ]} in
  snd (Convex.deletePreset (Some "alice") "p1" db) !! "p1" = None
  /\ fst (Convex.deletePreset (Some "bob") "p1" db)
     = Convex.Threw "Preset not found or unauthorized".
Proof.
  intros preset db. split.
  - destruct (deletePreset_outcomes (Some "alice") "p1" db) as (_ & H & _).
    apply H. reflexivity.
  - destruct (deletePreset_outcomes (Some "bob") "p1" db) as (_ & _ & _ & _ & H).
    apply H; [reflexivity | discriminate].
Defined.

(** ** The graph of a voice *)

Lemma buildVoice_connections (p : SynthParams) (frequency now : Q) (v : Voice) :
  buildVoice p frequency now = Some v ->
  v_connections v =
    [(oscillator_stage, filterNode_stage)]
    ++ (if positive_num (distortion (effects p))
        then [(filterNode_stage, distortionNode_stage);
              (distortionNode_stage, gainNode_stage)]
        else [(filterNode_stage, gainNode_stage)])
    ++ [(gainNode_stage, masterGain_stage)]
    ++ (if positive_num (reverb (effects p))
        then [(gainNode_stage, reverbNode_stage);
              (reverbNode_stage, masterGain_stage)]
        else [])
    ++ (if positive_num (delay (effects p))
        then [(gainNode_stage, delayNode_stage);
              (delayNode_stage, delayGain_stage);
              (delayGain_stage, delayNode_stage);
              (delayGain_stage, masterGain_stage)]
        else [])
    ++ [(masterGain_stage, destination)]
  /\ curve (v_distortionNode v)
     = (if positive_num (distortion (effects p))
        then Some (createDistortionCurve (distortion (effects p) * 100))
        else None)
  /\ oversample (v_distortionNode v)
     = (if positive_num (distortion (effects p)) then "4x" else "none")
  /\ convolver_buffer (v_reverbNode v)
     = Some {| impulse_duration := 2; impulse_decay := reverb (effects p) * 10 |}.
Proof.
  unfold buildVoice. intros H.
  repeat match type of H with
         | (_ ≫= _) = Some _ => apply bind_Some in H as (? & _ & H)
         end.
  injection H as <-. cbn [v_connections v_distortionNode v_reverbNode convolver_buffer].
  destruct (positive_num (distortion (effects p))); repeat split.
Qed.

(** Closes a goal about the connections of a graph that is known. *)
Ltac edge_solve :=
  first
    [ assumption
    | lra
    | compute_done
    | exfalso; lra
    | exfalso;
      match goal with
      | H : _ ∈ _ |- _ => revert H; compute_done
      | H : ¬ _ |- _ => apply H; compute_done
      | H : forall b : Stage, _ |- _ =>
          first [ destruct (H gainNode_stage) as [? ?]
                | destruct (H filterNode_stage) as [? ?] ];
          match goal with H' : ¬ _ |- _ => apply H'; compute_done end
      end ].

(** C5.  The graph of the voice that a note-on builds: the oscillator
    feeds the filter, the gain feeds the master gain and the master gain
    the destination; the filter feeds the gain through the distortion
    stage exactly when [distortion > 0], and directly otherwise, with no
    connection at the distortion stage; the reverb send (gain to reverb to
    master) is there exactly when [reverb > 0]; the delay send (gain to
    delay to feedback gain to master, and feedback gain back to delay) is
    there exactly when [delay > 0]; a send that is not there has no
    connection at all at its stages. *)
Theorem voice_graph_follows_the_effect_amounts
    (frequency : Q) (s : Synth) (ctx : AudioContext) :
  wellFormed s -> audioContextRef s = Some ctx -> playable (params s) ->
  let fx := effects (params s) in
  exists v,
    heldVoice (run (playNote frequency) s) = Some v
    /\ connected v oscillator_stage filterNode_stage
    /\ connected v gainNode_stage masterGain_stage
    /\ connected v masterGain_stage destination
    /\ (0 < distortion fx <->
          connected v filterNode_stage distortionNode_stage
          /\ connected v distortionNode_stage gainNode_stage)
    /\ (0 < distortion fx <-> ~ connected v filterNode_stage gainNode_stage)
    /\ (~ 0 < distortion fx <-> isolated v distortionNode_stage)
    /\ (0 < reverb fx <->
          connected v gainNode_stage reverbNode_stage
          /\ connected v reverbNode_stage masterGain_stage)
    /\ (~ 0 < reverb fx <-> isolated v reverbNode_stage)
    /\ (0 < delay fx <->
          connected v gainNode_stage delayNode_stage
          /\ connected v delayNode_stage delayGain_stage
          /\ connected v delayGain_stage delayNode_stage
          /\ connected v delayGain_stage masterGain_stage)
    /\ (~ 0 < delay fx <->
          isolated v delayNode_stage /\ isolated v delayGain_stage).
Proof.
  intros Hwf Hctx Hplay fx.
  destruct (playNote_wellFormed frequency s ctx Hwf Hctx Hplay)
    as (v & Hbuild & _ & _ & _ & Hrun).
  exists (started v). split.
  { unfold heldVoice, run. rewrite Hrun. cbn.
    set (before := releasedVoices _ _ _ _).
    assert (Hlen : length before = length (voices ctx)).
    { unfold before, releasedVoices. destruct (gainNodeRef s); [apply length_alter | reflexivity]. }
    rewrite <- Hlen. apply lookup_snoc_last. }
  destruct (buildVoice_connections _ _ _ _ Hbuild) as (Hconn & _).
  unfold isolated, connected. cbn [started withOscillator v_connections].
  rewrite Hconn. fold fx. clear Hconn Hrun Hbuild.
  destruct (positive_num (distortion fx)) eqn:Hd;
    [apply positive_num_true in Hd | apply positive_num_false in Hd];
  (destruct (positive_num (reverb fx)) eqn:Hr;
    [apply positive_num_true in Hr | apply positive_num_false in Hr]);
  (destruct (positive_num (delay fx)) eqn:Hy;
    [apply positive_num_true in Hy | apply positive_num_false in Hy]);
  cbn [app].
  all: repeat match goal with
              | |- _ /\ _ => split
              | |- _ <-> _ => split; intro
              | |- forall b : Stage, _ => intros []
              | H : _ /\ _ |- _ => destruct H
              end.
  all: edge_solve.
Qed.

Lemma voice_graph_follows_the_effect_amounts_witness :
  exists v,
    heldVoice (run (playNote 440) (mount 44100 initialSynth)) = Some v
    /\ connected v gainNode_stage reverbNode_stage
    /\ connected v delayGain_stage delayNode_stage
    /\ isolated v distortionNode_stage.
Proof.
  destruct (voice_graph_follows_the_effect_amounts 440 (mount 44100 initialSynth)
              (newAudioContext 44100))
    as (v & Hv & _ & _ & _ & _ & _ & Hdist & Hrev & _ & Hdel & _).
  - apply wellFormed_mount.
  - reflexivity.
  - apply playable_default.
  - exists v. split; [exact Hv|]. split; [|split].
    + apply Hrev. reflexivity.
    + apply Hdel. reflexivity.
    + apply Hdist. discriminate.
Defined.

(** ** The distortion curve *)

Lemma forLoop_S {S : Type} (n : nat) (body : nat -> S -> S) (s : S) :
  forLoop (Datatypes.S n) body s = body n (forLoop n body s).
Proof. unfold forLoop. rewrite seq_S, fold_left_app. reflexivity. Qed.

(** A loop that writes [f i] at every index [i] below [n]. *)
Lemma fill_length {A : Type} (n : nat) (f : nat -> A) (l : list A) :
  length (forLoop n (fun i a => <[ i := f i ]> a) l) = length l.
Proof.
  induction n as [|n IH]; [reflexivity|].
  rewrite forLoop_S, length_insert. exact IH.
Qed.

Lemma fill_lookup {A : Type} (n : nat) (f : nat -> A) (l : list A) (i : nat) :
  (i < n)%nat -> (i < length l)%nat ->
  forLoop n (fun i a => <[ i := f i ]> a) l !! i = Some (f i).
Proof.
  intros Hi Hl. induction n as [|n IH]; [lia|].
  rewrite forLoop_S. destruct (decide (i = n)) as [->|Hne].
  - apply list_lookup_insert_eq. rewrite fill_length. exact Hl.
  - rewrite list_lookup_insert_ne by congruence. apply IH. lia.
Qed.

Lemma distortionCurveOf_spec (samples : nat) (amount : Q) (i : nat) :
  (i < samples)%nat ->
  length (distortionCurveOf samples amount) = samples
  /\ distortionCurveOf samples amount !! i
     = Some (let x := (nat_num i * 2) / nat_num samples - 1 in
             ((3 + amount) * x * 20 * (Math_PI / 180))
             / (Math_PI + amount * Math_abs x)).
Proof.
  intros Hi. unfold distortionCurveOf. split.
  - rewrite fill_length. apply length_replicate.
  - rewrite (fill_lookup samples
               (fun i => let x := (nat_num i * 2) / nat_num samples - 1 in
                         ((3 + amount) * x * 20 * (Math_PI / 180))
                         / (Math_PI + amount * Math_abs x))).
    + reflexivity.
    + exact Hi.
    + rewrite length_replicate. exact Hi.
Qed.

Example distortionCurve_of_four_samples :
  map Qred (distortionCurveOf 4 50)
  = [-9373365021437683 # 26924451398165439;
     -9373365021437683 # 28516154892371838;
     0;
     9373365021437683 # 28516154892371838].
Proof. vm_compute. reflexivity. Qed.

(** C7.  The curve of the distortion stage of a voice built with
    [distortion > 0] is [createDistortionCurve (distortion * 100)]; it has
    44100 samples, and its sample [i] is
    [(3 + k) x 20 (pi/180) / (pi + k |x|)] with [x = 2 i / 44100 - 1] and
    [k = distortion * 100]. *)
Theorem distortion_curve_samples
    (frequency : Q) (s : Synth) (ctx : AudioContext) (i : nat) :
  wellFormed s -> audioContextRef s = Some ctx -> playable (params s) ->
  0 < distortion (effects (params s)) ->
  (i < Z.to_nat 44100)%nat ->
  let amountScaled := distortion (effects (params s)) * 100 in
  let x := 2 * nat_num i / 44100 - 1 in
  exists v c y,
    heldVoice (run (playNote frequency) s) = Some v
    /\ curve (v_distortionNode v) = Some c
    /\ c = createDistortionCurve amountScaled
    /\ length c = Z.to_nat 44100
    /\ c !! i = Some y
    /\ y == (3 + amountScaled) * x * 20 * (Math_PI / 180)
            / (Math_PI + amountScaled * Qabs x).
Proof.
  intros Hwf Hctx Hplay Hpos Hi amountScaled x.
  destruct (playNote_wellFormed frequency s ctx Hwf Hctx Hplay)
    as (v & Hbuild & _ & _ & _ & Hrun).
  destruct (buildVoice_connections _ _ _ _ Hbuild) as (_ & Hcurve & _).
  apply positive_num_true in Hpos. rewrite Hpos in Hcurve. fold amountScaled in Hcurve.
  destruct (distortionCurveOf_spec (Z.to_nat 44100) amountScaled i Hi) as [Hlen Hy].
  eexists (started v), (createDistortionCurve amountScaled), _.
  split.
  { unfold heldVoice, run. rewrite Hrun. cbn.
    set (before := releasedVoices _ _ _ _).
    assert (Hl : length before = length (voices ctx)).
    { unfold before, releasedVoices. destruct (gainNodeRef s); [apply length_alter | reflexivity]. }
    rewrite <- Hl. apply lookup_snoc_last. }
  split; [exact Hcurve|]. split; [reflexivity|].
  split; [exact Hlen|]. split; [exact Hy|].
  cbv zeta. unfold Math_abs.
  assert (Hn : nat_num (Z.to_nat 44100) = 44100).
  { unfold nat_num. rewrite Z2Nat.id by lia. reflexivity. }
  rewrite Hn.
  assert (Hx : nat_num i * 2 / 44100 - 1 == x) by (unfold x; field).
  rewrite Hx. reflexivity.
Qed.

Lemma distortion_curve_samples_witness :
  let s := run (updateParam effects_cat "distortion" (VNum 0.5))
               (mount 44100 initialSynth) in
  exists v c y,
    heldVoice (run (playNote 440) s) = Some v
    /\ curve (v_distortionNode v) = Some c
    /\ c !! 0%nat = Some y
    /\ y == (3 + 0.5 * 100) * (2 * nat_num 0 / 44100 - 1) * 20 * (Math_PI / 180)
            / (Math_PI + 0.5 * 100 * Qabs (2 * nat_num 0 / 44100 - 1)).
Proof.
  intros s.
  destruct (distortion_curve_samples 440 s (newAudioContext 44100) 0)
    as (v & c & y & Hv & Hc & _ & _ & Hy & Hval).
  - apply wellFormed_setParams, wellFormed_mount.
  - reflexivity.
  - repeat split; discriminate.
  - reflexivity.
  - lia.
  - exists v, c, y. repeat split; assumption.
Defined.

(** ** The reverb impulse response *)

Section ImpulseResponse.

Import Reverb.
Local Open Scope R_scope.

Variable random : nat -> R.

Lemma fillChannel_steps (length : nat) (decay : R) (n : nat) (data : list R) (calls : nat) :
  forLoop n
    (fun i st =>
       let '(channelData, calls) := st in
       (<[ i := (random calls * 2 - 1)
                * Math_pow (1 - INR i / INR length) decay ]> channelData,
        S calls))
    (data, calls)
  = (forLoop n (fun i a => <[ i := sampleAt random length decay calls i ]> a) data,
     (calls + n)%nat).
Proof.
  induction n as [|n IH].
  - unfold forLoop. simpl. f_equal. lia.
  - rewrite !forLoop_S, IH. unfold sampleAt, envelopeAt. f_equal. lia.
Qed.

Lemma fillChannel_spec (length : nat) (decay : R) (data : list R) (calls : nat) :
  Datatypes.length data = length ->
  exists data',
    fillChannel random length decay (data, calls) = (data', (calls + length)%nat)
    /\ Datatypes.length data' = length
    /\ forall i, (i < length)%nat -> data' !! i = Some (sampleAt random length decay calls i).
Proof.
  intros Hlen. unfold fillChannel. rewrite fillChannel_steps.
  eexists. split; [reflexivity|]. split.
  - rewrite fill_length. exact Hlen.
  - intros i Hi. apply fill_lookup; [exact Hi | rewrite Hlen; exact Hi].
Qed.

(** [createBuffer] raises exactly when it is asked for no channel or
    for no sample frame. *)
Lemma createBuffer_returns (numberOfChannels length : nat) (rate : positive) :
  (0 < numberOfChannels)%nat -> (0 < length)%nat ->
  createBuffer numberOfChannels length rate
  = Returned {| Reverb.numberOfChannels := numberOfChannels;
                buffer_length := length; buffer_sampleRate := rate;
                channels := replicate numberOfChannels (replicate length 0) |}.
Proof.
  intros Hc Hl. unfold createBuffer.
  destruct (Nat.eqb_spec numberOfChannels 0) as [E|_]; [lia|].
  destruct (Nat.eqb_spec length 0) as [E|_]; [lia|]. reflexivity.
Qed.

Lemma createImpulseResponse_raises (ctx : AudioContext) (decay : R) (calls : nat) :
  createImpulseResponse random (Some ctx) 0 decay calls
  = (Raised "NotSupportedError", calls).
Proof.
  unfold createImpulseResponse. rewrite Nat.mul_0_r. reflexivity.
Qed.

Lemma createImpulseResponse_spec (ctx : AudioContext) (duration : nat) (decay : R)
    (calls : nat) :
  (0 < duration)%nat ->
  let length := (Pos.to_nat (sampleRate ctx) * duration)%nat in
  exists data0 data1,
    createImpulseResponse random (Some ctx) duration decay calls
    = (Returned (Some {| numberOfChannels := 2; buffer_length := length;
                         buffer_sampleRate := sampleRate ctx;
                         channels := [data0; data1] |}),
       (calls + 2 * length)%nat)
    /\ Datatypes.length data0 = length /\ Datatypes.length data1 = length
    /\ (forall i, (i < length)%nat ->
          data0 !! i = Some (sampleAt random length decay calls i)
          /\ data1 !! i = Some (sampleAt random length decay (calls + length) i)).
Proof.
  intros Hduration length. unfold createImpulseResponse. fold length.
  rewrite (createBuffer_returns 2 length (sampleRate ctx)); [|lia|unfold length; lia].
  unfold forLoop at 1. cbn [seq fold_left channels replicate lookup].
  cbn [list_lookup default from_option].
  destruct (fillChannel_spec length decay (replicate length 0) calls)
    as (data0 & H0 & Hl0 & Hs0); [apply length_replicate|].
  unfold Datatypes.id. rewrite H0.
  cbn [insert list_insert lookup list_lookup default from_option]. unfold Datatypes.id.
  destruct (fillChannel_spec length decay (replicate length 0) (calls + length))
    as (data1 & H1 & Hl1 & Hs1); [apply length_replicate|].
  rewrite H1. cbn [insert list_insert].
  exists data0, data1. split.
  - cbn [numberOfChannels buffer_length buffer_sampleRate]. f_equal. lia.
  - repeat split; auto.
Qed.

(** The envelope does not grow along the buffer when the exponent is
    not negative, and falls when the exponent is positive. *)
Lemma envelopeAt_monotone (length : nat) (decay : R) (i j : nat) :
  0 <= decay -> (i <= j < length)%nat ->
  envelopeAt length decay j <= envelopeAt length decay i.
Proof.
  intros Hd [Hij Hj]. unfold envelopeAt, Math_pow.
  assert (Hlen : 0 < INR length) by (apply lt_0_INR; lia).
  assert (Hi' : INR i <= INR j) by (apply le_INR; exact Hij).
  assert (Hj' : INR j < INR length) by (apply lt_INR; exact Hj).
  apply Rle_Rpower_l; [exact Hd|].
  assert (Hdiv : INR j / INR length < 1).
  { apply (Rmult_lt_reg_r (INR length)); [exact Hlen|]. field_simplify; Lra.lra. }
  assert (Hle : INR i / INR length <= INR j / INR length).
  { unfold Rdiv. apply Rmult_le_compat_r; [|exact Hi'].
    apply Rlt_le, Rinv_0_lt_compat, Hlen. }
  Lra.lra.
Qed.

Lemma envelopeAt_decreasing (length : nat) (decay : R) (i j : nat) :
  0 < decay -> (i < j < length)%nat ->
  envelopeAt length decay j < envelopeAt length decay i.
Proof.
  intros Hd [Hij Hj]. unfold envelopeAt, Math_pow.
  assert (Hlen : 0 < INR length) by (apply lt_0_INR; lia).
  assert (Hi' : INR i < INR j) by (apply lt_INR; exact Hij).
  assert (Hj' : INR j < INR length) by (apply lt_INR; exact Hj).
  apply Rlt_Rpower_l; [exact Hd|].
  assert (Hdiv : INR j / INR length < 1).
  { apply (Rmult_lt_reg_r (INR length)); [exact Hlen|]. field_simplify; Lra.lra. }
  assert (Hlt : INR i / INR length < INR j / INR length).
  { unfold Rdiv. apply Rmult_lt_compat_r; [|exact Hi'].
    apply Rinv_0_lt_compat, Hlen. }
  Lra.lra.
Qed.


Lemma Q2R_times_ten (x : Q) : Q2R (x * 10) = Q2R x * 10.
Proof. rewrite Q2R_mult. f_equal. unfold Q2R. simpl. Lra.lra. Qed.

Lemma Q2R_nonneg (x : Q) : (0 <= x)%Q -> 0 <= Q2R x.
Proof. intros H. apply Qle_Rle in H. unfold Q2R at 1 in H. simpl in H. Lra.lra. Qed.

Lemma Q2R_pos (x : Q) : (0 < x)%Q -> 0 < Q2R x.
Proof. intros H. apply Qlt_Rlt in H. unfold Q2R at 1 in H. simpl in H. Lra.lra. Qed.

(** C8.  The buffer that a note-on gives the convolver is
    [createImpulseResponse (2, reverb * 10)]: two channels of
    [2 * sampleRate] samples each.  Sample [i] of a channel is a draw of
    [Math.random] of its own, mapped from [[0, 1)] to [[-1, 1)] by
    [2 r - 1], times the envelope [(1 - i / length) ^ (reverb * 10)].  For
    a reverb amount that is not negative the envelope does not grow with
    [i], and for a positive amount it falls. *)
Theorem reverb_impulse_response
    (frequency : Q) (s : Synth) (ctx : AudioContext) (calls : nat) :
  (forall k, 0 <= random k < 1) ->
  wellFormed s -> audioContextRef s = Some ctx -> playable (params s) ->
  let length := (Pos.to_nat (sampleRate ctx) * 2)%nat in
  let amount := reverb (effects (params s)) in
  let decay := Q2R amount * 10 in
  let draw := fun ch i => (calls + ch * length + i)%nat in
  exists v args buf,
    heldVoice (run (playNote frequency) s) = Some v
    /\ convolver_buffer (v_reverbNode v) = Some args
    /\ impulseOf random ctx args calls
       = (Returned (Some buf), (calls + 2 * length)%nat)
    /\ numberOfChannels buf = 2%nat
    /\ buffer_length buf = length
    /\ Datatypes.length (channels buf) = 2%nat
    /\ (forall ch i, (ch < 2)%nat -> (i < length)%nat ->
          exists data,
            channels buf !! ch = Some data
            /\ Datatypes.length data = length
            /\ data !! i
               = Some ((random (draw ch i) * 2 - 1)
                       * Rpower (1 - INR i / INR length) decay)
            /\ -1 <= random (draw ch i) * 2 - 1 < 1)
    /\ (forall ch i ch' i',
          (ch < 2)%nat -> (ch' < 2)%nat -> (i < length)%nat -> (i' < length)%nat ->
          draw ch i = draw ch' i' -> ch = ch' /\ i = i')
    /\ ((0 <= amount)%Q ->
        forall i j, (i <= j < length)%nat ->
          Rpower (1 - INR j / INR length) decay
          <= Rpower (1 - INR i / INR length) decay)
    /\ ((0 < amount)%Q ->
        forall i j, (i < j < length)%nat ->
          Rpower (1 - INR j / INR length) decay
          < Rpower (1 - INR i / INR length) decay).
Proof.
  intros Hrandom Hwf Hctx Hplay length amount decay draw.
  destruct (playNote_wellFormed frequency s ctx Hwf Hctx Hplay)
    as (v & Hbuild & _ & _ & _ & Hrun).
  destruct (buildVoice_connections _ _ _ _ Hbuild) as (_ & _ & _ & Hbuffer).
  destruct (createImpulseResponse_spec ctx 2 decay calls)
    as (data0 & data1 & Hcreate & Hl0 & Hl1 & Hsamples); [lia|].
  fold length in Hcreate, Hl0, Hl1, Hsamples.
  eexists (started v), _, _.
  split.
  { unfold heldVoice, run. rewrite Hrun. cbn.
    set (before := releasedVoices _ _ _ _).
    assert (Hl : Datatypes.length before = Datatypes.length (voices ctx)).
    { unfold before, releasedVoices. destruct (gainNodeRef s); [apply length_alter | reflexivity]. }
    rewrite <- Hl. apply lookup_snoc_last. }
  split; [exact Hbuffer|].
  split.
  { unfold impulseOf. cbn [impulse_duration impulse_decay].
    fold amount. rewrite Q2R_times_ten. exact Hcreate. }
  cbn [numberOfChannels buffer_length channels].
  split; [reflexivity|]. split; [reflexivity|]. split; [reflexivity|].
  split.
  { intros ch i Hch Hi. destruct (Hsamples i Hi) as [H0 H1].
    assert (Hr := Hrandom (draw ch i)).
    destruct ch as [|[|ch]]; [| |lia].
    - exists data0. split; [reflexivity|]. split; [exact Hl0|].
      split; [|Lra.lra].
      rewrite H0. unfold sampleAt, envelopeAt, Math_pow, draw.
      replace (calls + 0 * length + i)%nat with (calls + i)%nat by lia.
      reflexivity.
    - exists data1. split; [reflexivity|]. split; [exact Hl1|].
      split; [|Lra.lra].
      rewrite H1. unfold sampleAt, envelopeAt, Math_pow, draw.
      replace (calls + 1 * length + i)%nat with (calls + length + i)%nat by lia.
      reflexivity. }
  split.
  { unfold draw. intros ch i ch' i' Hch Hch' Hi Hi' Heq.
    destruct ch as [|[|ch]], ch' as [|[|ch']]; try lia; split; lia. }
  split.
  - intros Hamount i j Hij. apply (envelopeAt_monotone length decay i j); [|exact Hij].
    unfold decay. pose proof (Q2R_nonneg amount Hamount). Lra.lra.
  - intros Hamount i j Hij. apply (envelopeAt_decreasing length decay i j); [|exact Hij].
    unfold decay. pose proof (Q2R_pos amount Hamount). Lra.lra.
Qed.

End ImpulseResponse.

Lemma reverb_impulse_response_witness :
  let random := fun _ : nat => 0%R in
  exists v args buf,
    heldVoice (run (playNote 440) (mount 44100 initialSynth)) = Some v
    /\ convolver_buffer (v_reverbNode v) = Some args
    /\ Reverb.impulseOf random (newAudioContext 44100) args 0
       = (Reverb.Returned (Some buf), (0 + 2 * (Pos.to_nat 44100 * 2))%nat)
    /\ Reverb.numberOfChannels buf = 2%nat.
Proof.
  intros random.
  destruct (reverb_impulse_response random 440 (mount 44100 initialSynth)
              (newAudioContext 44100) 0)
    as (v & args & buf & Hv & Hargs & Hbuf & Hch & _).
  - intros k. unfold random. Lra.lra.
  - apply wellFormed_mount.
  - reflexivity.
  - apply playable_default.
  - exists v, args, buf. repeat split; assumption.
Defined.

(** * Further properties *)

(** ** The knob: its face and its drag *)

(** X1.  For a knob with [min < max] that shows a value of its range, the
    pointer is turned between -135 and +135 degrees: by -135 at [min] and
    by +135 at [max]. *)
Theorem knob_rotation_in_range (p : Knob.Props) :
  Knob.min p < Knob.max p ->
  Knob.min p <= Knob.value p <= Knob.max p ->
  -135 <= KnobView.rotation p <= 135
  /\ (Knob.value p == Knob.min p -> KnobView.rotation p == -135)
  /\ (Knob.value p == Knob.max p -> KnobView.rotation p == 135).
Proof.
  intros Hlt [Hlo Hhi].
  unfold KnobView.rotation, KnobView.normalizedValue.
  set (w := Knob.max p - Knob.min p).
  assert (Hw : 0 < w) by (unfold w; lra).
  assert (Hn0 : 0 <= (Knob.value p - Knob.min p) / w).
  { apply Qle_shift_div_l; [exact Hw | lra]. }
  assert (Hn1 : (Knob.value p - Knob.min p) / w <= 1).
  { apply Qle_shift_div_r; [exact Hw | unfold w; lra]. }
  split; [lra|]. split.
  - intros E. rewrite E. field. lra.
  - intros E. rewrite E. unfold w. field. lra.
Qed.

Lemma knob_rotation_in_range_witness :
  let p := knobProps {| knob_label := "Cutoff";
                        knob_value := fun p => filter_frequency (filter p);
                        knob_min := 20; knob_max := 20000;
                        knob_onChange := fun value =>
                          updateParam filter_cat "frequency" (VNum value) |}
                     defaultParams in
  -135 <= KnobView.rotation p <= 135.
Proof.
  intros p. apply (knob_rotation_in_range p).
  - reflexivity.
  - split; discriminate.
Defined.

Lemma handleMouseMove_full_drag
    (p : Knob.Props) (ks : Knob.State) (clientY : Q) (a b : Z) :
  Knob.isDragging ks = true ->
  ~ Knob.step p == 0 ->
  Knob.min p == inject_Z a * Knob.step p ->
  Knob.max p == inject_Z b * Knob.step p ->
  Knob.min p <= Knob.startValue ks <= Knob.max p ->
  exists v,
    Knob.handleMouseMove p ks clientY = Some v
    /\ (200 <= Knob.startY ks - clientY -> v == Knob.max p)
    /\ (Knob.startY ks - clientY <= -200 -> v == Knob.min p).
Proof.
  intros Hdrag Hstep Hlo Hhi [Hs1 Hs2].
  unfold Knob.handleMouseMove. rewrite Hdrag. cbn [negb].
  eexists. split; [reflexivity|].
  unfold Knob.dragValue.
  set (dy := Knob.startY ks - clientY).
  set (w := Knob.max p - Knob.min p).
  assert (Hw : 0 <= w) by (unfold w; lra).
  split; intros Hdy.
  - assert (Hmove : w <= dy * (w / 200)).
    { assert (H : 0 <= (dy - 200) * (w / 200)).
      { apply Qmult_le_0_compat; [lra|]. apply Qle_shift_div_l; lra. }
      assert (E : dy * (w / 200) == (dy - 200) * (w / 200) + w) by field.
      lra. }
    assert (Hc : Knob.clamp (Knob.min p) (Knob.max p)
                   (Knob.startValue ks + dy * (w / 200)) == Knob.max p).
    { apply clamp_above; unfold w in *; lra. }
    rewrite (Math_round_of_integer _ b).
    + symmetry. exact Hhi.
    + rewrite Hc, Hhi. field. exact Hstep.
  - assert (Hmove : dy * (w / 200) <= - w).
    { assert (H : 0 <= (- dy - 200) * (w / 200)).
      { apply Qmult_le_0_compat; [lra|]. apply Qle_shift_div_l; lra. }
      assert (E : dy * (w / 200) == - ((- dy - 200) * (w / 200)) - w) by field.
      lra. }
    assert (Hc : Knob.clamp (Knob.min p) (Knob.max p)
                   (Knob.startValue ks + dy * (w / 200)) == Knob.min p).
    { apply clamp_below; unfold w in *; lra. }
    rewrite (Math_round_of_integer _ a).
    + symmetry. exact Hlo.
    + rewrite Hc, Hlo. field. exact Hstep.
Qed.


(** X2.  Dragging a knob up by 200 pixels or more from where the mouse
    went down hands [onChange] the [max] of the knob, and dragging down
    by 200 pixels or more its [min], whatever value the drag started
    from in the range (for a range whose ends are multiples of [step]).
    For each of the twelve knobs of the synthesizer, such a drag leaves
    the parameter of the knob at the end of its range. *)
Theorem knob_drag_of_200_pixels_spans_the_range
    (p : Knob.Props) (ks : Knob.State) (clientY : Q) (a b : Z) :
  Knob.isDragging ks = true ->
  ~ Knob.step p == 0 ->
  Knob.min p == inject_Z a * Knob.step p ->
  Knob.max p == inject_Z b * Knob.step p ->
  Knob.min p <= Knob.startValue ks <= Knob.max p ->
  (exists v,
     Knob.handleMouseMove p ks clientY = Some v
     /\ (200 <= Knob.startY ks - clientY -> v == Knob.max p)
     /\ (Knob.startY ks - clientY <= -200 -> v == Knob.min p))
  /\ (forall kb s ks' y,
        In kb synthKnobs -> Knob.isDragging ks' = true ->
        knob_min kb <= Knob.startValue ks' <= knob_max kb ->
        let s' := run (dragKnob kb ks' y) s in
        (200 <= Knob.startY ks' - y -> knob_value kb (params s') == knob_max kb)
        /\ (Knob.startY ks' - y <= -200 -> knob_value kb (params s') == knob_min kb)).
Proof.
  intros Hdrag Hstep Hlo Hhi Hstart.
  split; [exact (handleMouseMove_full_drag p ks clientY a b Hdrag Hstep Hlo Hhi Hstart)|].
  intros kb s ks' y Hkb Hdrag' Hstart' s'.
  destruct (synthKnobs_on_grid kb Hkb) as (Hgmin & Hgmax & _).
  destruct (handleMouseMove_full_drag (knobProps kb (params s)) ks' y _ _
              Hdrag' ltac:(discriminate) Hgmin Hgmax Hstart') as (v & Hv & Hup & Hdown).
  assert (Hs' : knob_value kb (params s') = v).
  { subst s'. unfold run, dragKnob. rewrite Hv.
    apply (synthKnobs_store kb v s Hkb). }
  rewrite Hs'. split; assumption.
Qed.

Lemma knob_drag_of_200_pixels_spans_the_range_witness :
  let p := knobProps {| knob_label := "Resonance";
                        knob_value := fun p => filter_Q (filter p);
                        knob_min := 0.1; knob_max := 30;
                        knob_onChange := fun value =>
                          updateParam filter_cat "Q" (VNum value) |}
                     defaultParams in
  let ks := Knob.handleMouseDown p 300 Knob.initialState in
  exists v, Knob.handleMouseMove p ks 100 = Some v /\ v == 30.
Proof.
  intros p ks.
  destruct (knob_drag_of_200_pixels_spans_the_range p ks 100 10 3000)
    as ((v & Hv & Hup & _) & _).
  - reflexivity.
  - discriminate.
  - reflexivity.
  - reflexivity.
  - split; discriminate.
  - exists v. split; [exact Hv|]. apply Hup. discriminate.
Defined.

(** X3.  For a positive [step] and [min <= max], a mouse that is higher
    on the screen (a smaller [clientY]) never gives a smaller value: what
    a drag hands [onChange] is monotone in the height of the mouse. *)
Theorem knob_drag_is_monotone (p : Knob.Props) (ks : Knob.State) (y1 y2 : Q) :
  Knob.isDragging ks = true ->
  0 < Knob.step p -> Knob.min p <= Knob.max p ->
  y1 <= y2 ->
  exists v1 v2,
    Knob.handleMouseMove p ks y1 = Some v1
    /\ Knob.handleMouseMove p ks y2 = Some v2
    /\ v2 <= v1.
Proof.
  intros Hdrag Hstep Hle Hy.
  unfold Knob.handleMouseMove. rewrite Hdrag. cbn [negb].
  eexists _, _. split; [reflexivity|]. split; [reflexivity|].
  apply Qmult_le_compat_r; [|lra].
  rewrite <- Zle_Qle. apply Math_round_monotone.
  unfold Qdiv. apply Qmult_le_compat_r;
    [|apply Qlt_le_weak, Qinv_lt_0_compat, Hstep].
  unfold Knob.dragValue. apply clamp_monotone.
  assert (Hw : 0 <= (Knob.max p - Knob.min p) / 200).
  { apply Qle_shift_div_l; lra. }
  assert (H : (Knob.startY ks - y2) * ((Knob.max p - Knob.min p) / 200)
              <= (Knob.startY ks - y1) * ((Knob.max p - Knob.min p) / 200)).
  { apply Qmult_le_compat_r; lra. }
  lra.
Qed.

Lemma knob_drag_is_monotone_witness :
  let p := knobProps {| knob_label := "Attack";
                        knob_value := fun p => attack (envelope p);
                        knob_min := 0.01; knob_max := 2;
                        knob_onChange := fun value =>
                          updateParam envelope_cat "attack" (VNum value) |}
                     defaultParams in
  let ks := Knob.handleMouseDown p 300 Knob.initialState in
  exists v1 v2,
    Knob.handleMouseMove p ks 250 = Some v1
    /\ Knob.handleMouseMove p ks 280 = Some v2
    /\ v2 <= v1.
Proof.
  intros p ks. apply (knob_drag_is_monotone p ks 250 280).
  - reflexivity.
  - reflexivity.
  - discriminate.
  - discriminate.
Defined.

(** X4.  A mouse down on a knob followed by a move that stays at the
    same height hands [onChange] the value the knob shows, when that
    value is in the range and a multiple of [step]: the knob does not
    jump when it is grabbed. *)
Theorem knob_grab_keeps_the_value
    (p : Knob.Props) (ks : Knob.State) (clientY : Q) (k : Z) :
  ~ Knob.step p == 0 ->
  Knob.value p == inject_Z k * Knob.step p ->
  Knob.min p <= Knob.value p <= Knob.max p ->
  exists v,
    Knob.handleMouseMove p (Knob.handleMouseDown p clientY ks) clientY = Some v
    /\ v == Knob.value p.
Proof.
  intros Hstep Hgrid Hrange.
  unfold Knob.handleMouseMove, Knob.handleMouseDown. cbn [Knob.isDragging negb].
  eexists. split; [reflexivity|].
  unfold Knob.dragValue. cbn [Knob.startY Knob.startValue].
  assert (Hc : Knob.clamp (Knob.min p) (Knob.max p)
                 (Knob.value p
                  + (clientY - clientY) * ((Knob.max p - Knob.min p) / 200))
               == Knob.value p).
  { rewrite clamp_inside; [field | ].
    assert (E : Knob.value p + (clientY - clientY) * ((Knob.max p - Knob.min p) / 200)
                == Knob.value p) by field.
    lra. }
  rewrite (Math_round_of_integer _ k).
  - symmetry. exact Hgrid.
  - rewrite Hc, Hgrid. field. exact Hstep.
Qed.

Lemma knob_grab_keeps_the_value_witness :
  let p := knobProps {| knob_label := "Decay";
                        knob_value := fun p => decay (envelope p);
                        knob_min := 0.01; knob_max := 2;
                        knob_onChange := fun value =>
                          updateParam envelope_cat "decay" (VNum value) |}
                     defaultParams in
  exists v,
    Knob.handleMouseMove p (Knob.handleMouseDown p 120 Knob.initialState) 120 = Some v
    /\ v == 0.3.
Proof.
  intros p. apply (knob_grab_keeps_the_value p Knob.initialState 120 30).
  - discriminate.
  - reflexivity.
  - split; discriminate.
Defined.

(** ** The presets of the backend *)

Section PresetTable.

Import Convex Presets.

Lemma getPresets_lookup (userId : option string) (db : gmap string Preset)
    (id : string) (p : Preset) :
  getPresets userId db !! id = Some p
  <-> noUser userId = false /\ db !! id = Some p /\ Some (preset_userId p) = userId.
Proof.
  unfold getPresets. destruct (noUser userId).
  - rewrite lookup_empty. split; [discriminate | intros [? _]; discriminate].
  - rewrite map_lookup_filter_Some. cbn. tauto.
Qed.

Lemma getPresets_delete (userId : option string) (db : gmap string Preset) (id : string) :
  getPresets userId (delete id db) = delete id (getPresets userId db).
Proof.
  unfold getPresets. destruct (noUser userId).
  - symmetry. apply delete_empty.
  - apply map_filter_delete.
Qed.

Lemma getPresets_insert_own (uid : string) (db : gmap string Preset)
    (id : string) (p : Preset) :
  noUser (Some uid) = false -> preset_userId p = uid ->
  getPresets (Some uid) (<[ id := p ]> db) = <[ id := p ]> (getPresets (Some uid) db).
Proof.
  intros Hu Hp. unfold getPresets. rewrite Hu.
  apply map_filter_insert_True. cbn. congruence.
Qed.

Lemma getPresets_insert_other (u : option string) (db : gmap string Preset)
    (id : string) (p : Preset) :
  u <> Some (preset_userId p) -> db !! id = None ->
  getPresets u (<[ id := p ]> db) = getPresets u db.
Proof.
  intros Hu Hid. unfold getPresets. destruct (noUser u); [reflexivity|].
  rewrite map_filter_insert. cbn.
  destruct (decide (Some (preset_userId p) = u)) as [E|_]; [congruence|].
  rewrite delete_id; [reflexivity | exact Hid].
Qed.

Lemma getPresets_not_listed (u : option string) (db : gmap string Preset)
    (id : string) (p : Preset) :
  db !! id = Some p -> u <> Some (preset_userId p) -> getPresets u db !! id = None.
Proof.
  intros Hid Hu. destruct (getPresets u db !! id) as [q|] eqn:E; [|reflexivity].
  apply getPresets_lookup in E as (_ & E & Hq). congruence.
Qed.

Lemma savePreset_signed_in (newId : gmap string Preset -> string) (uid : string) (args : SaveArgs) (db : gmap string Preset) :
  noUser (Some uid) = false ->
  savePreset newId (Some uid) args db
  = (Value (newId db), <[ newId db := document args uid ]> db).
Proof. intros Hu. unfold savePreset. rewrite Hu. reflexivity. Qed.

Lemma noUser_false (userId : option string) :
  noUser userId = false -> exists uid, userId = Some uid.
Proof. destruct userId as [uid|]; [eauto | discriminate]. Qed.

Lemma deletePreset_others (u u' : option string) (id : string) (db : gmap string Preset) :
  u' <> u ->
  getPresets u' (snd (deletePreset u id db)) = getPresets u' db.
Proof.
  intros Hne. unfold deletePreset.
  destruct (noUser u); [reflexivity|].
  destruct (db !! id) as [p|] eqn:Hid; [|reflexivity].
  case_bool_decide as Hown; [|reflexivity]. cbn [negb snd].
  rewrite getPresets_delete. apply delete_id.
  eapply getPresets_not_listed; [exact Hid | congruence].
Qed.

Lemma savePreset_others (newId : gmap string Preset -> string) (u u' : option string) (args : SaveArgs) (db : gmap string Preset) :
  u' <> u -> db !! newId db = None ->
  getPresets u' (snd (savePreset newId u args db)) = getPresets u' db.
Proof.
  intros Hne Hfresh. unfold savePreset.
  destruct u as [uid|]; [|reflexivity].
  destruct (noUser (Some uid)); [reflexivity|]. cbn [snd].
  apply getPresets_insert_other; [cbn; congruence | exact Hfresh].
Qed.

(** X5.  A preset that a signed-in user saves is listed for that user
    from then on, under a new id and with the arguments of the call; what
    the user had listed before stays listed, and the list of every other
    user is as it was. *)
Theorem saved_preset_is_listed
    (newId : gmap string Preset -> string)
    (userId : option string) (args : SaveArgs) (db : gmap string Preset) :
  noUser userId = false -> db !! newId db = None ->
  exists id uid,
    userId = Some uid
    /\ fst (savePreset newId userId args db) = Value id
    /\ getPresets userId db !! id = None
    /\ getPresets userId (snd (savePreset newId userId args db))
       = <[ id := document args uid ]> (getPresets userId db)
    /\ (forall other, other <> userId ->
          getPresets other (snd (savePreset newId userId args db))
          = getPresets other db).
Proof.
  intros Hu Hfresh. destruct (noUser_false _ Hu) as [uid ->].
  exists (newId db), uid. rewrite savePreset_signed_in by exact Hu. cbn [fst snd].
  split; [reflexivity|]. split; [reflexivity|]. split.
  - destruct (getPresets (Some uid) db !! newId db) as [q|] eqn:E; [|reflexivity].
    apply getPresets_lookup in E as (_ & E & _). congruence.
  - split.
    + apply getPresets_insert_own; [exact Hu | reflexivity].
    + intros other Hne.
      apply getPresets_insert_other; [cbn; congruence | exact Hfresh].
Qed.

Lemma saved_preset_is_listed_witness :
  let db : gmap string Preset := ∅ in
  let args := {| args_name := "Pad";
                 args_oscillator := oscillator defaultParams;
                 args_filter := filter defaultParams;
                 args_envelope := envelope defaultParams;
                 args_effects := effects defaultParams;
                 args_volume := volume defaultParams |} in
  exists id uid,
    Some "ann" = Some uid
    /\ fst (savePreset (fresh_string "preset") (Some "ann") args db) = Value id
    /\ getPresets (Some "ann") db !! id = None
    /\ getPresets (Some "ann")
         (snd (savePreset (fresh_string "preset") (Some "ann") args db))
       = <[ id := document args uid ]> (getPresets (Some "ann") db)
    /\ (forall other, other <> Some "ann" ->
          getPresets other
            (snd (savePreset (fresh_string "preset") (Some "ann") args db))
          = getPresets other db).
Proof.
  intros db args.
  apply (saved_preset_is_listed (fresh_string "preset") (Some "ann") args db).
  - reflexivity.
  - apply fresh_string_fresh.
Defined.

End PresetTable.

(** X6.  [deletePreset] returns exactly for the presets that [getPresets]
    lists for the caller.  However it ends, the caller then lists what was
    listed before without that preset, and every other user lists what
    was listed before. *)
Theorem delete_succeeds_exactly_on_listed_presets
    (userId : option string) (presetId : string) (db : gmap string Preset) :
  (fst (Convex.deletePreset userId presetId db) = Convex.Returned
   <-> is_Some (Presets.getPresets userId db !! presetId))
  /\ Presets.getPresets userId (snd (Convex.deletePreset userId presetId db))
     = delete presetId (Presets.getPresets userId db)
  /\ (forall other, other <> userId ->
        Presets.getPresets other (snd (Convex.deletePreset userId presetId db))
        = Presets.getPresets other db).
Proof.
  split; [|split].
  - unfold is_Some. setoid_rewrite getPresets_lookup.
    unfold Convex.deletePreset.
    destruct (Convex.noUser userId).
    { cbn. split; [discriminate | intros (? & ? & _); discriminate]. }
    destruct (db !! presetId) as [p|] eqn:Hid.
    + case_bool_decide as Hown; cbn.
      * split; [eauto | reflexivity].
      * split; [discriminate|]. intros (q & _ & E & Hq). congruence.
    + cbn. split; [discriminate|]. intros (q & _ & E & _). discriminate.
  - unfold Convex.deletePreset.
    destruct (Convex.noUser userId) eqn:Hu.
    { cbn [snd]. unfold Presets.getPresets. rewrite Hu. symmetry. apply delete_empty. }
    destruct (db !! presetId) as [p|] eqn:Hid.
    + case_bool_decide as Hown; cbn [negb snd].
      * apply getPresets_delete.
      * symmetry. apply delete_id.
        eapply getPresets_not_listed; [exact Hid | congruence].
    + cbn [snd]. symmetry. apply delete_id.
      destruct (Presets.getPresets userId db !! presetId) as [q|] eqn:E; [|reflexivity].
      apply getPresets_lookup in E as (_ & E & _). congruence.
  - intros other Hne. apply deletePreset_others. exact Hne.
Qed.

(** X7.  Deleting the preset that a save has just returned puts the table
    back as it was before the save. *)
Theorem deleting_a_saved_preset_restores_the_table
    (newId : gmap string Preset -> string)
    (userId : option string) (args : Presets.SaveArgs) (db : gmap string Preset) :
  Convex.noUser userId = false -> db !! newId db = None ->
  exists id,
    fst (Presets.savePreset newId userId args db) = Presets.Value id
    /\ Convex.deletePreset userId id (snd (Presets.savePreset newId userId args db))
       = (Convex.Returned, db).
Proof.
  intros Hu Hfresh. destruct (noUser_false _ Hu) as [uid ->].
  exists (newId db). rewrite savePreset_signed_in by exact Hu. cbn [fst snd].
  split; [reflexivity|].
  unfold Convex.deletePreset. rewrite Hu, lookup_insert_eq.
  rewrite bool_decide_eq_true_2 by reflexivity. cbn [negb].
  rewrite delete_insert_id by exact Hfresh. reflexivity.
Qed.

Lemma deleting_a_saved_preset_restores_the_table_witness :
  let db : gmap string Preset :=
    {[ "p0" := Presets.document
                 {| Presets.args_name := "Lead";
                    Presets.args_oscillator := oscillator defaultParams;
                    Presets.args_filter := filter defaultParams;
                    Presets.args_envelope := envelope defaultParams;
                    Presets.args_effects := effects defaultParams;
                    Presets.args_volume := 1 |} "bob" ]} in
  let args := {| Presets.args_name := "Pad";
                 Presets.args_oscillator := oscillator defaultParams;
                 Presets.args_filter := filter defaultParams;
                 Presets.args_envelope := envelope defaultParams;
                 Presets.args_effects := effects defaultParams;
                 Presets.args_volume := volume defaultParams |} in
  exists id,
    fst (Presets.savePreset (fresh_string "p") (Some "ann") args db) = Presets.Value id
    /\ Convex.deletePreset (Some "ann") id
         (snd (Presets.savePreset (fresh_string "p") (Some "ann") args db))
       = (Convex.Returned, db).
Proof.
  intros db args.
  apply (deleting_a_saved_preset_restores_the_table
           (fresh_string "p") (Some "ann") args db).
  - reflexivity.
  - apply fresh_string_fresh.
Defined.

(** X8.  Whatever presets a caller saves and deletes, with whatever
    arguments and ids and however each call ends, no other user's list of
    presets changes. *)
Theorem mutations_leave_other_users_presets
    (newId : gmap string Preset -> string)
    (userId other : option string) (ms : list Presets.Mutation)
    (db : gmap string Preset) :
  (forall table, table !! newId table = None) ->
  other <> userId ->
  Presets.getPresets other
    (foldl (fun table m => Presets.mutate newId userId m table) db ms)
  = Presets.getPresets other db.
Proof.
  intros Hfresh Hne. revert db.
  induction ms as [|m ms IH]; intros db; [reflexivity|].
  cbn [foldl]. rewrite IH. destruct m as [args|presetId]; cbn [Presets.mutate].
  - apply savePreset_others; [exact Hne | apply Hfresh].
  - apply deletePreset_others. exact Hne.
Qed.

Lemma mutations_leave_other_users_presets_witness :
  let args := {| Presets.args_name := "Pad";
                 Presets.args_oscillator := oscillator defaultParams;
                 Presets.args_filter := filter defaultParams;
                 Presets.args_envelope := envelope defaultParams;
                 Presets.args_effects := effects defaultParams;
                 Presets.args_volume := volume defaultParams |} in
  let db : gmap string Preset := {[ "p0" := Presets.document args "bob" ]} in
  Presets.getPresets (Some "bob")
    (foldl (fun table m => Presets.mutate (fresh_string "p") (Some "ann") m table) db
           [Presets.Delete "p0"; Presets.Save args; Presets.Delete "p0"])
  = Presets.getPresets (Some "bob") db.
Proof.
  intros args db.
  apply (mutations_leave_other_users_presets (fresh_string "p") (Some "ann") (Some "bob")).
  - intros table. apply fresh_string_fresh.
  - discriminate.
Defined.

(** ** Saving and loading on the page *)

Lemma params_eta (p : SynthParams) :
  {| oscillator := oscillator p; filter := filter p; envelope := envelope p;
     effects := effects p; volume := volume p |} = p.
Proof. destruct p; reflexivity. Qed.

(** X9.  A preset saved from the page by a signed-in user, under a name
    that is not blank, is then listed for that user with that name, and
    loading it into any later state of the synthesizer brings back all the
    parameters of the moment of the save, without touching the voices or
    the playing state.  The save clears the name field and leaves the
    synthesizer as it is. *)
Theorem saved_preset_loads_back
    (newId : gmap string Preset -> string) (trim : string -> string)
    (userId : option string) (pg : Presets.Page) (db : gmap string Preset) :
  trim (Presets.presetName pg) <> EmptyString ->
  Convex.noUser userId = false -> db !! newId db = None ->
  let after := Presets.handleSavePreset newId trim userId pg db in
  Presets.presetName (fst after) = EmptyString
  /\ Presets.synth (fst after) = Presets.synth pg
  /\ exists id preset,
       db !! id = None
       /\ Presets.getPresets userId (snd after) !! id = Some preset
       /\ preset_name preset = Presets.presetName pg
       /\ forall s,
            params (run (loadPreset preset) s) = params (Presets.synth pg)
            /\ audioContextRef (run (loadPreset preset) s) = audioContextRef s
            /\ gainNodeRef (run (loadPreset preset) s) = gainNodeRef s
            /\ oscillatorRef (run (loadPreset preset) s) = oscillatorRef s
            /\ filterNodeRef (run (loadPreset preset) s) = filterNodeRef s
            /\ isPlaying (run (loadPreset preset) s) = isPlaying s.
Proof.
  intros Hname Hu Hfresh after. subst after.
  destruct (noUser_false _ Hu) as [uid ->].
  unfold Presets.handleSavePreset.
  apply String.eqb_neq in Hname. rewrite Hname.
  rewrite savePreset_signed_in by exact Hu. cbn [fst snd Presets.presetName Presets.synth].
  split; [reflexivity|]. split; [reflexivity|].
  eexists (newId db), _. split; [exact Hfresh|]. split.
  - apply getPresets_lookup. split; [exact Hu|]. split.
    + apply lookup_insert_eq.
    + reflexivity.
  - split; [reflexivity|]. intros s. cbn.
    split; [apply params_eta | repeat split].
Qed.

Lemma saved_preset_loads_back_witness :
  let pg := {| Presets.presetName := "Pad";
               Presets.synth := run (setVolume 0.8) (mount 44100 initialSynth) |} in
  let after := Presets.handleSavePreset (fresh_string "p") (fun name => name)
                 (Some "ann") pg ∅ in
  exists id preset,
    Presets.getPresets (Some "ann") (snd after) !! id = Some preset
    /\ volume (params (run (loadPreset preset) initialSynth)) = 0.8.
Proof.
  intros pg after.
  destruct (saved_preset_loads_back (fresh_string "p") (fun name => name)
              (Some "ann") pg ∅) as (_ & _ & id & preset & _ & Hlisted & _ & Hload).
  - discriminate.
  - reflexivity.
  - apply fresh_string_fresh.
  - exists id, preset. split; [exact Hlisted|].
    destruct (Hload initialSynth) as [-> _]. reflexivity.
Defined.

(** X10.  With a blank name, or without a signed-in user, the save button
    changes nothing: the table, the name field and the synthesizer stay as
    they are (the error of the mutation is caught). *)
Theorem save_without_name_or_identity_is_void
    (newId : gmap string Preset -> string) (trim : string -> string)
    (userId : option string) (pg : Presets.Page) (db : gmap string Preset) :
  trim (Presets.presetName pg) = EmptyString \/ Convex.noUser userId = true ->
  Presets.handleSavePreset newId trim userId pg db = (pg, db).
Proof.
  intros H. unfold Presets.handleSavePreset.
  destruct (String.eqb_spec (trim (Presets.presetName pg)) EmptyString) as [_|Hname];
    [reflexivity|].
  destruct H as [H|H]; [contradiction|].
  unfold Presets.savePreset. destruct userId as [uid|]; [|reflexivity].
  rewrite H. reflexivity.
Qed.

Lemma save_without_name_or_identity_is_void_witness :
  let pg := {| Presets.presetName := "Pad"; Presets.synth := initialSynth |} in
  Presets.handleSavePreset (fresh_string "p") (fun name => name) None pg ∅ = (pg, ∅).
Proof.
  intros pg.
  apply (save_without_name_or_identity_is_void (fresh_string "p") (fun name => name) None pg ∅).
  right. reflexivity.
Defined.

(** ** Note-off before note-on *)

Lemma Handler_bind_Some {A B : Type} (m : Handler A) (k : A -> Handler B)
    (s s' : Synth) (b : B) :
  (m ≫= k) s = (Some b, s') ->
  exists a s0, m s = (Some a, s0) /\ k a s0 = (Some b, s').
Proof.
  unfold mbind, Handler_bind, bind. destruct (m s) as [[a|] s0]; [eauto | discriminate].
Qed.

Lemma Handler_bind_run {A B : Type} (m : Handler A) (k : A -> Handler B) (s : Synth) :
  (m ≫= k) s = match m s with
               | (Some a, s') => k a s'
               | (None, s') => (None, s')
               end.
Proof. reflexivity. Qed.

Lemma setVoice_Some (i : nat) (v : Voice) (s s' : Synth) :
  setVoice i v s = (Some tt, s') ->
  is_Some (audioContextRef s')
  /\ oscillatorRef s' = oscillatorRef s /\ gainNodeRef s' = gainNodeRef s.
Proof.
  unfold setVoice. destruct (audioContextRef s); [|discriminate].
  unfold setContext. intros [= <-]. cbn. eauto.
Qed.

(** A [stopNote] that has returned leaves nothing for a second one to do. *)
Lemma stopNote_returned (s s1 : Synth) :
  stopNote s = (Some tt, s1) ->
  stopNote s1 = (Some tt, s1)
  /\ (is_Some (audioContextRef s) -> is_Some (audioContextRef s1)).
Proof.
  unfold stopNote at 1.
  destruct (oscillatorRef s) as [o|] eqn:Ho;
    [destruct (gainNodeRef s) as [g|] eqn:Hg;
       [destruct (audioContextRef s) as [ctx|] eqn:Hctx|]|].
  - intros H.
    apply Handler_bind_Some in H as (? & s2 & _ & H).
    apply Handler_bind_Some in H as (value & s3 & _ & H).
    apply Handler_bind_Some in H as (? & s4 & _ & H).
    apply Handler_bind_Some in H as (? & s5 & _ & H).
    apply Handler_bind_Some in H as (? & s6 & Hstop & H).
    apply Handler_bind_Some in H as (? & s7 & Hrefs & H).
    unfold stopOscillator in Hstop.
    apply Handler_bind_Some in Hstop as (v & s5' & _ & Hstop).
    destruct (negative_num _); [discriminate|].
    destruct x2. apply setVoice_Some in Hstop as (Hc & _).
    unfold setRefs in Hrefs. injection Hrefs as _ E7.
    unfold setIsPlaying in H. injection H as E1. subst s7 s1.
    split; [reflexivity|]. intros _. exact Hc.
  - intros [= <-]. unfold stopNote. rewrite Ho, Hg, Hctx. split; [reflexivity | auto].
  - intros [= <-]. unfold stopNote. rewrite Ho, Hg. split; [reflexivity | auto].
  - intros [= <-]. unfold stopNote. rewrite Ho. split; [reflexivity | auto].
Qed.

Lemma stopNote_absorbed (frequency : Q) (s : Synth) :
  (stopNote;; playNote frequency) s = playNote frequency s
  /\ (stopNote;; stopNote) s = stopNote s.
Proof.
  unfold mbind, Handler_bind, bind.
  destruct (stopNote s) as [[[]|] s1] eqn:Hstop.
  - destruct (stopNote_returned s s1 Hstop) as [Hidle Hctx]. split; [|exact Hidle].
    unfold playNote. destruct (audioContextRef s) as [ctx|] eqn:Hc.
    + destruct Hctx as [ctx1 Hc1]; [eauto|]. rewrite Hc1.
      rewrite (Handler_bind_run stopNote _ s1), (Handler_bind_run stopNote _ s).
      rewrite Hidle, Hstop. reflexivity.
    + unfold stopNote in Hstop. rewrite Hc in Hstop.
      destruct (oscillatorRef s), (gainNodeRef s); injection Hstop as <-;
        rewrite Hc; reflexivity.
  - split; [|reflexivity].
    unfold playNote. destruct (audioContextRef s) as [ctx|] eqn:Hc.
    + rewrite (Handler_bind_run stopNote _ s), Hstop. reflexivity.
    + unfold stopNote in Hstop. rewrite Hc in Hstop.
      destruct (oscillatorRef s), (gainNodeRef s); discriminate.
Qed.

(** ** How a note-off ends *)

Lemma onGain_throw (g : nat) (m : AudioParam -> option AudioParam) (s : Synth)
    (ctx : AudioContext) (v : Voice) :
  audioContextRef s = Some ctx -> voices ctx !! g = Some v ->
  m (gain (v_gainNode v)) = None ->
  onGain g m s = (None, s).
Proof.
  intros Hctx Hv Hm.
  unfold onGain, mbind, Handler_bind, bind, voiceAt.
  rewrite Hctx, Hv, Hm. reflexivity.
Qed.

(** The state after a note-off that returned, and after one that the
    ramp ended with a [RangeError]; [p] is the gain timeline it leaves. *)
Lemma stopNote_cases (s : Synth) (ctx : AudioContext) (g : nat) (vg : Voice) :
  audioContextRef s = Some ctx ->
  oscillatorRef s = Some g -> gainNodeRef s = Some g ->
  voices ctx !! g = Some vg ->
  0 <= currentTime ctx ->
  let stopTime := currentTime ctx + release (envelope (params s)) in
  exists p,
    (0 <= stopTime /\
     stopNote s =
     (Some tt,
      {| params := params s; isPlaying := false;
         audioContextRef :=
           Some (withVoices ctx
                   (<[ g := withOscillator (withGain vg p)
                              (withStopTime (v_oscillator vg) stopTime) ]>
                      (voices ctx)));
         oscillatorRef := None; gainNodeRef := None; filterNodeRef := None |}))
    \/ (stopTime < 0 /\
        stopNote s =
        (None,
         {| params := params s; isPlaying := isPlaying s;
            audioContextRef :=
              Some (withVoices ctx (<[ g := withGain vg p ]> (voices ctx)));
            oscillatorRef := Some g; gainNodeRef := Some g;
            filterNodeRef := filterNodeRef s |})).
Proof.
  intros Hctx Ho Hg Hvg Hnow stopTime.
  pose proof (lookup_lt_Some _ _ _ Hvg) as Hlt.
  set (now := currentTime ctx) in *.
  assert (Hcancel : cancelScheduledValues now (gain (v_gainNode vg))
                    = Some {| param_value := param_value (gain (v_gainNode vg));
                              param_events :=
                                List.filter (fun e => negb (Qle_bool now (eventTime e)))
                                  (param_events (gain (v_gainNode vg))) |}).
  { unfold cancelScheduledValues. rewrite negative_num_false by exact Hnow. reflexivity. }
  set (p1 := {| param_value := param_value (gain (v_gainNode vg)); param_events := _ |})
    in Hcancel.
  assert (Hset : setValueAtTime (param_value p1) now p1
                 = Some {| param_value := param_value p1;
                           param_events :=
                             insertEvent (SetValue (param_value p1) now) (param_events p1) |}).
  { unfold setValueAtTime. rewrite negative_num_false by exact Hnow. reflexivity. }
  set (p2 := {| param_value := param_value p1; param_events := insertEvent _ _ |}) in Hset.
  assert (Hrun : stopNote s =
            match linearRampToValueAtTime 0 stopTime now p2 with
            | Some p3 =>
                (Some tt,
                 {| params := params s; isPlaying := false;
                    audioContextRef :=
                      Some (withVoices ctx
                              (<[ g := withOscillator (withGain vg p3)
                                         (withStopTime (v_oscillator vg) stopTime) ]>
                                 (voices ctx)));
                    oscillatorRef := None; gainNodeRef := None; filterNodeRef := None |})
            | None =>
                (None,
                 {| params := params s; isPlaying := isPlaying s;
                    audioContextRef :=
                      Some (withVoices ctx (<[ g := withGain vg p2 ]> (voices ctx)));
                    oscillatorRef := Some g; gainNodeRef := Some g;
                    filterNodeRef := filterNodeRef s |})
            end).
  { unfold stopNote. rewrite Ho, Hg, Hctx. fold now. fold stopTime.
    rewrite Handler_bind_run.
    rewrite (onGain_run g _ s ctx vg p1 Hctx Hvg Hcancel). cbv beta iota.
    rewrite Handler_bind_run.
    unfold gainValue. rewrite Handler_bind_run. unfold voiceAt at 1.
    cbn [audioContextRef withVoices voices].
    rewrite list_lookup_insert_eq by exact Hlt.
    cbn [mret Handler_ret ret withGain v_gainNode gain]. cbv beta iota.
    rewrite Handler_bind_run.
    erewrite onGain_run;
      [| reflexivity
       | cbn [withVoices voices]; apply list_lookup_insert_eq; exact Hlt
       | cbn [withGain v_gainNode gain]; exact Hset ].
    cbv beta iota.
    rewrite Handler_bind_run.
    cbn [withVoices voices]. rewrite list_insert_insert_eq.
    destruct (linearRampToValueAtTime 0 stopTime now p2) as [p3|] eqn:Hramp.
    - assert (Hpos : 0 <= stopTime).
      { unfold linearRampToValueAtTime in Hramp.
        destruct (negative_num stopTime) eqn:E; [discriminate|].
        unfold negative_num in E. destruct (Qle_bool 0 stopTime) eqn:E'; [|discriminate].
        apply Qle_bool_iff in E'. exact E'. }
      erewrite onGain_run;
        [| reflexivity
         | cbn [withVoices voices]; apply list_lookup_insert_eq; exact Hlt
         | cbn [withGain v_gainNode gain]; exact Hramp ].
      cbv beta iota.
      rewrite Handler_bind_run.
      unfold stopOscillator. rewrite Handler_bind_run. unfold voiceAt.
      cbn [audioContextRef withVoices voices].
      rewrite list_lookup_insert_eq by (rewrite !length_insert; exact Hlt).
      rewrite (negative_num_false stopTime) by exact Hpos.
      unfold setVoice. cbn [audioContextRef]. unfold setContext, setRefs, setIsPlaying.
      cbn. rewrite !list_insert_insert_eq. reflexivity.
    - erewrite onGain_throw;
        [| reflexivity
         | cbn [withVoices voices]; apply list_lookup_insert_eq; exact Hlt
         | cbn [withGain v_gainNode gain]; exact Hramp ].
      cbn. rewrite Ho, Hg. reflexivity. }
  rewrite Hrun.
  destruct (linearRampToValueAtTime 0 stopTime now p2) as [p3|] eqn:Hramp.
  - exists p3. left. split; [|reflexivity].
    unfold linearRampToValueAtTime in Hramp.
    destruct (negative_num stopTime) eqn:E; [discriminate|].
    unfold negative_num in E. destruct (Qle_bool 0 stopTime) eqn:E'; [|discriminate].
    apply Qle_bool_iff in E'. exact E'.
  - exists p2. right. split; [|reflexivity].
    unfold linearRampToValueAtTime in Hramp.
    destruct (negative_num stopTime) eqn:E; [|discriminate].
    unfold negative_num in E. destruct (Qle_bool 0 stopTime) eqn:E'; [discriminate|].
    apply Qle_bool_false_lt in E'. exact E'.
Qed.

(** ** The settings of a voice *)

Lemma buildVoice_settings (p : SynthParams) (frequency now : Q) (v : Voice) :
  buildVoice p frequency now = Some v ->
  let at_now := fun d x => {| param_value := d; param_events := [SetValue x now] |} in
  0 <= now
  /\ oscillator_frequency (v_oscillator v) = at_now 440 frequency
  /\ oscillator_detune (v_oscillator v) = at_now 0 (osc_detune (oscillator p))
  /\ biquad_frequency (v_filterNode v) = at_now 350 (filter_frequency (filter p))
  /\ biquad_Q (v_filterNode v) = at_now 1 (filter_Q (filter p))
  /\ delayTime (v_delayNode v) = at_now 0 0.3
  /\ gain (v_delayGain v) = at_now 1 (delay (effects p))
  /\ gain (v_masterGain v) = at_now 1 (volume p)
  /\ assignOscillatorType (osc_type (oscillator p)) "sine"
     = Some (oscillator_type (v_oscillator v))
  /\ biquad_type (v_filterNode v) = assignBiquadType (filter_type (filter p)) "lowpass"
  /\ oscillator_started (v_oscillator v) = false
  /\ oscillator_stopTime (v_oscillator v) = None.
Proof.
  unfold buildVoice. intros H.
  apply bind_Some in H as (oscType & HoscType & H).
  assert (Hnow : 0 <= now).
  { apply bind_Some in H as (x & Hx & H). unfold setValueAtTime in Hx.
    unfold negative_num in Hx. destruct (Qle_bool 0 now) eqn:E; [|discriminate].
    apply Qle_bool_iff in E. exact E. }
  unfold setValueAtTime in H. rewrite (negative_num_false now Hnow) in H.
  cbn [mbind option_bind newParam param_value param_events insertEvent] in H.
  repeat match type of H with
         | (_ ≫= _) = Some _ => apply bind_Some in H as (? & _ & H)
         end.
  injection H as <-. cbn. repeat split; auto.
Qed.

Lemma valueAtTime_set (d x now t : Q) :
  now <= t ->
  valueAtTime {| param_value := d; param_events := [SetValue x now] |} t = x.
Proof.
  intros H. unfold valueAtTime. cbn. rewrite Qle_bool_true by exact H. reflexivity.
Qed.

Lemma existsb_eqb_elem_of (x : string) (l : list string) :
  existsb (String.eqb x) l = bool_decide (x ∈ l).
Proof.
  induction l as [|y l IH]; cbn [existsb].
  - symmetry. apply bool_decide_eq_false. set_solver.
  - destruct (String.eqb_spec x y) as [->|Hne]; cbn [orb].
    + symmetry. apply bool_decide_eq_true. set_solver.
    + rewrite IH. apply bool_decide_ext. rewrite elem_of_cons.
      split; [auto | intros [?|?]; [contradiction | assumption]].
Qed.

(** X11.  The voice that a note-on builds takes its pitch from the
    argument of [playNote] and everything else from the parameters: from
    the note-on onwards its oscillator runs at the given frequency with
    the detune of the parameters, its filter has their cutoff and
    resonance, the delay is 0.3 s with their delay amount as feedback gain,
    and the master gain is their volume.  A waveform or a filter type that
    the node does not know leaves the node at its default, a sine and a
    lowpass. *)
Theorem voice_takes_pitch_from_the_key_and_the_rest_from_the_parameters
    (frequency : Q) (s : Synth) (ctx : AudioContext) :
  wellFormed s -> audioContextRef s = Some ctx -> playable (params s) ->
  let p := params s in
  exists v,
    heldVoice (run (playNote frequency) s) = Some v
    /\ (forall t, currentTime ctx <= t ->
          valueAtTime (oscillator_frequency (v_oscillator v)) t = frequency
          /\ valueAtTime (oscillator_detune (v_oscillator v)) t = osc_detune (oscillator p)
          /\ valueAtTime (biquad_frequency (v_filterNode v)) t = filter_frequency (filter p)
          /\ valueAtTime (biquad_Q (v_filterNode v)) t = filter_Q (filter p)
          /\ valueAtTime (delayTime (v_delayNode v)) t = 0.3
          /\ valueAtTime (gain (v_delayGain v)) t = delay (effects p)
          /\ valueAtTime (gain (v_masterGain v)) t = volume p)
    /\ oscillator_type (v_oscillator v)
       = (if bool_decide (osc_type (oscillator p) ∈ oscillatorTypes)
          then osc_type (oscillator p) else "sine")
    /\ biquad_type (v_filterNode v)
       = (if bool_decide (filter_type (filter p) ∈ biquadFilterTypes)
          then filter_type (filter p) else "lowpass").
Proof.
  intros Hwf Hctx Hplay p.
  destruct (playNote_heldVoice frequency s ctx Hwf Hctx Hplay) as (v & Hbuild & Hheld).
  exists (started v). split; [exact Hheld|].
  destruct (buildVoice_settings _ _ _ _ Hbuild)
    as (_ & Hf & Hd & Hc & Hq & Hdt & Hdg & Hm & Hot & Hft & _).
  cbn [started withOscillator withStarted v_oscillator v_filterNode v_delayNode
       v_delayGain v_masterGain oscillator_frequency oscillator_detune oscillator_type].
  fold p in Hd, Hc, Hq, Hdg, Hm, Hot, Hft.
  split; [|split].
  - intros t Ht. rewrite Hf, Hd, Hc, Hq, Hdt, Hdg, Hm.
    rewrite !valueAtTime_set by exact Ht. repeat split.
  - unfold assignOscillatorType in Hot.
    destruct (String.eqb (osc_type (oscillator p)) "custom"); [discriminate|].
    rewrite existsb_eqb_elem_of in Hot. destruct (bool_decide _); congruence.
  - rewrite Hft. unfold assignBiquadType.
    rewrite existsb_eqb_elem_of. reflexivity.
Qed.

Lemma voice_takes_pitch_from_the_key_and_the_rest_from_the_parameters_witness :
  let s := run (updateParam oscillator_cat "type" (VStr "organ"))
               (mount 44100 initialSynth) in
  exists v,
    heldVoice (run (playNote 261.63) s) = Some v
    /\ valueAtTime (oscillator_frequency (v_oscillator v)) 1 = 261.63
    /\ oscillator_type (v_oscillator v) = "sine".
Proof.
  intros s.
  destruct (voice_takes_pitch_from_the_key_and_the_rest_from_the_parameters
              261.63 s (newAudioContext 44100)) as (v & Hv & Ht & Hty & _).
  - apply wellFormed_setParams, wellFormed_mount.
  - reflexivity.
  - repeat split; discriminate.
  - exists v. split; [exact Hv|]. split.
    + apply Ht. discriminate.
    + exact Hty.
Defined.

(** ** The level of the envelope *)

Lemma envelope_bounded (p : SynthParams) (v0 t0 t : Q) :
  0 <= volume p -> 0 <= sustain (envelope p) <= 1 -> t0 <= t ->
  let level := valueAtTime {| param_value := v0; param_events := envelopeEvents p t0 |} t in
  0 <= level <= volume p.
Proof.
  intros Hvol [Hs0 Hs1] Ht level. subst level.
  unfold valueAtTime, envelopeEvents.
  cbn [param_value param_events timelineValue].
  set (a := attack (envelope p)). set (d := decay (envelope p)).
  set (vol := volume p) in *. set (sus := sustain (envelope p)) in *.
  rewrite (Qle_bool_true t0 t) by exact Ht.
  assert (Hvs : 0 <= vol * sus) by (apply Qmult_le_0_compat; assumption).
  assert (Hvs' : vol * sus <= vol).
  { assert (H : 0 <= vol * (1 - sus)) by (apply Qmult_le_0_compat; lra).
    assert (E : vol * (1 - sus) == vol - vol * sus) by ring. lra. }
  destruct (Qle_bool (t0 + a) t) eqn:Ea.
  - apply Qle_bool_iff in Ea.
    destruct (Qle_bool (t0 + a + d) t) eqn:Ed.
    + split; assumption.
    + apply Qle_bool_false_lt in Ed.
      assert (Hd : 0 < d) by lra.
      set (r := (t - (t0 + a)) / (t0 + a + d - (t0 + a))).
      assert (Hr : 0 <= r <= 1).
      { unfold r. split.
        - apply Qle_shift_div_l; lra.
        - apply Qle_shift_div_r; lra. }
      assert (H1 : 0 <= (vol - vol * sus) * r) by (apply Qmult_le_0_compat; lra).
      assert (H2 : 0 <= (vol - vol * sus) * (1 - r)) by (apply Qmult_le_0_compat; lra).
      assert (E1 : vol + (vol * sus - vol) * r == vol - (vol - vol * sus) * r) by ring.
      assert (E2 : vol + (vol * sus - vol) * r == vol * sus + (vol - vol * sus) * (1 - r))
        by ring.
      split; lra.
  - apply Qle_bool_false_lt in Ea.
    assert (Ha : 0 < a) by lra.
    set (r := (t - t0) / (t0 + a - t0)).
    assert (Hr : 0 <= r <= 1).
    { unfold r. split.
      - apply Qle_shift_div_l; lra.
      - apply Qle_shift_div_r; lra. }
    assert (H1 : 0 <= vol * r) by (apply Qmult_le_0_compat; lra).
    assert (H2 : 0 <= vol * (1 - r)) by (apply Qmult_le_0_compat; lra).
    assert (E1 : 0 + (vol - 0) * r == vol * r) by ring.
    assert (E2 : vol * (1 - r) == vol - vol * r) by ring.
    split; lra.
Qed.

Lemma release_ramp_bounded (slot now r t level : Q) :
  0 <= slot -> 0 < r -> now <= t ->
  (now <= t <= now + r -> level == slot * (1 - (t - now) / r)) ->
  (now + r <= t -> level == 0) ->
  0 <= level <= slot.
Proof.
  intros Hslot Hr Ht Hramp Hzero.
  destruct (Qlt_le_dec t (now + r)) as [Hin|Hout].
  - rewrite Hramp by lra.
    set (q := (t - now) / r).
    assert (Hq : 0 <= q <= 1).
    { unfold q. split.
      - apply Qle_shift_div_l; lra.
      - apply Qle_shift_div_r; lra. }
    assert (H1 : 0 <= slot * (1 - q)) by (apply Qmult_le_0_compat; lra).
    assert (H2 : 0 <= slot * q) by (apply Qmult_le_0_compat; lra).
    assert (E2 : slot * (1 - q) == slot - slot * q) by ring.
    split; lra.
  - rewrite Hzero by exact Hout. lra.
Qed.

(** X12.  With a volume that is not negative and a sustain level between
    0 and 1, the envelope that a note-on schedules keeps the gain of the
    voice between 0 and the volume, from the note-on onwards.  A note-off
    that follows rendering up to a later time [t1] lets it fall from the
    level it has at [t1] to silence, so it stays within the volume.  A
    note-off that comes before anything has been rendered since the
    note-on starts from the slot of the new gain node instead, which holds
    1: the gain is then 1 at the note-off, whatever the volume, and falls
    to silence from there. *)
Theorem envelope_gain_stays_within_the_volume_once_rendered
    (frequency : Q) (s : Synth) (ctx : AudioContext) :
  wellFormed s -> audioContextRef s = Some ctx -> playable (params s) ->
  0 <= volume (params s) -> 0 <= sustain (envelope (params s)) <= 1 ->
  0 < release (envelope (params s)) ->
  let s' := run (playNote frequency) s in
  let g := length (voices ctx) in
  let now := currentTime ctx in
  exists v,
    heldVoice s' = Some v
    /\ (forall t, now <= t ->
          0 <= valueAtTime (gain (v_gainNode v)) t <= volume (params s))
    /\ (forall t1, now < t1 ->
        exists v',
          voicesOf (run stopNote (render t1 s')) !! g = Some v'
          /\ (forall t, t1 <= t ->
                0 <= valueAtTime (gain (v_gainNode v')) t
                  <= valueAtTime (gain (v_gainNode v)) t1
                /\ valueAtTime (gain (v_gainNode v)) t1 <= volume (params s)))
    /\ (exists v',
          voicesOf (run stopNote s') !! g = Some v'
          /\ valueAtTime (gain (v_gainNode v')) now == 1
          /\ (forall t, now <= t -> 0 <= valueAtTime (gain (v_gainNode v')) t <= 1)).
Proof.
  intros Hwf Hctx Hplay Hvol Hsus Hrel s' g now.
  destruct (playNote_wellFormed frequency s ctx Hwf Hctx Hplay)
    as (v & Hbuild & Hgain & _ & _ & Hrun).
  set (before := releasedVoices _ _ _ _) in Hrun.
  assert (Hlen : length before = length (voices ctx)).
  { unfold before, releasedVoices. destruct (gainNodeRef s); [apply length_alter | reflexivity]. }
  assert (Hs' : s' = snd (playNote frequency s)) by reflexivity.
  rewrite Hrun in Hs'. cbn [snd] in Hs'.
  assert (Hbound : forall t, now <= t ->
            0 <= valueAtTime (gain (v_gainNode (started v))) t <= volume (params s)).
  { intros t Ht. cbn [started withOscillator v_gainNode]. rewrite Hgain.
    apply envelope_bounded; assumption. }
  destruct Hwf as (ctx0 & Hctx0 & Hnow & _).
  assert (ctx0 = ctx) by congruence. subst ctx0.
  assert (Hlk : (before ++ [started v]) !! g = Some (started v)).
  { unfold g. rewrite <- Hlen. apply lookup_snoc_last. }
  assert (Hp' : params s' = params s) by (rewrite Hs'; reflexivity).
  exists (started v).
  split; [rewrite Hs'; unfold heldVoice; cbn; exact Hlk|].
  split; [exact Hbound|].
  split.
  - intros t1 Ht1.
    destruct (stopNote_pins_the_slot (render t1 s')
                {| currentTime := t1; sampleRate := sampleRate ctx;
                   voices := map (renderVoice t1) (before ++ [started v]) |}
                g (renderVoice t1 (started v)))
      as (v' & Hv' & _ & Hramp & Hzero & _).
    + rewrite Hs'. unfold render. cbn [audioContextRef fmap option_fmap option_map].
      rewrite renderContext_advance by exact Ht1. reflexivity.
    + rewrite Hs'. unfold g. reflexivity.
    + rewrite Hs'. unfold g. reflexivity.
    + cbn [voices]. rewrite list_lookup_fmap, Hlk. reflexivity.
    + cbn [currentTime]. fold now in Hnow. lra.
    + cbn [render params]. rewrite Hp'. exact Hrel.
    + exists v'. split; [exact Hv'|]. intros t Ht.
      cbn [currentTime renderVoice v_gainNode gain renderParam param_value
           render params] in Hramp, Hzero.
      rewrite Hp' in Hramp, Hzero.
      assert (Hlevel := Hbound t1 (Qlt_le_weak _ _ Ht1)).
      split; [|apply Hlevel].
      apply (release_ramp_bounded _ t1 (release (envelope (params s))) t);
        [apply Hlevel | exact Hrel | exact Ht | apply Hramp | apply Hzero].
  - destruct (stopNote_pins_the_slot s' (withVoices ctx (before ++ [started v]))
                g (started v))
      as (v' & Hv' & _ & Hramp & Hzero & _).
    + rewrite Hs'. reflexivity.
    + rewrite Hs'. unfold g. reflexivity.
    + rewrite Hs'. unfold g. reflexivity.
    + exact Hlk.
    + exact Hnow.
    + rewrite Hp'. exact Hrel.
    + cbn [currentTime withVoices started withOscillator v_gainNode] in Hramp, Hzero.
      rewrite Hgain, Hp' in Hramp. rewrite Hp' in Hzero.
      cbn [param_value] in Hramp. fold now in Hramp, Hzero.
      exists v'. split; [exact Hv'|]. split.
      * rewrite Hramp by lra. field. lra.
      * intros t Ht.
        apply (release_ramp_bounded 1 now (release (envelope (params s))) t);
          [lra | exact Hrel | exact Ht | apply Hramp | apply Hzero].
Qed.

Lemma envelope_gain_stays_within_the_volume_once_rendered_witness :
  let s := mount 44100 initialSynth in
  exists v v',
    heldVoice (run (playNote 440) s) = Some v
    /\ (forall t, 0 <= t -> 0 <= valueAtTime (gain (v_gainNode v)) t <= 0.5)
    /\ voicesOf (run stopNote (render 0.2 (run (playNote 440) s))) !! 0%nat = Some v'
    /\ (forall t, 0.2 <= t ->
          0 <= valueAtTime (gain (v_gainNode v')) t
            <= valueAtTime (gain (v_gainNode v)) 0.2).
Proof.
  intros s.
  destruct (envelope_gain_stays_within_the_volume_once_rendered
              440 s (newAudioContext 44100)) as (v & Hv & Hheld & Hrendered & _).
  - apply wellFormed_mount.
  - reflexivity.
  - apply playable_default.
  - discriminate.
  - split; discriminate.
  - reflexivity.
  - destruct (Hrendered 0.2) as (v' & Hv' & Hfall); [reflexivity|].
    exists v, v'. split; [exact Hv|]. split; [exact Hheld|]. split; [exact Hv'|].
    intros t Ht. apply (Hfall t Ht).
Defined.

(** ** Paths in the graph of a voice *)

(** X13.  In the graph of a voice the only loop is the feedback of the
    delay: a stage leads back to itself exactly when [delay > 0] and the
    stage is the delay node or its feedback gain.  And the graph has no
    dead end: whatever a connection leads to is the destination or leads
    on to it. *)
Theorem delay_feedback_is_the_only_loop
    (p : SynthParams) (frequency now : Q) (v : Voice) :
  buildVoice p frequency now = Some v ->
  (forall a, reaches 9 (v_connections v) a a = true
             <-> 0 < delay (effects p) /\ (a = delayNode_stage \/ a = delayGain_stage))
  /\ (forall a b, connected v a b ->
        b = destination \/ reaches 9 (v_connections v) b destination = true).
Proof.
  intros Hbuild.
  destruct (buildVoice_connections _ _ _ _ Hbuild) as (Hconn & _).
  unfold connected. rewrite Hconn. clear Hconn Hbuild.
  destruct (positive_num (distortion (effects p)));
  destruct (positive_num (reverb (effects p)));
  (destruct (positive_num (delay (effects p))) eqn:Hy;
    [apply positive_num_true in Hy | apply positive_num_false in Hy]);
  cbn [app].
  all: split;
    [ intros a; split;
      [ intros H; destruct a; vm_compute in H; try discriminate H;
        (split; [assumption | auto])
      | intros [Hpos [E|E]]; subst a; first [exfalso; lra | vm_compute; reflexivity] ]
    | intros a b H; apply list_elem_of_In in H; cbn [In] in H;
      repeat (destruct H as [H|H];
              [injection H as <- <-;
               first [left; reflexivity | right; vm_compute; reflexivity] | ]);
      contradiction ].
Qed.

Lemma delay_feedback_is_the_only_loop_witness :
  exists v,
    buildVoice defaultParams 440 0 = Some v
    /\ reaches 9 (v_connections v) delayNode_stage delayNode_stage = true
    /\ ~ reaches 9 (v_connections v) gainNode_stage gainNode_stage = true.
Proof.
  eexists. split; [reflexivity|].
  destruct (delay_feedback_is_the_only_loop defaultParams 440 0 _ eq_refl) as [Hloop _].
  split.
  - apply Hloop. split; [reflexivity | left; reflexivity].
  - intros H. apply Hloop in H as [_ [E|E]]; discriminate E.
Defined.

(** ** What holds in every state of the component *)

Lemma is_Some_None_false {A : Type} : is_Some (@None A) <-> False.
Proof. split; [intros [x Hx]; discriminate | contradiction]. Qed.

Lemma tidy_stopNote (s : Synth) :
  wellFormed s -> tidy s ->
  tidy (run stopNote s)
  /\ (fst (stopNote s) = Some tt -> gainNodeRef (run stopNote s) = None).
Proof.
  intros (ctx & Hctx & Hnow & Hog & Hbound) (Hf & Hflag & Hvoices).
  unfold voicesOf in Hvoices. rewrite Hctx in Hvoices.
  destruct (gainNodeRef s) as [g|] eqn:Hg.
  - destruct (lookup_lt_is_Some_2 (voices ctx) g (Hbound g eq_refl)) as [vg Hvg].
    destruct (stopNote_cases s ctx g vg Hctx Hog Hg Hvg Hnow)
      as [p [[_ Hrun]|[_ Hrun]]]; unfold run; rewrite Hrun; cbn [fst snd].
    + split; [|reflexivity].
      split; [reflexivity|]. split.
      { cbn. rewrite is_Some_None_false. split; [discriminate | contradiction]. }
      intros i v. cbn [voicesOf audioContextRef withVoices voices gainNodeRef].
      intros Hi. apply list_lookup_insert_Some in Hi as [(<- & <- & _)|(Hne & Hi)].
      * destruct (Hvoices g vg Hvg) as (Hw & Hs & _).
        split; [exact Hw|]. split; [exact Hs|].
        cbn. split; discriminate.
      * destruct (Hvoices i v Hi) as (Hw & Hs & Hstop).
        split; [exact Hw|]. split; [exact Hs|].
        split; [|discriminate]. intros E. apply Hstop in E. congruence.
    + split; [|discriminate].
      split; [exact Hf|]. split.
      { cbn. rewrite Hflag. reflexivity. }
      intros i v. cbn [voicesOf audioContextRef withVoices voices gainNodeRef].
      intros Hi. apply list_lookup_insert_Some in Hi as [(<- & <- & _)|(Hne & Hi)].
      * destruct (Hvoices g vg Hvg) as (Hw & Hs & Hstop).
        split; [exact Hw|]. split; [exact Hs|]. exact Hstop.
      * apply (Hvoices i v Hi).
  - unfold run. rewrite (stopNote_idle s Hog). cbn [fst snd].
    split; [|intros _; exact Hg].
    unfold tidy, voicesOf. rewrite Hctx, Hg.
    split; [exact Hf|]. split; [exact Hflag|]. exact Hvoices.
Qed.

Lemma playNote_stop_threw (frequency : Q) (s s1 : Synth) (ctx : AudioContext) :
  audioContextRef s = Some ctx -> stopNote s = (None, s1) ->
  playNote frequency s = (None, s1).
Proof.
  intros Hctx Hstop. unfold playNote. rewrite Hctx, Handler_bind_run, Hstop. reflexivity.
Qed.

Lemma playNote_build_threw (frequency : Q) (s s1 : Synth) (ctx ctx1 : AudioContext) :
  audioContextRef s = Some ctx -> stopNote s = (Some tt, s1) ->
  audioContextRef s1 = Some ctx1 ->
  buildVoice (params s1) frequency (currentTime ctx1) = None ->
  playNote frequency s = (None, s1).
Proof.
  intros Hctx Hstop Hctx1 Hbuild.
  unfold playNote. rewrite Hctx, Handler_bind_run, Hstop. cbv beta iota.
  rewrite Handler_bind_run. unfold getState. cbv beta iota.
  rewrite Hctx1, Hbuild. reflexivity.
Qed.

Lemma tidy_playNote (frequency : Q) (s : Synth) :
  wellFormed s -> tidy s -> tidy (run (playNote frequency) s).
Proof.
  intros Hwf Htidy.
  destruct (tidy_stopNote s Hwf Htidy) as [Htidy1 Hidle].
  pose proof (wellFormed_stopNote s Hwf) as Hwf1.
  destruct Hwf as (ctx & Hctx & _).
  unfold run in *.
  destruct (stopNote s) as [[[]|] s1] eqn:Hstop; cbn [fst snd] in *.
  - destruct Hwf1 as (ctx1 & Hctx1 & _).
    destruct (buildVoice (params s1) frequency (currentTime ctx1)) as [v|] eqn:Hbuild.
    + rewrite (playNote_after_stop frequency s s1 ctx ctx1 v Hctx Hstop Hctx1 Hbuild).
      cbn [snd]. destruct Htidy1 as (_ & _ & Hvoices).
      unfold voicesOf in Hvoices. rewrite Hctx1, (Hidle eq_refl) in Hvoices.
      split; [reflexivity|]. split.
      { cbn. split; eauto. }
      intros i w. cbn [voicesOf audioContextRef withVoices voices gainNodeRef].
      intros Hi. apply lookup_app_Some in Hi as [Hi|[Hge Hi]].
      * destruct (Hvoices i w Hi) as (Hw & Hs & Hstop').
        split; [exact Hw|]. split; [exact Hs|].
        apply lookup_lt_Some in Hi.
        split; [intros E; apply Hstop' in E; discriminate | intros [= E]; lia].
      * apply list_lookup_singleton_Some in Hi as [Hi <-].
        split; [rewrite wired_started; eapply buildVoice_wired; exact Hbuild|].
        split; [reflexivity|].
        destruct (buildVoice_settings _ _ _ _ Hbuild)
          as (_ & _ & _ & _ & _ & _ & _ & _ & _ & _ & _ & Hnone).
        cbn. split; [intros _; f_equal; lia | intros _; exact Hnone].
    + rewrite (playNote_build_threw frequency s s1 ctx ctx1 Hctx Hstop Hctx1 Hbuild).
      exact Htidy1.
  - rewrite (playNote_stop_threw frequency s s1 ctx Hctx Hstop). exact Htidy1.
Qed.

Lemma tidy_setParams (updater : SynthParams -> SynthParams) (s : Synth) :
  tidy s -> tidy (run (setParams updater) s).
Proof. intros H. exact H. Qed.

Lemma tidy_render (t : Q) (s : Synth) : tidy s -> tidy (render t s).
Proof.
  intros (Hf & Hflag & Hvoices).
  split; [exact Hf|]. split; [exact Hflag|].
  intros i v. unfold voicesOf, render. cbn [audioContextRef gainNodeRef].
  unfold voicesOf in Hvoices.
  destruct (audioContextRef s) as [ctx|]; cbn [fmap option_fmap option_map];
    [|intros Hi; rewrite lookup_nil in Hi; discriminate].
  unfold renderContext. destruct (Qle_bool (currentTime ctx) t); [|apply Hvoices].
  cbn [voices]. destruct (Qle_bool t (currentTime ctx)); [apply Hvoices|].
  rewrite list_lookup_fmap.
  destruct (voices ctx !! i) as [v0|] eqn:Hv0; [|discriminate].
  intros [= <-]. rewrite wired_renderVoice. exact (Hvoices i v0 Hv0).
Qed.

Lemma tidy_mount (rate : positive) : tidy (mount rate initialSynth).
Proof.
  split; [reflexivity|]. split.
  - cbn. rewrite is_Some_None_false. split; [discriminate | contradiction].
  - intros i v Hi. cbn in Hi. rewrite lookup_nil in Hi. discriminate.
Qed.

Lemma reachable_tidy (s : Synth) : reachable s -> tidy s.
Proof.
  induction 1 as [rate|e s Hreach IH].
  - apply tidy_mount.
  - pose proof (reachable_wellFormed s Hreach) as Hwf.
    destruct e; cbn [step].
    + apply tidy_playNote; assumption.
    + apply tidy_stopNote; assumption.
    + apply tidy_setParams, IH.
    + apply tidy_setParams, IH.
    + apply tidy_setParams, IH.
    + apply tidy_render, IH.
Qed.

(** X14.  In every state that the component reaches once mounted, by any
    run of note-ons, note-offs, parameter changes, preset loads and
    rendering, also when a handler was ended by an exception: the three
    node refs are set or unset together, the [isPlaying] flag tells
    whether a voice is held, every voice of the context is wired to the
    output and started, and the held voice is the only one whose oscillator
    has no stop time. *)
Theorem refs_flag_and_voices_agree (s : Synth) :
  reachable s ->
  oscillatorRef s = gainNodeRef s
  /\ filterNodeRef s = gainNodeRef s
  /\ (isPlaying s = true <-> is_Some (heldVoice s))
  /\ (forall i v, voicesOf s !! i = Some v ->
        wired v = true
        /\ oscillator_started (v_oscillator v) = true
        /\ (oscillator_stopTime (v_oscillator v) = None <-> gainNodeRef s = Some i)).
Proof.
  intros Hreach.
  destruct (reachable_tidy s Hreach) as (Hf & Hflag & Hvoices).
  destruct (reachable_wellFormed s Hreach) as (ctx & Hctx & _ & Hog & Hbound).
  split; [exact Hog|]. split; [exact Hf|]. split; [|exact Hvoices].
  rewrite Hflag. unfold heldVoice. rewrite Hctx. cbn [mbind option_bind].
  destruct (gainNodeRef s) as [g|]; cbn [mbind option_bind].
  - split; [intros _; apply lookup_lt_is_Some_2, Hbound; reflexivity | eauto].
  - rewrite !is_Some_None_false. reflexivity.
Qed.

Lemma refs_flag_and_voices_agree_witness :
  let s := step NoteOff (step (Render 1) (step (NoteOn 440) (mount 44100 initialSynth))) in
  isPlaying s = true <-> is_Some (heldVoice s).
Proof.
  intros s.
  destruct (refs_flag_and_voices_agree s) as (_ & _ & H & _).
  - unfold s. repeat apply reachable_step. apply reachable_mount.
  - exact H.
Defined.

(** ** The frequency parameter *)

Section Commuting.

Variable updater : SynthParams -> SynthParams.

Lemma commutes_bind {A B : Type} (m : Handler A) (k : A -> Handler B) :
  commutes updater m -> (forall a, commutes updater (k a)) -> commutes updater (m ≫= k).
Proof.
  intros Hm Hk s. rewrite !Handler_bind_run, Hm.
  destruct (m s) as [[a|] s0]; cbn [fst snd]; [apply Hk | reflexivity].
Qed.

Lemma commutes_throw {A : Type} : commutes updater (@throw A).
Proof. intros s. reflexivity. Qed.

Lemma commutes_setContext (ctx : AudioContext) : commutes updater (setContext ctx).
Proof. intros s. reflexivity. Qed.

Lemma commutes_setRefs (o g f : option nat) : commutes updater (setRefs o g f).
Proof. intros s. reflexivity. Qed.

Lemma commutes_setIsPlaying (b : bool) : commutes updater (setIsPlaying b).
Proof. intros s. reflexivity. Qed.

Lemma commutes_voiceAt (i : nat) : commutes updater (voiceAt i).
Proof.
  intros [p playing [ctx|] o g f]; unfold voiceAt, run; cbn; [|reflexivity].
  destruct (voices ctx !! i); reflexivity.
Qed.

Lemma commutes_setVoice (i : nat) (v : Voice) : commutes updater (setVoice i v).
Proof.
  intros [p playing [ctx|] o g f]; reflexivity.
Qed.

Lemma commutes_onGain (g : nat) (m : AudioParam -> option AudioParam) :
  commutes updater (onGain g m).
Proof.
  unfold onGain. apply commutes_bind; [apply commutes_voiceAt|].
  intros v. destruct (m (gain (v_gainNode v))); [apply commutes_setVoice | apply commutes_throw].
Qed.

Lemma commutes_gainValue (g : nat) : commutes updater (gainValue g).
Proof.
  unfold gainValue. apply commutes_bind; [apply commutes_voiceAt|].
  intros v s. reflexivity.
Qed.

Lemma commutes_stopOscillator (o : nat) (when : Q) : commutes updater (stopOscillator o when).
Proof.
  unfold stopOscillator. apply commutes_bind; [apply commutes_voiceAt|].
  intros v. destruct (negative_num when); [apply commutes_throw | apply commutes_setVoice].
Qed.

Lemma commutes_startOscillator (o : nat) : commutes updater (startOscillator o).
Proof.
  unfold startOscillator. apply commutes_bind; [apply commutes_voiceAt|].
  intros v. apply commutes_setVoice.
Qed.

Hypothesis keeps_release :
  forall p, release (envelope (updater p)) = release (envelope p).

Hypothesis keeps_voice :
  forall p frequency now, buildVoice (updater p) frequency now = buildVoice p frequency now.

Lemma commutes_stopNote : commutes updater stopNote.
Proof.
  intros [p playing [ctx|] [o|] [g|] f]; try reflexivity.
  set (s := {| params := p; isPlaying := playing; audioContextRef := Some ctx;
               oscillatorRef := Some o; gainNodeRef := Some g; filterNodeRef := f |}).
  unfold stopNote at 1 2.
  change (oscillatorRef (run (setParams updater) s)) with (Some o).
  change (gainNodeRef (run (setParams updater) s)) with (Some g).
  change (audioContextRef (run (setParams updater) s)) with (Some ctx).
  change (params (run (setParams updater) s)) with (updater p).
  change (oscillatorRef s) with (Some o).
  change (gainNodeRef s) with (Some g).
  change (audioContextRef s) with (Some ctx).
  change (params s) with p.
  cbv beta iota.
  rewrite keeps_release.
  set (chain := onGain g _ ≫= _).
  assert (Hchain : commutes updater chain).
  { unfold chain.
    repeat first
      [ apply commutes_onGain | apply commutes_gainValue | apply commutes_stopOscillator
      | apply commutes_setRefs | apply commutes_setIsPlaying
      | apply commutes_bind; [|intros ?] ]. }
  apply Hchain.
Qed.

Lemma commutes_playNote (frequency : Q) : commutes updater (playNote frequency).
Proof.
  intros [p playing [ctx|] o g f]; [|reflexivity].
  set (s := {| params := p; isPlaying := playing; audioContextRef := Some ctx;
               oscillatorRef := o; gainNodeRef := g; filterNodeRef := f |}).
  unfold playNote.
  change (audioContextRef (run (setParams updater) s)) with (Some ctx).
  change (audioContextRef s) with (Some ctx).
  cbv beta iota.
  set (rest := getState ≫= _).
  assert (Hrest : commutes updater rest).
  { intros [p0 playing0 [ctx0|] o0 g0 f0]; unfold rest; rewrite !Handler_bind_run;
      unfold getState; cbv beta iota; [|reflexivity].
    set (s0 := {| params := p0; isPlaying := playing0; audioContextRef := Some ctx0;
                  oscillatorRef := o0; gainNodeRef := g0; filterNodeRef := f0 |}).
    change (audioContextRef (run (setParams updater) s0)) with (Some ctx0).
    change (params (run (setParams updater) s0)) with (updater p0).
    change (audioContextRef s0) with (Some ctx0).
    change (params s0) with p0.
    cbv beta iota.
    rewrite keeps_voice.
    destruct (buildVoice p0 frequency (currentTime ctx0)) as [v|]; [|reflexivity].
    set (chain := setContext _ ≫= _).
    assert (Hchain : commutes updater chain).
    { unfold chain.
      repeat first
        [ apply commutes_setContext | apply commutes_startOscillator
        | apply commutes_setRefs | apply commutes_setIsPlaying
        | apply commutes_bind; [|intros ?] ]. }
    apply Hchain. }
  change (((stopNote ≫= fun _ => rest) (run (setParams updater) s))
          = (fst ((stopNote ≫= fun _ => rest) s),
             run (setParams updater) (snd ((stopNote ≫= fun _ => rest) s)))).
  apply commutes_bind; [apply commutes_stopNote | intros _; exact Hrest].
Qed.

End Commuting.

Lemma buildVoice_ignores_frequency (x : Q) (p : SynthParams) (frequency now : Q) :
  buildVoice (updateParamOf oscillator_cat "frequency" (VNum x) p) frequency now
  = buildVoice p frequency now.
Proof. reflexivity. Qed.

Lemma updateParamOf_after_frequency (x : Q) (category : Category) (param : string)
    (value : ParamValue) (p : SynthParams) :
  exists y,
    updateParamOf category param value (updateParamOf oscillator_cat "frequency" (VNum x) p)
    = updateParamOf oscillator_cat "frequency" (VNum y) (updateParamOf category param value p).
Proof.
  destruct category; try (exists x; reflexivity).
  destruct value as [n|str]; cbn.
  - destruct (String.eqb param "frequency"); [exists n; reflexivity|].
    destruct (String.eqb param "detune"); exists x; reflexivity.
  - destruct (String.eqb param "type"); exists x; reflexivity.
Qed.

Lemma step_after_frequency (x : Q) (e : Event) (s : Synth) :
  exists y,
    step e (run (updateParam oscillator_cat "frequency" (VNum x)) s)
    = run (updateParam oscillator_cat "frequency" (VNum y)) (step e s).
Proof.
  destruct e as [frequency| |category param value|value|preset|t]; cbn [step].
  - exists x.
    pose proof (commutes_playNote (updateParamOf oscillator_cat "frequency" (VNum x))
                  (fun _ => eq_refl) (buildVoice_ignores_frequency x) frequency s) as H.
    unfold updateParam. unfold run at 1 3. rewrite H. reflexivity.
  - exists x.
    pose proof (commutes_stopNote (updateParamOf oscillator_cat "frequency" (VNum x))
                  (fun _ => eq_refl) s) as H.
    unfold updateParam. unfold run at 1 3. rewrite H. reflexivity.
  - destruct (updateParamOf_after_frequency x category param value (params s)) as [y Hy].
    exists y. unfold run, updateParam, setParams.
    cbn [snd params isPlaying audioContextRef oscillatorRef gainNodeRef filterNodeRef].
    rewrite Hy. reflexivity.
  - exists x. reflexivity.
  - exists (osc_frequency (preset_oscillator preset)).
    unfold run, updateParam, loadPreset, setParams. cbn.
    destruct (preset_oscillator preset). reflexivity.
  - exists x. reflexivity.
Qed.

(** X15.  The frequency of the oscillator parameters, which the Frequency
    knob sets, never reaches the audio: two runs of the same events that
    start from states differing in that number only end in states that
    differ in that number only, with the same voices, the same refs and
    the same [isPlaying] flag. *)
Theorem frequency_parameter_reaches_no_voice (x : Q) (es : list Event) (s : Synth) :
  let turned := run (updateParam oscillator_cat "frequency" (VNum x)) s in
  audioContextRef (steps es turned) = audioContextRef (steps es s)
  /\ oscillatorRef (steps es turned) = oscillatorRef (steps es s)
  /\ gainNodeRef (steps es turned) = gainNodeRef (steps es s)
  /\ filterNodeRef (steps es turned) = filterNodeRef (steps es s)
  /\ isPlaying (steps es turned) = isPlaying (steps es s)
  /\ exists y,
       params (steps es turned)
       = updateParamOf oscillator_cat "frequency" (VNum y) (params (steps es s)).
Proof.
  intros turned.
  assert (H : exists y, steps es turned
                        = run (updateParam oscillator_cat "frequency" (VNum y)) (steps es s)).
  { subst turned. revert x s. induction es as [|e es IH]; intros x s.
    - exists x. reflexivity.
    - cbn [steps foldl]. destruct (step_after_frequency x e s) as [y ->].
      apply (IH y (step e s)). }
  destruct H as [y ->]. repeat split. exists y. reflexivity.
Qed.

(** ** The keyboard *)

Lemma keyboard_playNote_run (n : Keyboard.Note) (k : Keyboard.State) (s : Synth) :
  Keyboard.activeNote k <> Some (Keyboard.note n) ->
  Keyboard.playNote synthKeyboard n k s
  = (fst (playNote (Keyboard.frequency n) s),
     (match fst (playNote (Keyboard.frequency n) s) with
      | Some _ => Keyboard.setActiveNote (Some (Keyboard.note n)) k
      | None => k
      end,
      run (playNote (Keyboard.frequency n)) s)).
Proof.
  intros Hactive. unfold Keyboard.playNote.
  rewrite bool_decide_eq_false_2 by exact Hactive.
  cbn [synthKeyboard Keyboard.onNoteOff Keyboard.onNoteOn].
  destruct (stopNote_absorbed (Keyboard.frequency n) s) as [Habs _].
  rewrite Handler_bind_run in Habs. unfold run. rewrite <- Habs.
  destruct (stopNote s) as [[[]|] s1]; [|reflexivity].
  destruct (playNote (Keyboard.frequency n) s1) as [[[]|] s2]; reflexivity.
Qed.

Lemma keyboard_stopNote_run (k : Keyboard.State) (s : Synth) :
  Keyboard.stopNote synthKeyboard k s
  = (fst (stopNote s),
     (match fst (stopNote s) with
      | Some _ => Keyboard.setActiveNote None k
      | None => k
      end,
      run stopNote s)).
Proof.
  unfold Keyboard.stopNote, run. cbn [synthKeyboard Keyboard.onNoteOff].
  destruct (stopNote s) as [[[]|] s1]; reflexivity.
Qed.

(** X16.  The keyboard sends a note-off before every note-on, and the
    synthesizer stops the held note itself when a note starts: the
    note-off of the keyboard changes nothing.  A key of the keyboard that
    is not the active one leaves the synthesizer in the state of the
    note-on alone, ends as the note-on ends, and becomes the active note
    exactly when the note-on returned. *)
Theorem keyboard_note_off_before_note_on_is_redundant
    (n : Keyboard.Note) (k : Keyboard.State) (s : Synth) :
  Keyboard.activeNote k <> Some (Keyboard.note n) ->
  let after := Keyboard.playNote synthKeyboard n k s in
  fst after = fst (playNote (Keyboard.frequency n) s)
  /\ snd (snd after) = run (playNote (Keyboard.frequency n)) s
  /\ Keyboard.pressedKeys (fst (snd after)) = Keyboard.pressedKeys k
  /\ Keyboard.activeNote (fst (snd after))
     = match fst after with
       | Some _ => Some (Keyboard.note n)
       | None => Keyboard.activeNote k
       end.
Proof.
  intros Hactive after. subst after. rewrite keyboard_playNote_run by exact Hactive.
  cbn [fst snd]. split; [reflexivity|]. split; [reflexivity|].
  destruct (fst (playNote (Keyboard.frequency n) s)); split; reflexivity.
Qed.

Lemma keyboard_note_off_before_note_on_is_redundant_witness :
  let n := {| Keyboard.note := "A"; Keyboard.frequency := 440.00;
              Keyboard.isBlack := false; Keyboard.key := "h" |} in
  let s := run (playNote 261.63) (mount 44100 initialSynth) in
  let k := Keyboard.setActiveNote (Some "C") Keyboard.initialState in
  snd (snd (Keyboard.playNote synthKeyboard n k s)) = run (playNote 440.00) s.
Proof.
  intros n s k.
  destruct (keyboard_note_off_before_note_on_is_redundant n k s) as (_ & H & _).
  - discriminate.
  - exact H.
Defined.

(** X17.  A key that is held down repeats its [keydown]: the repeats do
    nothing.  A second [keydown] of a key, with no [keyup] of it in
    between, returns and leaves the keyboard and the synthesizer as the
    first left them, whatever the callbacks are and also when the first was
    ended by an exception. *)
Theorem repeated_keydown_is_ignored
    (props : Keyboard.Props) (toLowerCase : string -> string)
    (e_key : string) (k : Keyboard.State) (s : Synth) :
  let first := Keyboard.handleKeyDown props toLowerCase e_key k s in
  Keyboard.handleKeyDown props toLowerCase e_key (fst (snd first)) (snd (snd first))
  = (Some tt, snd first).
Proof.
  intros first. subst first. unfold Keyboard.handleKeyDown at 2 3 4.
  case_bool_decide as Hpressed.
  - cbn [fst snd]. unfold Keyboard.handleKeyDown.
    rewrite bool_decide_eq_true_2 by exact Hpressed. reflexivity.
  - destruct (Keyboard.noteOfKey toLowerCase e_key) as [n|] eqn:Hnote.
    + set (k' := Keyboard.setPressedKeys _ k).
      assert (Hin : e_key ∈ Keyboard.pressedKeys
                             (fst (snd (Keyboard.playNote props n k' s)))).
      { assert (Hk' : e_key ∈ Keyboard.pressedKeys k').
        { unfold k'. cbn. rewrite elem_of_union, elem_of_singleton. right. reflexivity. }
        unfold Keyboard.playNote. case_bool_decide; [exact Hk'|].
        destruct (Keyboard.onNoteOff props s) as [[[]|] s1]; [|exact Hk'].
        destruct (Keyboard.onNoteOn props (Keyboard.frequency n) s1) as [[[]|] s2];
          exact Hk'. }
      unfold Keyboard.handleKeyDown. rewrite bool_decide_eq_true_2 by exact Hin.
      destruct (Keyboard.playNote props n k' s) as [r [k2 s2]]. reflexivity.
    + cbn [fst snd]. unfold Keyboard.handleKeyDown.
      rewrite bool_decide_eq_false_2 by exact Hpressed. rewrite Hnote. reflexivity.
Qed.

Lemma playNote_returns (frequency : Q) (s : Synth) :
  wellFormed s -> playable (params s) ->
  fst (playNote frequency s) = Some tt
  /\ wellFormed (run (playNote frequency) s)
  /\ params (run (playNote frequency) s) = params s
  /\ is_Some (gainNodeRef (run (playNote frequency) s)).
Proof.
  intros Hwf Hplay. pose proof (wellFormed_playNote frequency s Hwf) as Hwf'.
  destruct Hwf as (ctx & Hctx & Hrest).
  destruct (playNote_wellFormed frequency s ctx) as (v & _ & _ & _ & _ & Hrun);
    [exists ctx; split; assumption | exact Hctx | exact Hplay |].
  unfold run in *. rewrite Hrun in *. cbn. repeat split; eauto.
Qed.

Lemma stopNote_held_returns (s : Synth) :
  wellFormed s -> is_Some (gainNodeRef s) -> 0 <= release (envelope (params s)) ->
  fst (stopNote s) = Some tt
  /\ gainNodeRef (run stopNote s) = None
  /\ isPlaying (run stopNote s) = false.
Proof.
  intros (ctx & Hctx & Hnow & Hog & Hbound) [g Hg] Hrel.
  rewrite Hg in Hog.
  destruct (lookup_lt_is_Some_2 (voices ctx) g (Hbound g Hg)) as [vg Hvg].
  unfold run. rewrite (stopNote_held s ctx g vg Hctx Hog Hg Hvg Hnow Hrel).
  repeat split.
Qed.

Lemma noteOfKey_elem (toLowerCase : string -> string) (e_key : string) (n : Keyboard.Note) :
  Keyboard.noteOfKey toLowerCase e_key = Some n -> n ∈ Keyboard.notes.
Proof.
  unfold Keyboard.noteOfKey. intros H. apply find_some in H as [H _].
  apply list_elem_of_In. exact H.
Qed.

(** X18.  The keyboard stops the note at the [keyup] of any key of the
    table, not only of the key that sounds.  So when a second key is
    pressed while a first is held, and the first is then released, nothing
    is held any more: the synthesizer is back to not playing with no
    active note, although the second key is still down (and, being marked
    as pressed, will not start its note again before it is released). *)
Theorem releasing_the_first_of_two_keys_stops_the_second
    (toLowerCase : string -> string) (e1 e2 : string) (n1 n2 : Keyboard.Note)
    (t1 t2 : Q) (k : Keyboard.State) (s : Synth) :
  wellFormed s -> playable (params s) ->
  Keyboard.noteOfKey toLowerCase e1 = Some n1 ->
  Keyboard.noteOfKey toLowerCase e2 = Some n2 ->
  Keyboard.note n1 <> Keyboard.note n2 ->
  e1 ∉ Keyboard.pressedKeys k -> e2 ∉ Keyboard.pressedKeys k ->
  Keyboard.activeNote k <> Some (Keyboard.note n1) ->
  let st :=
    foldl (fun st e => pageStep toLowerCase e st) (k, s)
          [OnKeyboard (Keyboard.KeyDown e1); Tick t1;
           OnKeyboard (Keyboard.KeyDown e2); Tick t2;
           OnKeyboard (Keyboard.KeyUp e1)] in
  heldVoice (snd st) = None
  /\ isPlaying (snd st) = false
  /\ Keyboard.activeNote (fst st) = None
  /\ e2 ∈ Keyboard.pressedKeys (fst st)
  /\ pageStep toLowerCase (OnKeyboard (Keyboard.KeyDown e2)) st = st.
Proof.
  intros Hwf Hplay Hn1 Hn2 Hnotes He1 He2 Hactive st.
  assert (Hkeys : e1 <> e2) by (intros ->; congruence).
  destruct Hplay as (Hcustom & Hattack & Hdecay & Hrel).
  (* the first key *)
  destruct (playNote_returns (Keyboard.frequency n1) s Hwf)
    as (Hret1 & Hwf1 & Hp1 & _); [repeat split; assumption|].
  set (s1 := run (playNote (Keyboard.frequency n1)) s) in *.
  pose proof (wellFormed_render t1 s1 Hwf1) as Hwf2.
  (* the second key *)
  destruct (playNote_returns (Keyboard.frequency n2) (render t1 s1) Hwf2)
    as (Hret3 & Hwf3 & Hp3 & Hheld3).
  { cbn [render params]. rewrite Hp1. repeat split; assumption. }
  set (s3 := run (playNote (Keyboard.frequency n2)) (render t1 s1)) in *.
  pose proof (wellFormed_render t2 s3 Hwf3) as Hwf4.
  (* the release of the first key *)
  destruct (stopNote_held_returns (render t2 s3) Hwf4) as (Hret5 & Hg5 & Hflag5).
  { exact Hheld3. }
  { cbn [render params]. rewrite Hp3. cbn [render params]. rewrite Hp1. exact Hrel. }
  set (k1 := Keyboard.setActiveNote (Some (Keyboard.note n1))
               (Keyboard.setPressedKeys (fun prev => prev ∪ {[ e1 ]}) k)).
  set (k3 := Keyboard.setActiveNote (Some (Keyboard.note n2))
               (Keyboard.setPressedKeys (fun prev => prev ∪ {[ e2 ]}) k1)).
  set (k5 := Keyboard.setActiveNote None
               (Keyboard.setPressedKeys (fun prev => prev ∖ {[ e1 ]}) k3)).
  assert (H1 : pageStep toLowerCase (OnKeyboard (Keyboard.KeyDown e1)) (k, s) = (k1, s1)).
  { cbn [pageStep Keyboard.handle fst snd]. unfold Keyboard.handleKeyDown.
    rewrite bool_decide_eq_false_2 by exact He1. rewrite Hn1.
    rewrite keyboard_playNote_run by exact Hactive. rewrite Hret1. reflexivity. }
  assert (H3 : pageStep toLowerCase (OnKeyboard (Keyboard.KeyDown e2)) (k1, render t1 s1)
               = (k3, s3)).
  { cbn [pageStep Keyboard.handle fst snd]. unfold Keyboard.handleKeyDown.
    rewrite bool_decide_eq_false_2.
    2:{ cbn. rewrite elem_of_union, elem_of_singleton. intros [?|?]; [contradiction | congruence]. }
    rewrite Hn2.
    rewrite keyboard_playNote_run by (cbn; congruence). rewrite Hret3. reflexivity. }
  assert (H5 : pageStep toLowerCase (OnKeyboard (Keyboard.KeyUp e1)) (k3, render t2 s3)
               = (k5, run stopNote (render t2 s3))).
  { cbn [pageStep Keyboard.handle fst snd]. unfold Keyboard.handleKeyUp. rewrite Hn1.
    rewrite keyboard_stopNote_run. rewrite Hret5. reflexivity. }
  assert (Hst : st = (k5, run stopNote (render t2 s3))).
  { subst st. cbn [foldl]. rewrite H1.
    change (pageStep toLowerCase (Tick t1) (k1, s1)) with (k1, render t1 s1).
    rewrite H3.
    change (pageStep toLowerCase (Tick t2) (k3, s3)) with (k3, render t2 s3).
    exact H5. }
  assert (Hin : e2 ∈ Keyboard.pressedKeys k5).
  { cbn. rewrite elem_of_difference, !elem_of_union, !elem_of_singleton.
    split; [right; reflexivity | congruence]. }
  rewrite Hst. cbn [fst snd].
  split; [|split; [exact Hflag5 | split; [reflexivity | split; [exact Hin|]]]].
  - unfold heldVoice. rewrite Hg5.
    destruct (audioContextRef (run stopNote (render t2 s3))); reflexivity.
  - cbn [pageStep Keyboard.handle fst snd]. unfold Keyboard.handleKeyDown.
    rewrite bool_decide_eq_true_2 by exact Hin. reflexivity.
Qed.

Lemma releasing_the_first_of_two_keys_stops_the_second_witness :
  let st :=
    foldl (fun st e => pageStep (fun key => key) e st)
          (Keyboard.initialState, mount 44100 initialSynth)
          [OnKeyboard (Keyboard.KeyDown "a"); Tick 1;
           OnKeyboard (Keyboard.KeyDown "s"); Tick 2;
           OnKeyboard (Keyboard.KeyUp "a")] in
  heldVoice (snd st) = None /\ "s" ∈ Keyboard.pressedKeys (fst st).
Proof.
  intros st.
  destruct (releasing_the_first_of_two_keys_stops_the_second
              (fun key => key) "a" "s"
              {| Keyboard.note := "C"; Keyboard.frequency := 261.63;
                 Keyboard.isBlack := false; Keyboard.key := "a" |}
              {| Keyboard.note := "D"; Keyboard.frequency := 293.66;
                 Keyboard.isBlack := false; Keyboard.key := "s" |}
              1 2 Keyboard.initialState (mount 44100 initialSynth))
    as (Hheld & _ & _ & Hpressed & _).
  - apply wellFormed_mount.
  - apply playable_default.
  - reflexivity.
  - reflexivity.
  - discriminate.
  - apply not_elem_of_empty.
  - apply not_elem_of_empty.
  - discriminate.
  - split; [exact Hheld | exact Hpressed].
Defined.

(** ** The pitch that sounds *)

Lemma stopNote_summary (s : Synth) (ctx : AudioContext) :
  wellFormed s -> audioContextRef s = Some ctx ->
  exists vs,
    audioContextRef (run stopNote s) = Some (withVoices ctx vs)
    /\ params (run stopNote s) = params s
    /\ ((fst (stopNote s) = Some tt /\ gainNodeRef (run stopNote s) = None)
        \/ (fst (stopNote s) = None
            /\ exists g vg p,
                 gainNodeRef s = Some g
                 /\ gainNodeRef (run stopNote s) = Some g
                 /\ voices ctx !! g = Some vg
                 /\ vs = <[ g := withGain vg p ]> (voices ctx))).
Proof.
  intros (ctx0 & Hctx0 & Hnow & Hog & Hbound) Hctx.
  assert (ctx0 = ctx) by congruence. subst ctx0.
  destruct (gainNodeRef s) as [g|] eqn:Hg.
  - destruct (lookup_lt_is_Some_2 (voices ctx) g (Hbound g eq_refl)) as [vg Hvg].
    destruct (stopNote_cases s ctx g vg Hctx Hog Hg Hvg Hnow)
      as [p [[_ Hrun]|[_ Hrun]]]; unfold run; rewrite Hrun; cbn [fst snd];
      eexists; (split; [reflexivity|]); (split; [reflexivity|]).
    + left. split; reflexivity.
    + right. split; [reflexivity|]. exists g, vg, p. repeat split. exact Hvg.
  - unfold run. rewrite (stopNote_idle s Hog). cbn [fst snd].
    exists (voices ctx). split; [rewrite Hctx; destruct ctx; reflexivity|].
    split; [reflexivity|]. left. split; [reflexivity | exact Hg].
Qed.

Lemma heldVoice_stopNote (s : Synth) (v1 : Voice) :
  wellFormed s -> heldVoice (run stopNote s) = Some v1 ->
  fst (stopNote s) = None
  /\ clockOf (run stopNote s) = clockOf s
  /\ exists v, heldVoice s = Some v /\ pitchOf v1 = pitchOf v.
Proof.
  intros Hwf Hheld. pose proof Hwf as (ctx & Hctx & _).
  destruct (stopNote_summary s ctx Hwf Hctx)
    as (vs & Hctx1 & _ & [[_ Hg]|(Hthrew & g & vg & p & Hg0 & Hg & Hvg & ->)]).
  - unfold heldVoice in Hheld. rewrite Hctx1, Hg in Hheld. discriminate.
  - split; [exact Hthrew|]. split; [unfold clockOf; rewrite Hctx1, Hctx; reflexivity|].
    unfold heldVoice in Hheld. rewrite Hctx1, Hg in Hheld.
    cbn [mbind option_bind withVoices voices] in Hheld.
    rewrite list_lookup_insert_eq in Hheld by (eapply lookup_lt_Some; exact Hvg).
    injection Hheld as <-.
    exists vg. split; [|reflexivity].
    unfold heldVoice. rewrite Hctx, Hg0. exact Hvg.
Qed.

Lemma heldVoice_playNote (frequency : Q) (s : Synth) (v1 : Voice) :
  wellFormed s -> heldVoice (run (playNote frequency) s) = Some v1 ->
  clockOf (run (playNote frequency) s) = clockOf s
  /\ ((fst (playNote frequency s) = Some tt
       /\ pitchOf v1 = [SetValue frequency (clockOf s)])
      \/ (fst (playNote frequency s) = None
          /\ exists v, heldVoice s = Some v /\ pitchOf v1 = pitchOf v)).
Proof.
  intros Hwf. pose proof Hwf as (ctx & Hctx & _).
  destruct (stopNote_summary s ctx Hwf Hctx) as (vs & Hctx1 & Hp1 & Hcases).
  pose proof (heldVoice_stopNote s v1 Hwf) as Hstopped.
  unfold run in *.
  destruct (stopNote s) as [[[]|] s1] eqn:Hstop; cbn [fst snd] in *.
  - destruct Hcases as [[_ Hg1]|[? _]]; [|discriminate].
    destruct (buildVoice (params s1) frequency (currentTime (withVoices ctx vs)))
      as [v|] eqn:Hbuild.
    + rewrite (playNote_after_stop frequency s s1 ctx _ v Hctx Hstop Hctx1 Hbuild).
      cbn [fst snd]. unfold heldVoice, clockOf.
      cbn [audioContextRef gainNodeRef mbind option_bind withVoices voices currentTime].
      rewrite Hctx. rewrite lookup_snoc_last. intros [= <-].
      split; [reflexivity|]. left. split; [reflexivity|].
      destruct (buildVoice_settings _ _ _ _ Hbuild) as (_ & Hf & _).
      unfold pitchOf. cbn [started withOscillator withStarted v_oscillator
                           oscillator_frequency].
      rewrite Hf. reflexivity.
    + rewrite (playNote_build_threw frequency s s1 ctx _ Hctx Hstop Hctx1 Hbuild).
      cbn [fst snd]. unfold heldVoice. rewrite Hctx1, Hg1. discriminate.
  - rewrite (playNote_stop_threw frequency s s1 ctx Hctx Hstop). cbn [fst snd].
    intros Hheld. destruct (Hstopped Hheld) as (_ & Hclock & Hv).
    split; [exact Hclock|]. right. split; [reflexivity | exact Hv].
Qed.

Lemma heldVoice_rendered (t : Q) (s : Synth) (v1 : Voice) :
  heldVoice (render t s) = Some v1 ->
  clockOf s <= clockOf (render t s)
  /\ exists v, heldVoice s = Some v /\ pitchOf v1 = pitchOf v.
Proof.
  unfold heldVoice, clockOf, render. cbn [audioContextRef gainNodeRef].
  destruct (audioContextRef s) as [ctx|]; cbn [fmap option_fmap option_map mbind option_bind];
    [|discriminate].
  destruct (gainNodeRef s) as [g|]; cbn [mbind option_bind]; [|discriminate].
  unfold renderContext. destruct (Qle_bool (currentTime ctx) t) eqn:E.
  - cbn [voices currentTime]. apply Qle_bool_iff in E.
    destruct (Qle_bool t (currentTime ctx)).
    + intros H. split; [exact E|]. exists v1. split; [exact H | reflexivity].
    + rewrite list_lookup_fmap.
      destruct (voices ctx !! g) as [v|]; [|discriminate].
      intros [= <-]. split; [exact E|]. exists v. split; reflexivity.
  - intros H. split; [lra|]. exists v1. split; [exact H | reflexivity].
Qed.

Lemma inTune_active (k k' : Keyboard.State) (s : Synth) :
  Keyboard.activeNote k' = Keyboard.activeNote k -> inTune (k, s) -> inTune (k', s).
Proof. unfold inTune. cbn [fst snd]. intros ->. auto. Qed.

Lemma inTune_playNote (n : Keyboard.Note) (k : Keyboard.State) (s : Synth) :
  n ∈ Keyboard.notes -> wellFormed s -> inTune (k, s) ->
  inTune (snd (Keyboard.playNote synthKeyboard n k s)).
Proof.
  intros Hn Hwf Hin.
  destruct (decide (Keyboard.activeNote k = Some (Keyboard.note n))) as [Hactive|Hactive].
  - unfold Keyboard.playNote. rewrite bool_decide_eq_true_2 by exact Hactive. exact Hin.
  - rewrite keyboard_playNote_run by exact Hactive. cbn [snd].
    intros v1 Hheld. cbn [fst snd] in *.
    destruct (heldVoice_playNote _ s v1 Hwf Hheld)
      as (Hclock & [(Hret & Hpitch)|(Hthrew & v & Hv & Hpitch)]).
    + rewrite Hret. exists n, (clockOf s).
      split; [exact Hn|]. split; [reflexivity|]. split; [exact Hpitch|].
      rewrite Hclock. lra.
    + rewrite Hthrew. destruct (Hin v Hv) as (m & t & Hm & Hact & Hp & Ht).
      exists m, t. cbn [fst snd] in *.
      split; [exact Hm|]. split; [exact Hact|]. split; [congruence|].
      rewrite Hclock. exact Ht.
Qed.

Lemma inTune_stopNote (k : Keyboard.State) (s : Synth) :
  wellFormed s -> inTune (k, s) ->
  inTune (snd (Keyboard.stopNote synthKeyboard k s)).
Proof.
  intros Hwf Hin. rewrite keyboard_stopNote_run. cbn [snd].
  intros v1 Hheld. cbn [fst snd] in *.
  destruct (heldVoice_stopNote s v1 Hwf Hheld) as (Hthrew & Hclock & v & Hv & Hpitch).
  rewrite Hthrew. destruct (Hin v Hv) as (m & t & Hm & Hact & Hp & Ht).
  exists m, t. cbn [fst snd] in *.
  split; [exact Hm|]. split; [exact Hact|]. split; [congruence|].
  rewrite Hclock. exact Ht.
Qed.

Lemma wellFormed_keyboard (toLowerCase : string -> string) (e : Keyboard.Event)
    (k : Keyboard.State) (s : Synth) :
  wellFormed s ->
  wellFormed (snd (snd (Keyboard.handle synthKeyboard toLowerCase e k s))).
Proof.
  intros Hwf.
  assert (Hplay : forall n k0, wellFormed (snd (snd (Keyboard.playNote synthKeyboard n k0 s)))).
  { intros n k0.
    destruct (decide (Keyboard.activeNote k0 = Some (Keyboard.note n))) as [Hactive|Hactive].
    - unfold Keyboard.playNote. rewrite bool_decide_eq_true_2 by exact Hactive. exact Hwf.
    - rewrite keyboard_playNote_run by exact Hactive. apply wellFormed_playNote, Hwf. }
  assert (Hstop : forall k0, wellFormed (snd (snd (Keyboard.stopNote synthKeyboard k0 s)))).
  { intros k0. rewrite keyboard_stopNote_run. apply wellFormed_stopNote, Hwf. }
  destruct e as [e_key|e_key|n| |]; cbn [Keyboard.handle].
  - unfold Keyboard.handleKeyDown. case_bool_decide; [exact Hwf|].
    destruct (Keyboard.noteOfKey toLowerCase e_key); [apply Hplay | exact Hwf].
  - unfold Keyboard.handleKeyUp.
    destruct (Keyboard.noteOfKey toLowerCase e_key); [apply Hstop | exact Hwf].
  - apply Hplay.
  - apply Hstop.
  - apply Hstop.
Qed.

Lemma inTune_keyboard (toLowerCase : string -> string) (e : Keyboard.Event)
    (k : Keyboard.State) (s : Synth) :
  onTheKeyboard (OnKeyboard e) -> wellFormed s -> inTune (k, s) ->
  inTune (snd (Keyboard.handle synthKeyboard toLowerCase e k s)).
Proof.
  intros Hon Hwf Hin.
  destruct e as [e_key|e_key|n| |]; cbn [Keyboard.handle].
  - unfold Keyboard.handleKeyDown. case_bool_decide; [exact Hin|].
    destruct (Keyboard.noteOfKey toLowerCase e_key) as [n|] eqn:Hn; [|exact Hin].
    apply inTune_playNote; [eapply noteOfKey_elem; exact Hn | exact Hwf |].
    eapply inTune_active; [|exact Hin]. reflexivity.
  - unfold Keyboard.handleKeyUp.
    destruct (Keyboard.noteOfKey toLowerCase e_key) as [n|]; [|exact Hin].
    apply inTune_stopNote; [exact Hwf|].
    eapply inTune_active; [|exact Hin]. reflexivity.
  - apply inTune_playNote; [exact Hon | exact Hwf | exact Hin].
  - apply inTune_stopNote; assumption.
  - apply inTune_stopNote; assumption.
Qed.

Lemma pageReachable_inTune (toLowerCase : string -> string) (st : Keyboard.State * Synth) :
  pageReachable toLowerCase st -> wellFormed (snd st) /\ inTune st.
Proof.
  induction 1 as [rate|e [k s] Hon Hreach [Hwf Hin]].
  - split; [apply wellFormed_mount|]. intros v Hv. discriminate.
  - cbn [fst snd] in Hwf.
    destruct e as [e|category param value|value|preset|t]; cbn [pageStep fst snd].
    + split; [apply wellFormed_keyboard, Hwf | apply inTune_keyboard; assumption].
    + split; [apply wellFormed_setParams, Hwf | exact Hin].
    + split; [apply wellFormed_setParams, Hwf | exact Hin].
    + split; [apply wellFormed_setParams, Hwf | exact Hin].
    + split; [apply wellFormed_render, Hwf|].
      intros v1 Hheld. cbn [fst snd] in *.
      destruct (heldVoice_rendered t s v1 Hheld) as (Hclock & v & Hv & Hpitch).
      destruct (Hin v Hv) as (m & t0 & Hm & Hact & Hp & Ht).
      exists m, t0. cbn [fst snd] in *.
      split; [exact Hm|]. split; [exact Hact|]. split; [congruence | lra].
Qed.

(** X19.  On the page, where notes start and stop through the keyboard
    only, the note that sounds is the note that the keyboard shows as
    active.  In every state the page reaches, by keys and mouse on the
    keyboard, by knobs, volume and presets, and by time passing, also
    after handlers that an exception ended: if the synthesizer holds a
    voice, then the keyboard has an active note, that note is in the
    table, and the oscillator of the voice runs at the frequency that the
    table gives for it. *)
Theorem held_voice_has_the_pitch_of_the_active_note
    (toLowerCase : string -> string) (k : Keyboard.State) (s : Synth) (v : Voice) :
  pageReachable toLowerCase (k, s) -> heldVoice s = Some v ->
  exists n,
    n ∈ Keyboard.notes
    /\ Keyboard.activeNote k = Some (Keyboard.note n)
    /\ forall t, clockOf s <= t ->
         valueAtTime (oscillator_frequency (v_oscillator v)) t = Keyboard.frequency n.
Proof.
  intros Hreach Hheld.
  destruct (pageReachable_inTune toLowerCase (k, s) Hreach) as [_ Hin].
  destruct (Hin v Hheld) as (n & t0 & Hn & Hact & Hp & Ht0). cbn [fst snd] in *.
  exists n. split; [exact Hn|]. split; [exact Hact|].
  intros t Ht. unfold valueAtTime. unfold pitchOf in Hp. rewrite Hp.
  cbn [timelineValue]. rewrite Qle_bool_true by lra. reflexivity.
Qed.

Lemma held_voice_has_the_pitch_of_the_active_note_witness :
  let st := pageStep (fun key => key) (Tick 1)
              (pageStep (fun key => key) (OnKeyboard (Keyboard.KeyDown "h"))
                 (Keyboard.initialState, mount 44100 initialSynth)) in
  exists v n,
    heldVoice (snd st) = Some v
    /\ n ∈ Keyboard.notes
    /\ Keyboard.activeNote (fst st) = Some (Keyboard.note n)
    /\ valueAtTime (oscillator_frequency (v_oscillator v)) 2 = Keyboard.frequency n.
Proof.
  intros st.
  destruct (heldVoice (snd st)) as [v|] eqn:Hv;
    [|exfalso; vm_compute in Hv; discriminate Hv].
  destruct (held_voice_has_the_pitch_of_the_active_note
              (fun key => key) (fst st) (snd st) v) as (n & Hn & Hact & Hpitch).
  - rewrite <- surjective_pairing. unfold st.
    apply page_step; [exact I|]. apply page_step; [exact I|]. apply page_mount.
  - exact Hv.
  - exists v, n. split; [reflexivity|]. split; [exact Hn|]. split; [exact Hact|].
    apply Hpitch. vm_compute. discriminate.
Defined.

(** ** The shape of the distortion curve *)

Lemma Math_PI_pos : 0 < Math_PI.
Proof. reflexivity. Qed.

(** The transfer function that the loop of [createDistortionCurve]
    samples. *)
Lemma shaper_rising (k x y : Q) :
  0 <= k -> x < y ->
  ((3 + k) * x * 20 * (Math_PI / 180)) / (Math_PI + k * Math_abs x)
  < ((3 + k) * y * 20 * (Math_PI / 180)) / (Math_PI + k * Math_abs y).
Proof.
  intros Hk Hxy. unfold Math_abs.
  pose proof Math_PI_pos as Hpi.
  pose proof (Qabs_nonneg x) as Hax. pose proof (Qabs_nonneg y) as Hay.
  assert (Hkx : 0 <= k * Qabs x) by (apply Qmult_le_0_compat; assumption).
  assert (Hky : 0 <= k * Qabs y) by (apply Qmult_le_0_compat; assumption).
  set (P := Math_PI + k * Qabs x). set (R := Math_PI + k * Qabs y).
  assert (HP : 0 < P) by (unfold P; lra). assert (HR : 0 < R) by (unfold R; lra).
  set (c := (3 + k) * 20 * (Math_PI / 180)).
  assert (Hc : 0 < c).
  { unfold c. apply Qmult_lt_0_compat; [apply Qmult_lt_0_compat; lra|].
    apply Qlt_shift_div_l; lra. }
  assert (Hcross : 0 <= y * Qabs x - x * Qabs y).
  { destruct (Qlt_le_dec x 0) as [Hx|Hx]; destruct (Qlt_le_dec y 0) as [Hy|Hy].
    - rewrite (Qabs_neg x), (Qabs_neg y) by lra.
      assert (E : y * - x - x * - y == 0) by ring. lra.
    - rewrite (Qabs_neg x), (Qabs_pos y) by lra.
      assert (H : 0 <= (- x) * y) by (apply Qmult_le_0_compat; lra).
      assert (E : y * - x - x * y == 2 * ((- x) * y)) by ring. lra.
    - lra.
    - rewrite (Qabs_pos x), (Qabs_pos y) by lra.
      assert (E : y * x - x * y == 0) by ring. lra. }
  assert (Hnum : 0 < y * P - x * R).
  { assert (Hk' : 0 <= k * (y * Qabs x - x * Qabs y)) by (apply Qmult_le_0_compat; assumption).
    assert (Hpi' : 0 < Math_PI * (y - x)) by (apply Qmult_lt_0_compat; lra).
    assert (E : y * P - x * R == Math_PI * (y - x) + k * (y * Qabs x - x * Qabs y))
      by (unfold P, R; ring).
    lra. }
  assert (Hgoal : 0 < c * ((y * P - x * R) / (P * R))).
  { apply Qmult_lt_0_compat; [exact Hc|].
    apply Qlt_shift_div_l; [apply Qmult_lt_0_compat; assumption | lra]. }
  assert (E : (3 + k) * y * 20 * (Math_PI / 180) / R - (3 + k) * x * 20 * (Math_PI / 180) / P
              == c * ((y * P - x * R) / (P * R))).
  { unfold c. field. split; lra. }
  lra.
Qed.

Lemma shaper_odd (k x : Q) :
  0 <= k ->
  ((3 + k) * (- x) * 20 * (Math_PI / 180)) / (Math_PI + k * Math_abs (- x))
  == - (((3 + k) * x * 20 * (Math_PI / 180)) / (Math_PI + k * Math_abs x)).
Proof.
  intros Hk. unfold Math_abs. rewrite Qabs_opp.
  pose proof Math_PI_pos as Hpi. pose proof (Qabs_nonneg x) as Hax.
  assert (Hkx : 0 <= k * Qabs x) by (apply Qmult_le_0_compat; assumption).
  field. lra.
Qed.

Lemma shaper_at_one (k : Q) :
  0 <= k ->
  ((3 + k) * 1 * 20 * (Math_PI / 180)) / (Math_PI + k * Math_abs 1) <= Math_PI / 9.
Proof.
  intros Hk. unfold Math_abs. change (Qabs 1) with 1.
  pose proof Math_PI_pos as Hpi.
  apply Qle_shift_div_r; [lra|].
  assert (H3 : 3 <= Math_PI) by discriminate.
  assert (E : Math_PI / 9 * (Math_PI + k * 1) - (3 + k) * 1 * 20 * (Math_PI / 180)
              == Math_PI / 9 * (Math_PI - 3)) by field.
  assert (H : 0 <= Math_PI / 9 * (Math_PI - 3)).
  { apply Qmult_le_0_compat; [apply Qle_shift_div_l; lra | lra]. }
  lra.
Qed.

Lemma nat_num_lt (i j : nat) : (i < j)%nat -> nat_num i < nat_num j.
Proof. intros H. unfold nat_num. rewrite <- Zlt_Qlt. lia. Qed.

Lemma nat_num_plus (i j : nat) : nat_num (i + j) == nat_num i + nat_num j.
Proof. unfold nat_num. rewrite Nat2Z.inj_add, inject_Z_plus. reflexivity. Qed.

Lemma nat_num_samples : nat_num (Z.to_nat 44100) = 44100.
Proof. unfold nat_num. rewrite Z2Nat.id by lia. reflexivity. Qed.

(** X20.  For an amount that is not negative the distortion curve rises
    strictly from its first sample to its last, is odd about its middle
    (the samples at [i] and at [44100 - i] are opposite), and stays within
    [pi / 9], about 0.35, of zero: the waveshaper never turns the signal
    over and never lets it above that level. *)
Theorem distortion_curve_is_rising_odd_and_bounded (amount : Q) (i j : nat) :
  0 <= amount -> (i <= j < Z.to_nat 44100)%nat ->
  exists yi yj,
    createDistortionCurve amount !! i = Some yi
    /\ createDistortionCurve amount !! j = Some yj
    /\ ((i < j)%nat -> yi < yj)
    /\ ((i + j)%nat = Z.to_nat 44100 -> yj == - yi)
    /\ - (Math_PI / 9) <= yi /\ yj < Math_PI / 9.
Proof.
  intros Hk [Hij Hj].
  destruct (distortionCurveOf_spec (Z.to_nat 44100) amount i) as [_ Hyi]; [lia|].
  destruct (distortionCurveOf_spec (Z.to_nat 44100) amount j Hj) as [_ Hyj].
  unfold createDistortionCurve. rewrite Hyi, Hyj. clear Hyi Hyj.
  eexists _, _. split; [reflexivity|]. split; [reflexivity|].
  cbv zeta. rewrite nat_num_samples.
  set (x := nat_num i * 2 / 44100 - 1). set (y := nat_num j * 2 / 44100 - 1).
  assert (Hi0 : 0 <= nat_num i) by (unfold nat_num; rewrite <- (Zle_Qle 0); lia).
  assert (Hj1 : nat_num j < 44100).
  { rewrite <- nat_num_samples. apply nat_num_lt. exact Hj. }
  assert (Ex : x == nat_num i * (2 # 44100) - 1) by (unfold x; field).
  assert (Ey : y == nat_num j * (2 # 44100) - 1) by (unfold y; field).
  assert (Hx : -1 <= x) by lra.
  assert (Hy : y < 1) by lra.
  split; [|split; [|split]].
  - intros Hlt. apply shaper_rising; [exact Hk|].
    pose proof (nat_num_lt i j Hlt). lra.
  - intros Hsum.
    assert (Hxy : y == - x).
    { assert (E : nat_num i + nat_num j == 44100).
      { rewrite <- nat_num_plus, Hsum, nat_num_samples. reflexivity. }
      lra. }
    rewrite Hxy. apply shaper_odd. exact Hk.
  - destruct (Qeq_dec x (-1)) as [E|Hne].
    + rewrite E. rewrite (shaper_odd amount 1 Hk).
      pose proof (shaper_at_one amount Hk). lra.
    + assert (Hlt : -1 < x).
      { destruct (Qlt_le_dec (-1) x) as [?|Hle]; [assumption|].
        exfalso. apply Hne. lra. }
      pose proof (shaper_rising amount (-1) x Hk Hlt) as H.
      rewrite (shaper_odd amount 1 Hk) in H.
      pose proof (shaper_at_one amount Hk). lra.
  - pose proof (shaper_rising amount y 1 Hk Hy) as H.
    pose proof (shaper_at_one amount Hk). lra.
Qed.

Lemma distortion_curve_is_rising_odd_and_bounded_witness :
  exists yi yj,
    createDistortionCurve 50 !! 0%nat = Some yi
    /\ createDistortionCurve 50 !! 1%nat = Some yj
    /\ yi < yj /\ yj < Math_PI / 9.
Proof.
  destruct (distortion_curve_is_rising_odd_and_bounded 50 0 1)
    as (yi & yj & Hi & Hj & Hrise & _ & _ & Hbound).
  - discriminate.
  - lia.
  - exists yi, yj. split; [exact Hi|]. split; [exact Hj|]. split.
    + apply Hrise. lia.
    + exact Hbound.
Defined.

(** ** The level of the impulse response *)

Section ImpulseLevel.

Import Reverb.
Local Open Scope R_scope.

Lemma envelopeAt_range (length : nat) (decay : R) (i : nat) :
  0 <= decay -> (i < length)%nat ->
  0 < envelopeAt length decay i <= 1.
Proof.
  intros Hd Hi. split.
  - unfold envelopeAt, Math_pow, Rpower. apply exp_pos.
  - assert (H0 : envelopeAt length decay 0 = 1).
    { unfold envelopeAt, Math_pow, Rpower. cbn [INR].
      replace (1 - 0 / INR length) with 1 by (unfold Rdiv; ring).
      rewrite ln_1, Rmult_0_r. apply exp_0. }
    rewrite <- H0. apply envelopeAt_monotone; [exact Hd | lia].
Qed.

(** X21.  When [Math.random] keeps to its range, from 0 to below 1, and
    the decay is not negative: for a duration of one second or more the
    impulse response is made, and no sample of it is outside the range
    from -1 to 1, in either channel; for the duration 0 no buffer is
    made: [createBuffer] raises its [NotSupportedError] out of
    [createImpulseResponse], before any draw of [Math.random]. *)
Theorem impulse_response_stays_within_full_scale
    (random : nat -> R) (ctx : AudioContext) (duration : nat) (decay : R) (calls : nat) :
  (forall k, 0 <= random k < 1) -> 0 <= decay ->
  let length := (Pos.to_nat (sampleRate ctx) * duration)%nat in
  (duration = 0%nat ->
     createImpulseResponse random (Some ctx) duration decay calls
     = (Raised "NotSupportedError", calls))
  /\ ((0 < duration)%nat ->
      exists buf,
        createImpulseResponse random (Some ctx) duration decay calls
        = (Returned (Some buf), (calls + 2 * length)%nat)
        /\ Datatypes.length (channels buf) = 2%nat
        /\ (forall data, data ∈ channels buf -> Datatypes.length data = length)
        /\ forall data x, data ∈ channels buf -> x ∈ data -> -1 <= x <= 1).
Proof.
  intros Hrandom Hdecay length. split.
  { intros ->. apply createImpulseResponse_raises. }
  intros Hduration.
  destruct (createImpulseResponse_spec random ctx duration decay calls Hduration)
    as (data0 & data1 & Hrun & Hl0 & Hl1 & Hsamples).
  fold length in Hrun, Hl0, Hl1, Hsamples.
  rewrite Hrun. eexists. split; [reflexivity|].
  cbn [channels]. split; [reflexivity|].
  assert (Hbound : forall c i, (i < length)%nat -> -1 <= sampleAt random length decay c i <= 1).
  { intros c i Hi. unfold sampleAt.
    destruct (envelopeAt_range length decay i Hdecay Hi) as [He0 He1].
    destruct (Hrandom (c + i)%nat) as [Hr0 Hr1].
    set (e := envelopeAt length decay i) in *. set (r := random (c + i)%nat) in *.
    split; Lra.nra. }
  split.
  { intros data Hdata. apply elem_of_cons in Hdata as [->|Hdata]; [exact Hl0|].
    apply list_elem_of_singleton in Hdata as ->. exact Hl1. }
  intros data x Hdata Hx.
  apply list_elem_of_lookup in Hx as [i Hx].
  pose proof (lookup_lt_Some _ _ _ Hx) as Hi.
  apply elem_of_cons in Hdata as [->|Hdata].
  - rewrite Hl0 in Hi. destruct (Hsamples i Hi) as [H0 _].
    rewrite H0 in Hx. injection Hx as <-. apply Hbound. exact Hi.
  - apply list_elem_of_singleton in Hdata as ->.
    rewrite Hl1 in Hi. destruct (Hsamples i Hi) as [_ H1].
    rewrite H1 in Hx. injection Hx as <-. apply Hbound. exact Hi.
Qed.

End ImpulseLevel.

Lemma impulse_response_stays_within_full_scale_witness :
  (exists buf,
     Reverb.createImpulseResponse (fun _ => 0%R) (Some (newAudioContext 44100)) 2
       (Q2R (0.2 * 10)) 0
     = (Reverb.Returned (Some buf), (0 + 2 * (Pos.to_nat 44100 * 2))%nat)
     /\ forall data x, data ∈ Reverb.channels buf -> x ∈ data -> (-1 <= x <= 1)%R)
  /\ Reverb.createImpulseResponse (fun _ => 0%R) (Some (newAudioContext 44100)) 0
       (Q2R (0.2 * 10)) 7
     = (Reverb.Raised "NotSupportedError", 7%nat).
Proof.
  assert (Hrandom : forall k : nat, (0 <= (fun _ : nat => 0%R) k < 1)%R)
    by (intros _; Lra.lra).
  assert (Hdecay : (0 <= Q2R (0.2 * 10))%R) by (apply Q2R_nonneg; discriminate).
  split.
  - destruct (impulse_response_stays_within_full_scale (fun _ => 0%R)
                (newAudioContext 44100) 2 (Q2R (0.2 * 10)) 0 Hrandom Hdecay)
      as [_ Hmade].
    destruct (Hmade ltac:(lia)) as (buf & Hrun & _ & _ & Hbound).
    exists buf. split; [exact Hrun | exact Hbound].
  - destruct (impulse_response_stays_within_full_scale (fun _ => 0%R)
                (newAudioContext 44100) 0 (Q2R (0.2 * 10)) 7 Hrandom Hdecay)
      as [Hraised _].
    apply Hraised. reflexivity.
Defined.

(** ** A note-off after a note-off, and what no event does *)

Lemma stopNote_threw (s : Synth) (ctx : AudioContext) (g : nat) (vg : Voice) :
  audioContextRef s = Some ctx ->
  oscillatorRef s = Some g -> gainNodeRef s = Some g ->
  voices ctx !! g = Some vg ->
  0 <= currentTime ctx ->
  currentTime ctx + release (envelope (params s)) < 0 ->
  stopNote s =
  (None,
   {| params := params s; isPlaying := isPlaying s;
      audioContextRef :=
        Some (withVoices ctx
                (<[ g := withGain vg (pinnedGain (currentTime ctx) (gain (v_gainNode vg))) ]>
                   (voices ctx)));
      oscillatorRef := Some g; gainNodeRef := Some g;
      filterNodeRef := filterNodeRef s |}).
Proof.
  intros Hctx Ho Hg Hvg Hnow Hneg.
  pose proof (lookup_lt_Some _ _ _ Hvg) as Hlt.
  set (now := currentTime ctx) in *.
  assert (Hcancel : cancelScheduledValues now (gain (v_gainNode vg))
                    = Some {| param_value := param_value (gain (v_gainNode vg));
                              param_events :=
                                List.filter (fun e => negb (Qle_bool now (eventTime e)))
                                  (param_events (gain (v_gainNode vg))) |}).
  { unfold cancelScheduledValues. rewrite negative_num_false by exact Hnow. reflexivity. }
  set (p1 := {| param_value := param_value (gain (v_gainNode vg)); param_events := _ |})
    in Hcancel.
  assert (Hset : setValueAtTime (param_value p1) now p1
                 = Some (pinnedGain now (gain (v_gainNode vg)))).
  { unfold setValueAtTime. rewrite negative_num_false by exact Hnow. reflexivity. }
  assert (Hramp : linearRampToValueAtTime 0 (now + release (envelope (params s))) now
                    (pinnedGain now (gain (v_gainNode vg))) = None).
  { unfold linearRampToValueAtTime. rewrite negative_num_true by exact Hneg. reflexivity. }
  unfold stopNote. rewrite Ho, Hg, Hctx. fold now.
  rewrite Handler_bind_run.
  rewrite (onGain_run g _ s ctx vg p1 Hctx Hvg Hcancel). cbv beta iota.
  rewrite Handler_bind_run.
  unfold gainValue. rewrite Handler_bind_run. unfold voiceAt at 1.
  cbn [audioContextRef withVoices voices].
  rewrite list_lookup_insert_eq by exact Hlt.
  cbn [mret Handler_ret ret withGain v_gainNode gain]. cbv beta iota.
  rewrite Handler_bind_run.
  erewrite onGain_run;
    [| reflexivity
     | cbn [withVoices voices]; apply list_lookup_insert_eq; exact Hlt
     | cbn [withGain v_gainNode gain]; exact Hset ].
  cbv beta iota.
  rewrite Handler_bind_run.
  cbn [withVoices voices]. rewrite list_insert_insert_eq.
  erewrite onGain_throw;
    [| reflexivity
     | cbn [withVoices voices]; apply list_lookup_insert_eq; exact Hlt
     | cbn [withGain v_gainNode gain]; exact Hramp ].
  cbn. rewrite Ho, Hg. reflexivity.
Qed.

Lemma filter_filter_before (now : Q) (evs : list AutomationEvent) :
  List.filter (fun e => negb (Qle_bool now (eventTime e)))
    (List.filter (fun e => negb (Qle_bool now (eventTime e))) evs)
  = List.filter (fun e => negb (Qle_bool now (eventTime e))) evs.
Proof.
  induction evs as [|e evs IH]; [reflexivity|].
  cbn [List.filter]. destruct (negb (Qle_bool now (eventTime e))) eqn:E; [|exact IH].
  cbn [List.filter]. rewrite E, IH. reflexivity.
Qed.

Lemma pinnedGain_again (now : Q) (p : AudioParam) :
  pinnedGain now (pinnedGain now p) = pinnedGain now p.
Proof.
  unfold pinnedGain. cbn [param_value param_events]. f_equal. f_equal.
  pose proof (filter_before now (param_events p)) as Hbefore.
  set (kept := List.filter _ (param_events p)) in *.
  rewrite (insertEvent_last (SetValue (param_value p) now) kept Hbefore).
  rewrite List.filter_app. cbn [List.filter eventTime].
  rewrite (Qle_bool_true now now) by lra. cbn [negb].
  unfold kept. rewrite filter_filter_before. apply app_nil_r.
Qed.

Lemma filter_keeps_earlier (t : Q) (evs : list AutomationEvent) :
  Forall (fun x => eventTime x < t) evs ->
  List.filter (fun e => negb (Qle_bool t (eventTime e))) evs = evs.
Proof.
  induction 1 as [|x rest Hx _ IH]; [reflexivity|].
  cbn [List.filter]. rewrite (Qle_bool_false t (eventTime x)) by exact Hx.
  cbn [negb]. rewrite IH. reflexivity.
Qed.

(** A pin at a later time is one more event. *)
Lemma pinnedGain_later (now t : Q) (p q : AudioParam) :
  now < t ->
  param_events q = param_events (pinnedGain now p) ->
  pinnedGain t q <> q.
Proof.
  intros Ht Hq Heq. apply (f_equal param_events) in Heq.
  unfold pinnedGain in Heq, Hq. cbn [param_events] in Heq, Hq.
  pose proof (filter_before now (param_events p)) as Hbefore.
  set (kept := List.filter _ (param_events p)) in *.
  rewrite (insertEvent_last (SetValue (param_value p) now) kept Hbefore) in Hq.
  assert (Hearlier : Forall (fun x => eventTime x < t) (param_events q)).
  { rewrite Hq. apply Forall_app. split.
    - eapply Forall_impl; [exact Hbefore|]. cbn. intros x Hx. lra.
    - constructor; [exact Ht | constructor]. }
  rewrite (filter_keeps_earlier t _ Hearlier) in Heq.
  rewrite insertEvent_last in Heq.
  - apply (f_equal (@length _)) in Heq. rewrite length_app in Heq. cbn in Heq. lia.
  - eapply Forall_impl; [exact Hearlier|]. cbn. intros x Hx. lra.
Qed.

Lemma stopNote_returned_idle (s : Synth) :
  wellFormed s -> fst (stopNote s) = Some tt -> oscillatorRef (run stopNote s) = None.
Proof.
  intros (ctx & Hctx & Hnow & Hog & Hbound) Hret.
  destruct (gainNodeRef s) as [g|] eqn:Hg.
  - destruct (lookup_lt_is_Some_2 (voices ctx) g (Hbound g eq_refl)) as [vg Hvg].
    destruct (stopNote_cases s ctx g vg Hctx Hog Hg Hvg Hnow)
      as [p [[_ Hrun]|[_ Hrun]]].
    + unfold run. rewrite Hrun. reflexivity.
    + rewrite Hrun in Hret. discriminate.
  - unfold run. rewrite (stopNote_idle s Hog). exact Hog.
Qed.

Lemma step_stays_idle (e : Event) (s : Synth) :
  startsNoNote e -> oscillatorRef s = None -> oscillatorRef (step e s) = None.
Proof.
  intros He Ho. destruct e; cbn [step]; try exact Ho; [destruct He|].
  unfold run. rewrite (stopNote_idle s Ho). exact Ho.
Qed.

Lemma steps_stay_idle (es : list Event) (s : Synth) :
  Forall startsNoNote es -> oscillatorRef s = None -> oscillatorRef (steps es s) = None.
Proof.
  intros Hes. revert s. induction Hes as [|e es He _ IH]; intros s Ho; [exact Ho|].
  apply IH, step_stays_idle; assumption.
Qed.

Lemma pageSteps_away (toLowerCase : string -> string) (es : list PageEvent)
    (st : Keyboard.State * Synth) :
  Forall awayFromKeyboard es -> oscillatorRef (snd st) = None ->
  fst (pageSteps toLowerCase es st) = fst st
  /\ oscillatorRef (snd (pageSteps toLowerCase es st)) = None.
Proof.
  intros Hes. revert st. induction Hes as [|e es He _ IH]; intros st Ho;
    [split; [reflexivity | exact Ho]|].
  cbn [pageSteps foldl]. fold (pageSteps toLowerCase es (pageStep toLowerCase e st)).
  assert (Hstep : fst (pageStep toLowerCase e st) = fst st
                  /\ oscillatorRef (snd (pageStep toLowerCase e st)) = None).
  { destruct e; cbn [pageStep fst snd]; try (split; [reflexivity | exact Ho]).
    destruct He. }
  destruct Hstep as [Hk Hs]. destruct (IH _ Hs) as [Hk' Hs'].
  split; [congruence | exact Hs'].
Qed.

(** X22.  A note-off after a note-off.  With nothing rendered between
    the two, the second ends as the first did and leaves the state that
    the first left, whichever way the first ended; so it is for the mouse
    leaving a button of the keyboard right after the mouse-up on it.  When
    the first note-off returned, the refs are cleared, and a later
    note-off returns and changes nothing whatever rendering, parameter
    changes, preset loads and note-offs came between (no note was
    started): the mouse leaving the button changes nothing, however long
    after the mouse-up.  When the first note-off was ended by the
    [RangeError] of its ramp (a release so negative that the stop time is
    negative), the refs stay, and a note-off after the clock has moved
    acts again: it changes the state. *)
Theorem second_note_off_changes_nothing
    (toLowerCase : string -> string) (k : Keyboard.State) (s : Synth)
    (between : list Event) (page : list PageEvent) (t : Q) :
  wellFormed s ->
  Forall startsNoNote between ->
  Forall awayFromKeyboard page ->
  let up := Keyboard.handle synthKeyboard toLowerCase Keyboard.MouseUp k s in
  stopNote (run stopNote s) = (fst (stopNote s), run stopNote s)
  /\ Keyboard.handle synthKeyboard toLowerCase Keyboard.MouseLeave
       (fst (snd up)) (snd (snd up)) = up
  /\ (fst (stopNote s) = Some tt ->
      (let later := steps between (run stopNote s) in
       stopNote later = (Some tt, later))
      /\ fst up = Some tt
      /\ (let later := pageSteps toLowerCase page (snd up) in
          Keyboard.handle synthKeyboard toLowerCase Keyboard.MouseLeave
            (fst later) (snd later) = (Some tt, later)))
  /\ (fst (stopNote s) = None -> clockOf s < t ->
      let later := render t (run stopNote s) in
      run stopNote later <> later).
Proof.
  intros Hwf Hbetween Hpage up.
  assert (Hsynth : stopNote (run stopNote s) = (fst (stopNote s), run stopNote s)).
  { destruct Hwf as (ctx & Hctx & Hnow & Hog & Hbound).
    destruct (gainNodeRef s) as [g|] eqn:Hg.
    - destruct (lookup_lt_is_Some_2 (voices ctx) g (Hbound g eq_refl)) as [vg Hvg].
      destruct (Qlt_le_dec (currentTime ctx + release (envelope (params s))) 0)
        as [Hneg|Hpos].
      + pose proof (stopNote_threw s ctx g vg Hctx Hog Hg Hvg Hnow Hneg) as Hrun.
        unfold run. rewrite Hrun. cbn [fst snd].
        erewrite stopNote_threw;
          [| reflexivity | reflexivity | reflexivity
           | cbn [withVoices voices]; apply list_lookup_insert_eq;
             eapply lookup_lt_Some; exact Hvg
           | exact Hnow | exact Hneg ].
        cbn [params isPlaying filterNodeRef currentTime withVoices voices
             withGain v_gainNode gain].
        rewrite pinnedGain_again, list_insert_insert_eq. reflexivity.
      + destruct (stopNote_cases s ctx g vg Hctx Hog Hg Hvg Hnow)
          as [p [[_ Hrun]|[Hneg _]]]; [|lra].
        unfold run. rewrite Hrun. reflexivity.
    - unfold run. rewrite (stopNote_idle s Hog). cbn [fst snd].
      apply stopNote_idle. exact Hog. }
  assert (Hup : up = (fst (stopNote s),
                      (match fst (stopNote s) with
                       | Some _ => Keyboard.setActiveNote None k
                       | None => k
                       end, run stopNote s))).
  { unfold up. cbn [Keyboard.handle]. apply keyboard_stopNote_run. }
  split; [exact Hsynth|].
  split.
  { assert (Hrun : run stopNote (run stopNote s) = run stopNote s).
    { unfold run at 1. rewrite Hsynth. reflexivity. }
    rewrite Hup. cbn [Keyboard.handle fst snd]. rewrite keyboard_stopNote_run.
    rewrite Hrun, Hsynth. cbn [fst snd].
    destruct (fst (stopNote s)); reflexivity. }
  split.
  { intros Hret.
    pose proof (stopNote_returned_idle s Hwf Hret) as Hidle.
    split; [|split].
    - intros later. apply stopNote_idle.
      apply steps_stay_idle; [exact Hbetween | exact Hidle].
    - rewrite Hup. exact Hret.
    - intros later.
      assert (Hlater : fst later = Keyboard.setActiveNote None k
                       /\ oscillatorRef (snd later) = None).
      { unfold later. rewrite Hup, Hret. cbn [snd].
        apply (pageSteps_away toLowerCase page
                 (Keyboard.setActiveNote None k, run stopNote s) Hpage Hidle). }
      destruct Hlater as [Hk Hidle'].
      cbn [Keyboard.handle]. rewrite keyboard_stopNote_run.
      rewrite (stopNote_idle (snd later) Hidle'). cbn [fst snd]. unfold run.
      rewrite (stopNote_idle (snd later) Hidle'). cbn [snd].
      rewrite Hk. destruct later as [k' s']. cbn [fst snd] in *. rewrite Hk.
      reflexivity. }
  intros Hraised Ht later.
  destruct Hwf as (ctx & Hctx & Hnow & Hog & Hbound).
  unfold clockOf in Ht. rewrite Hctx in Ht.
  destruct (gainNodeRef s) as [g|] eqn:Hg;
    [|rewrite (stopNote_idle s Hog) in Hraised; discriminate].
  destruct (lookup_lt_is_Some_2 (voices ctx) g (Hbound g eq_refl)) as [vg Hvg].
  pose proof (lookup_lt_Some _ _ _ Hvg) as Hlt.
  destruct (Qlt_le_dec (currentTime ctx + release (envelope (params s))) 0)
    as [Hneg|Hpos].
  2:{ destruct (stopNote_cases s ctx g vg Hctx Hog Hg Hvg Hnow)
        as [p [[_ Hrun]|[Hneg _]]]; [|lra].
      rewrite Hrun in Hraised. discriminate. }
  pose proof (stopNote_threw s ctx g vg Hctx Hog Hg Hvg Hnow Hneg) as Hrun.
  set (pinned := withGain vg (pinnedGain (currentTime ctx) (gain (v_gainNode vg)))) in *.
  set (ctx' := {| currentTime := t; sampleRate := sampleRate ctx;
                  voices := map (renderVoice t) (<[ g := pinned ]> (voices ctx)) |}).
  assert (Hlater : later
                   = {| params := params s; isPlaying := isPlaying s;
                        audioContextRef := Some ctx';
                        oscillatorRef := Some g; gainNodeRef := Some g;
                        filterNodeRef := filterNodeRef s |}).
  { unfold later, run. rewrite Hrun. cbn [snd]. unfold render.
    cbn [params isPlaying audioContextRef oscillatorRef gainNodeRef filterNodeRef
         fmap option_fmap option_map].
    rewrite renderContext_advance by (cbn [withVoices currentTime]; exact Ht).
    reflexivity. }
  assert (Hvg' : voices ctx' !! g = Some (renderVoice t pinned)).
  { cbn [ctx' voices]. rewrite list_lookup_fmap.
    rewrite list_lookup_insert_eq by exact Hlt. reflexivity. }
  assert (Hnow' : 0 <= currentTime ctx') by (cbn [ctx' currentTime]; lra).
  rewrite Hlater.
  set (s1 := {| params := params s; isPlaying := isPlaying s;
                audioContextRef := Some ctx'; oscillatorRef := Some g;
                gainNodeRef := Some g; filterNodeRef := filterNodeRef s |}).
  destruct (Qlt_le_dec (currentTime ctx' + release (envelope (params s1))) 0)
    as [Hneg'|Hpos'].
  - pose proof (stopNote_threw s1 ctx' g (renderVoice t pinned)
                  eq_refl eq_refl eq_refl Hvg' Hnow' Hneg') as Hrun'.
    unfold run. rewrite Hrun'. cbn [snd]. intros Heq.
    apply (f_equal (fun s => voicesOf s !! g)) in Heq.
    unfold voicesOf in Heq. cbn [s1 audioContextRef withVoices voices] in Heq.
    rewrite Hvg' in Heq.
    rewrite list_lookup_insert_eq in Heq
      by (apply lookup_lt_Some in Hvg'; exact Hvg').
    apply (inj Some) in Heq.
    apply (f_equal (fun v => gain (v_gainNode v))) in Heq.
    cbn [withGain v_gainNode gain] in Heq.
    revert Heq. apply (pinnedGain_later (currentTime ctx) _ (gain (v_gainNode vg)));
      [exact Ht | reflexivity].
  - destruct (stopNote_cases s1 ctx' g (renderVoice t pinned)
                eq_refl eq_refl eq_refl Hvg' Hnow')
      as [p [[_ Hrun']|[Hneg' _]]]; [|lra].
    unfold run. rewrite Hrun'. cbn [snd]. intros Heq.
    apply (f_equal oscillatorRef) in Heq. discriminate.
Qed.

Lemma second_note_off_changes_nothing_witness :
  let s := render 1 (run (playNote 440) (mount 44100 initialSynth)) in
  let later := steps [Render 2; SetVolume 0.3; NoteOff; Render 3] (run stopNote s) in
  let refused :=
    render 1 (run (playNote 440)
                (run (updateParam envelope_cat "release" (VNum (-5)))
                   (mount 44100 initialSynth))) in
  stopNote (run stopNote s) = (fst (stopNote s), run stopNote s)
  /\ stopNote later = (Some tt, later)
  /\ fst (stopNote refused) = None
  /\ run stopNote (render 2 (run stopNote refused)) <> render 2 (run stopNote refused).
Proof.
  intros s later refused.
  assert (Hbetween : Forall startsNoNote [Render 2; SetVolume 0.3; NoteOff; Render 3])
    by (repeat constructor).
  destruct (second_note_off_changes_nothing (fun key => key) Keyboard.initialState s
              [Render 2; SetVolume 0.3; NoteOff; Render 3] [Tick 2] 2)
    as (Htwice & _ & Hreturned & _).
  - apply wellFormed_render, wellFormed_playNote, wellFormed_mount.
  - exact Hbetween.
  - repeat constructor.
  - split; [exact Htwice|]. split.
    + apply Hreturned. vm_compute. reflexivity.
    + destruct (second_note_off_changes_nothing (fun key => key) Keyboard.initialState
                  refused [] [] 2)
        as (_ & _ & _ & Hrefused).
      * apply wellFormed_render, wellFormed_playNote, wellFormed_setParams,
          wellFormed_mount.
      * constructor.
      * constructor.
      * assert (Hraised : fst (stopNote refused) = None) by (vm_compute; reflexivity).
        split; [exact Hraised|].
        apply Hrefused; [exact Hraised|]. vm_compute. reflexivity.
Defined.

Lemma sameGraph_refl (v : Voice) : sameGraph v v.
Proof. split; reflexivity. Qed.

Lemma sameGraph_trans (v1 v2 v3 : Voice) :
  sameGraph v1 v2 -> sameGraph v2 v3 -> sameGraph v1 v3.
Proof. intros [H1 H2] [H3 H4]. split; congruence. Qed.

Lemma stopNote_keeps_voices (s : Synth) (i : nat) (v : Voice) :
  wellFormed s -> voicesOf s !! i = Some v ->
  exists v', voicesOf (run stopNote s) !! i = Some v' /\ sameGraph v v'.
Proof.
  intros (ctx & Hctx & Hnow & Hog & Hbound) Hv.
  unfold voicesOf in Hv. rewrite Hctx in Hv.
  destruct (gainNodeRef s) as [g|] eqn:Hg.
  - destruct (lookup_lt_is_Some_2 (voices ctx) g (Hbound g eq_refl)) as [vg Hvg].
    destruct (stopNote_cases s ctx g vg Hctx Hog Hg Hvg Hnow)
      as [p [[_ Hrun]|[_ Hrun]]]; unfold run; rewrite Hrun;
      cbn [snd voicesOf audioContextRef withVoices voices].
    + destruct (decide (i = g)) as [->|Hne].
      * rewrite list_lookup_insert_eq by (eapply lookup_lt_Some; exact Hvg).
        eexists. split; [reflexivity|].
        assert (v = vg) by congruence. subst v. split; reflexivity.
      * rewrite list_lookup_insert_ne by congruence.
        exists v. split; [exact Hv | apply sameGraph_refl].
    + destruct (decide (i = g)) as [->|Hne].
      * rewrite list_lookup_insert_eq by (eapply lookup_lt_Some; exact Hvg).
        eexists. split; [reflexivity|].
        assert (v = vg) by congruence. subst v. split; reflexivity.
      * rewrite list_lookup_insert_ne by congruence.
        exists v. split; [exact Hv | apply sameGraph_refl].
  - unfold run. rewrite (stopNote_idle s Hog). cbn [snd]. unfold voicesOf. rewrite Hctx.
    exists v. split; [exact Hv | apply sameGraph_refl].
Qed.

Lemma playNote_keeps_voices (frequency : Q) (s : Synth) (i : nat) (v : Voice) :
  wellFormed s -> voicesOf s !! i = Some v ->
  exists v', voicesOf (run (playNote frequency) s) !! i = Some v' /\ sameGraph v v'.
Proof.
  intros Hwf Hv.
  destruct (stopNote_keeps_voices s i v Hwf Hv) as (v1 & Hv1 & Hsame).
  pose proof (wellFormed_stopNote s Hwf) as Hwf1.
  destruct Hwf as (ctx & Hctx & _).
  unfold run in *.
  destruct (stopNote s) as [[[]|] s1] eqn:Hstop; cbn [fst snd] in *.
  - destruct Hwf1 as (ctx1 & Hctx1 & _).
    destruct (buildVoice (params s1) frequency (currentTime ctx1)) as [w|] eqn:Hbuild.
    + rewrite (playNote_after_stop frequency s s1 ctx ctx1 w Hctx Hstop Hctx1 Hbuild).
      cbn [snd voicesOf audioContextRef withVoices voices].
      unfold voicesOf in Hv1. rewrite Hctx1 in Hv1.
      exists v1. split; [|exact Hsame].
      apply lookup_app_l_Some. exact Hv1.
    + rewrite (playNote_build_threw frequency s s1 ctx ctx1 Hctx Hstop Hctx1 Hbuild).
      exists v1. split; assumption.
  - rewrite (playNote_stop_threw frequency s s1 ctx Hctx Hstop).
    exists v1. split; assumption.
Qed.

Lemma render_keeps_voices (t : Q) (s : Synth) (i : nat) (v : Voice) :
  voicesOf s !! i = Some v ->
  exists v', voicesOf (render t s) !! i = Some v' /\ sameGraph v v'.
Proof.
  unfold voicesOf, render. cbn [audioContextRef].
  destruct (audioContextRef s) as [ctx|]; cbn [fmap option_fmap option_map];
    [|intros H; rewrite lookup_nil in H; discriminate].
  intros Hv. unfold renderContext. destruct (Qle_bool (currentTime ctx) t).
  - cbn [voices]. destruct (Qle_bool t (currentTime ctx)).
    + exists v. split; [exact Hv | apply sameGraph_refl].
    + rewrite list_lookup_fmap, Hv. cbn [fmap option_fmap option_map].
      eexists. split; [reflexivity|]. split; reflexivity.
  - exists v. split; [exact Hv | apply sameGraph_refl].
Qed.

Lemma wellFormed_step (e : Event) (s : Synth) : wellFormed s -> wellFormed (step e s).
Proof.
  intros Hwf. destruct e; cbn [step].
  - apply wellFormed_playNote, Hwf.
  - apply wellFormed_stopNote, Hwf.
  - apply wellFormed_setParams, Hwf.
  - apply wellFormed_setParams, Hwf.
  - apply wellFormed_setParams, Hwf.
  - apply wellFormed_render, Hwf.
Qed.

Lemma step_keeps_voices (e : Event) (s : Synth) (i : nat) (v : Voice) :
  wellFormed s -> voicesOf s !! i = Some v ->
  exists v', voicesOf (step e s) !! i = Some v' /\ sameGraph v v'.
Proof.
  intros Hwf Hv. destruct e; cbn [step].
  - apply playNote_keeps_voices; assumption.
  - apply stopNote_keeps_voices; assumption.
  - exists v. split; [exact Hv | apply sameGraph_refl].
  - exists v. split; [exact Hv | apply sameGraph_refl].
  - exists v. split; [exact Hv | apply sameGraph_refl].
  - apply render_keeps_voices. exact Hv.
Qed.

(** X23.  No event ever removes a voice, rewires it or retunes it.
    Whatever note-ons, note-offs, parameter changes, preset loads and
    rendering follow, and however the handlers end, a voice of the context
    stays where it is with the connections and the oscillator frequency it
    was built with.  So it stays wired to the destination, and the
    context never has fewer voices than before. *)
Theorem no_event_removes_or_rewires_a_voice
    (es : list Event) (s : Synth) (i : nat) (v : Voice) :
  wellFormed s -> voicesOf s !! i = Some v ->
  exists v',
    voicesOf (steps es s) !! i = Some v'
    /\ v_connections v' = v_connections v
    /\ param_events (oscillator_frequency (v_oscillator v'))
       = param_events (oscillator_frequency (v_oscillator v))
    /\ wired v' = wired v
    /\ (length (voicesOf s) <= length (voicesOf (steps es s)))%nat.
Proof.
  intros Hwf Hv.
  assert (H : forall s0, wellFormed s0 ->
            (forall j w, voicesOf s0 !! j = Some w ->
               exists w', voicesOf (steps es s0) !! j = Some w' /\ sameGraph w w')).
  { induction es as [|e es IH]; intros s0 Hwf0 j w Hw.
    - exists w. split; [exact Hw | apply sameGraph_refl].
    - cbn [steps foldl].
      destruct (step_keeps_voices e s0 j w Hwf0 Hw) as (w1 & Hw1 & Hsame1).
      destruct (IH (step e s0) (wellFormed_step e s0 Hwf0) j w1 Hw1) as (w2 & Hw2 & Hsame2).
      exists w2. split; [exact Hw2 | eapply sameGraph_trans; eassumption]. }
  destruct (H s Hwf i v Hv) as (v' & Hv' & Hconn & Hpitch).
  exists v'. split; [exact Hv'|]. split; [exact Hconn|]. split; [exact Hpitch|].
  split; [unfold wired; rewrite Hconn; reflexivity|].
  destruct (le_lt_dec (length (voicesOf s)) (length (voicesOf (steps es s))))
    as [Hle|Hlt]; [exact Hle|].
  exfalso.
  destruct (lookup_lt_is_Some_2 (voicesOf s) (length (voicesOf (steps es s))) Hlt)
    as [w Hw].
  destruct (H s Hwf _ w Hw) as (w' & Hw' & _).
  apply lookup_lt_Some in Hw'. lia.
Qed.

Lemma no_event_removes_or_rewires_a_voice_witness :
  let s := run (playNote 440) (mount 44100 initialSynth) in
  let es := [Render 1; NoteOff; UpdateParam effects_cat "delay" (VNum 0); NoteOn 523.25] in
  exists v v',
    voicesOf s !! 0%nat = Some v
    /\ voicesOf (steps es s) !! 0%nat = Some v'
    /\ v_connections v' = v_connections v
    /\ wired v' = wired v.
Proof.
  intros s es.
  destruct (voicesOf s !! 0%nat) as [v|] eqn:Hv; [|exfalso; vm_compute in Hv; discriminate Hv].
  destruct (no_event_removes_or_rewires_a_voice es s 0 v) as (v' & Hv' & Hconn & _ & Hwired & _).
  - apply wellFormed_playNote, wellFormed_mount.
  - exact Hv.
  - exists v, v'. split; [reflexivity|]. split; [exact Hv'|]. split; [exact Hconn|].
    exact Hwired.
Defined.
